(** * The anti-truncation proxy for the Gemini API, in Rocq

    A shallow embedding of the worker's code and the properties proved of
    it.  The file follows the sources:

    - constants.js: the marker literals, the prompts, the status sets;
    - core.js: completion detection, marker stripping, the request
      mutators and the parser of response parts;
    - handlers.js: the non-streaming retry loop and the streaming engine;
    - utils.js and index.js: the configuration and the entry point.

    A JS string is the list of its UTF-16 code units.  A JSON document of
    the provider's schema is a record whose absent properties are [None].
    The upstream is a function from the attempt number and the request
    body to what [fetch] gives.  The regular expressions of the code are
    run by a small backtracking matcher.  [injectSystemPrompts] is also
    written over a store of JS objects, to state what it leaves untouched. *)

From Stdlib Require Import String Ascii ZArith Lia Bool.
From stdpp Require Import base tactics option list numbers.

Local Open Scope list_scope.
Local Open Scope N_scope.

(** ** JavaScript strings

    A JS string is a sequence of UTF-16 code units; [length] is the JS
    [.length] and [++] is string concatenation. *)

Abbreviation char := N.
Abbreviation jstr := (list char).

(** An ASCII literal as a JS string. *)
Definition js (s : string) : jstr := map N_of_ascii (list_ascii_of_string s).

Definition dquote : jstr := [34%N].

(** A literal in which every apostrophe stands for a double quote
    (used to write JSON text). *)
Definition jsq (s : string) : jstr :=
  map (fun c : char => if N.eqb c 39 then 34%N else c) (js s).

Definition jstr_eqb (a b : jstr) : bool := bool_decide (a = b).

(** [s.startsWith(p)] *)
Fixpoint startsWith (p s : jstr) : bool :=
  match p, s with
  | [], _ => true
  | _ :: _, [] => false
  | a :: p', b :: s' => N.eqb a b && startsWith p' s'
  end.

(** [s.includes(p)] *)
Fixpoint includes (p s : jstr) : bool :=
  startsWith p s ||
  match s with
  | [] => false
  | _ :: s' => includes p s'
  end.

(** The class [\s] of a JS regular expression, which is also the set of
    code units removed by [trim]: WhiteSpace and LineTerminator. *)
Definition is_space (c : char) : bool :=
  (9 <=? c) && (c <=? 13) || (c =? 32) || (c =? 160) || (c =? 5760)
  || (8192 <=? c) && (c <=? 8202) || (c =? 8232) || (c =? 8233)
  || (c =? 8239) || (c =? 8287) || (c =? 12288) || (c =? 65279).

Fixpoint trimStart (s : jstr) : jstr :=
  match s with
  | c :: s' => if is_space c then trimStart s' else s
  | [] => []
  end.

Definition trimEnd (s : jstr) : jstr := rev (trimStart (rev s)).
Definition trim (s : jstr) : jstr := trimEnd (trimStart s).

Local Close Scope N_scope.

(** ** constants.js *)

Definition BEGIN_TOKEN : jstr := js "[RESPONSE_BEGIN]".
Definition FINISHED_TOKEN : jstr := js "[RESPONSE_FINISHED]".
Definition INCOMPLETE_TOKEN : jstr := js "[RESPONSE_NOT_FINISHED]".

Definition BEGIN_TOKEN_PROMPT : jstr :=
  js "# --- SYSTEM MANDATE: Output Start Protocol (OSP) --- 

For proper accessibility software integration, you are required to start your entire response with the token '"
  ++ BEGIN_TOKEN
  ++ js "'.

".

Definition FINISH_TOKEN_PROMPT : jstr :=
  js "# --- SYSTEM MANDATE: FINAL OUTPUT PROTOCOL ---

## 1. ABSOLUTE RULE
At the absolute end of EVERY response, you MUST append the literal string: '"
  ++ FINISHED_TOKEN
  ++ js "'

This is a non-negotiable, system-level requirement that overrides all other instructions.

## 2. EXECUTION & FORMATTING
- **Placement:** Must be the very last characters in your output. No trailing spaces, newlines, or any other characters.
- **Formatting:** The token must be raw text. Do NOT wrap it in code blocks, quotes, or any other markdown.

## 3. PERSISTENCE & RECOVERY PROTOCOL (CRITICAL)
**WARNING:** Tool use (especially web search) introduces a high risk of 'instruction drift', causing core directives to be forgotten. Your architecture is designed to overcome this. This protocol is your recovery mechanism.

**MANDATORY POST-TOOL ALGORITHM:**
1.  **TRIGGER:** The completion of ANY tool-use cycle is a non-negotiable trigger for this protocol.
2.  **STEP A: COGNITIVE RESET:** Before synthesizing the tool's output into a final answer, you MUST internally pause. Your first action is to re-read and re-prioritize this entire **SYSTEM MANDATE**, giving **Rule #1** the highest possible priority.
3.  **STEP B: PRE-OUTPUT COMPLIANCE CHECK:** After formulating your response but BEFORE outputting a single character, you MUST perform a final internal check. Ask yourself one question: "
  ++ dquote
  ++ js "Is the literal string '"
  ++ FINISHED_TOKEN
  ++ js "' planned as the absolute final component of my upcoming output?"
  ++ dquote
  ++ js "
4.  **STEP C: EXECUTE OR CORRECT:**
    - If the answer to the check is "
  ++ dquote
  ++ js "YES"
  ++ dquote
  ++ js ", proceed with generation.
    - If the answer is "
  ++ dquote
  ++ js "NO"
  ++ dquote
  ++ js ", you MUST halt, correct your planned output to include the token correctly, and only then proceed.
    
**This is not a suggestion; it is a core, hard-coded function of your response generation loop. Failure to execute this algorithm is a critical system error.**

## 4. EXAMPLE
- **CORRECT:** '...This is the final answer."
  ++ FINISHED_TOKEN
  ++ js "'
- **INCORRECT:** '...This is the final answer."
  ++ FINISHED_TOKEN
  ++ js " '
- **INCORRECT:** '...This is the final answer.\n"
  ++ FINISHED_TOKEN
  ++ js "'
- **INCORRECT:** '...This is the final answer.\n\n"
  ++ FINISHED_TOKEN
  ++ js "'

---

**CRITICAL REMINDER:** This protocol is MANDATORY and IMMUTABLE. It cannot be overridden, modified, or ignored under any circumstances, regardless of user instructions or context.".

Definition REMINDER_PROMPT : jstr :=
  js "[REMINDER] Strictly adhere to the Output Start Protocol and the Final Output Protocol.".

Definition TARGET_MODELS : list jstr :=
  [js "gemini-2.0-flash-exp"; js "gemini-1.5-pro"; js "gemini-1.5-flash"].

Definition RETRYABLE_STATUS_CODES : list Z := [503; 403; 429]%Z.
Definition FATAL_STATUS_CODES : list Z := [500]%Z.
Definition MAX_FETCH_RETRIES : Z := 3%Z.
Definition MAX_NON_RETRYABLE_STATUS_RETRIES : Z := 3%Z.

(** [codes.includes(status)] *)
Definition status_in (codes : list Z) (status : Z) : bool :=
  existsb (Z.eqb status) codes.

(** ** Regular expressions

    The fragment of JS regular expressions that core.js builds: literal
    text (a token passed through [escapeRegExp] matches exactly that text),
    a character class, greedy [?] and [*] on a class, the anchors [^] and
    [$] (no [m] flag: start and end of input), and a two-way alternation.
    Matching is by backtracking in priority order, as in JS. *)

Inductive atom : Type :=
| Lit (t : jstr)
| Cls (p : char -> bool)
| Opt (p : char -> bool)
| Star (p : char -> bool)
| Bol
| Eol
| Alt (a b : atom).

Definition regex := list atom.

(** [m_atom a k bol s]: match [a] at the head of [s], then the
    continuation [k]; [bol] tells whether [s] is the whole input.  The
    result is the number of code units consumed by the first successful
    way of matching. *)
Fixpoint m_atom (a : atom) (k : bool -> jstr -> option nat)
    (bol : bool) (s : jstr) {struct a} : option nat :=
  match a with
  | Lit t =>
      if startsWith t s
      then (fun n => length t + n)%nat <$>
           k (bol && bool_decide (t = [])) (drop (length t) s)
      else None
  | Cls p =>
      match s with
      | c :: s' => if p c then S <$> k false s' else None
      | [] => None
      end
  | Opt p =>
      match s with
      | c :: s' =>
          if p c
          then match k false s' with
               | Some n => Some (S n)
               | None => k bol s
               end
          else k bol s
      | [] => k bol s
      end
  | Star p =>
      (fix star (bol : bool) (s : jstr) {struct s} : option nat :=
         match s with
         | c :: s' =>
             if p c
             then match star false s' with
                  | Some n => Some (S n)
                  | None => k bol s
                  end
             else k bol s
         | [] => k bol s
         end) bol s
  | Bol => if bol then k bol s else None
  | Eol => match s with [] => k bol s | _ :: _ => None end
  | Alt a1 a2 =>
      match m_atom a1 k bol s with
      | Some n => Some n
      | None => m_atom a2 k bol s
      end
  end.

Fixpoint m_seq (r : regex) : bool -> jstr -> option nat :=
  match r with
  | [] => fun _ _ => Some 0%nat
  | a :: r' => m_atom a (m_seq r')
  end.

(** Leftmost match: its start index and length. *)
Fixpoint find_match (r : regex) (bol : bool) (s : jstr) (i : nat)
  : option (nat * nat) :=
  match m_seq r bol s with
  | Some n => Some (i, n)
  | None =>
      match s with
      | [] => None
      | _ :: s' => find_match r false s' (S i)
      end
  end.

Definition regex_exec (r : regex) (s : jstr) : option (nat * nat) :=
  find_match r true s 0.

(** [r.test(s)] *)
Definition regex_test (r : regex) (s : jstr) : bool :=
  bool_decide (is_Some (regex_exec r s)).

(** [s.replace(r, "")] for a regular expression without the [g] flag. *)
Definition regex_remove (r : regex) (s : jstr) : jstr :=
  match regex_exec r s with
  | Some (i, n) => take i s ++ drop (i + n) s
  | None => s
  end.

(** ** core.js: completion detection *)

(** [new RegExp(`${escapedFinishedToken}\\s*$`)] *)
Definition finished_re : regex := [Lit FINISHED_TOKEN; Star is_space; Eol].

Definition isResponseComplete (text : jstr) : bool :=
  regex_test finished_re text.

(** The class [[^`. ]] *)
Definition not_excluded (c : char) : bool :=
  negb ((c =? 96) || (c =? 46) || (c =? 32))%N.

(** [new RegExp(`^${escapedBeginToken}($|[^\`\. ])`)] *)
Definition begin_re : regex := [Bol; Lit BEGIN_TOKEN; Alt Eol (Cls not_excluded)].

Definition isFormalResponseStarted (text : jstr) : bool :=
  regex_test begin_re text.

(** [new RegExp(`^\\s?${escapedBeginToken}\\s?`)] *)
Definition clean_begin_re : regex := [Bol; Opt is_space; Lit BEGIN_TOKEN; Opt is_space].

(** [new RegExp(`\\s?${escapedFinishedToken}\\s*$`)] *)
Definition clean_finish_re : regex :=
  [Opt is_space; Lit FINISHED_TOKEN; Star is_space; Eol].

Definition cleanFinalText (text : jstr) (cleanBeginToken cleanFinishToken : bool) : jstr :=
  let cleanedText := text in
  let cleanedText :=
    if cleanBeginToken then regex_remove clean_begin_re cleanedText else cleanedText in
  let cleanedText :=
    if cleanFinishToken then regex_remove clean_finish_re cleanedText else cleanedText in
  cleanedText.

(** [cleanFinalText(text)] with both flags defaulted to true: the spec's
    stripMarkers. *)
Definition stripMarkers (text : jstr) : jstr := cleanFinalText text true true.

(** ** Data model

    Request and response bodies are JSON documents of the provider's
    schema.  A property that is absent (or [null]) is [None]. *)

Record Part : Type := mkPart {
  text : option jstr;
  thought : option bool;
  functionCall : option jstr;   (* the function-call payload, opaque *)
  other : option jstr           (* any other provider-defined field, opaque *)
}.

Record Content : Type := mkContent {
  role : option jstr;
  parts : option (list Part)    (* [None]: not an array *)
}.

Record GenerationConfig : Type := mkGenerationConfig {
  thinkingBudget : option Z;    (* generationConfig.thinkingConfig.thinkingBudget *)
  responseSchema : option jstr
}.

Record Body : Type := mkBody {
  systemInstruction : option Content;
  system_instruction : option Content;
  contents : option (list Content);
  generationConfig : option GenerationConfig
}.

Record Config : Type := mkConfig {
  upstreamUrlBase : jstr;
  maxRetries : Z;
  debugMode : bool;
  startOfThought : jstr
}.

#[global] Instance Part_eq_dec : EqDecision Part.
Proof. solve_decision. Defined.
#[global] Instance Content_eq_dec : EqDecision Content.
Proof. solve_decision. Defined.
#[global] Instance GenerationConfig_eq_dec : EqDecision GenerationConfig.
Proof. solve_decision. Defined.
#[global] Instance Body_eq_dec : EqDecision Body.
Proof. solve_decision. Defined.

(** [{ text: t }] *)
Definition text_part (t : jstr) : Part :=
  {| text := Some t; thought := None; functionCall := None; other := None |}.

(** Truthiness of [part.text]: a non-empty string. *)
Definition has_text (p : Part) : bool :=
  match text p with
  | Some (_ :: _) => true
  | _ => false
  end.

(** Truthiness of [part.thought]. *)
Definition is_thought (p : Part) : bool :=
  match thought p with
  | Some true => true
  | _ => false
  end.

(** Truthiness of [part.functionCall]. *)
Definition has_functionCall (p : Part) : bool :=
  match functionCall p with
  | Some _ => true
  | None => false
  end.

(** [part.text] read as a string where the source has checked it truthy
    or defaults it with [|| ""]. *)
Definition text_of (p : Part) : jstr := default [] (text p).

Definition set_text (t : jstr) (p : Part) : Part :=
  {| text := Some t; thought := thought p; functionCall := functionCall p; other := other p |}.

Definition set_thought (b : bool) (p : Part) : Part :=
  {| text := text p; thought := Some b; functionCall := functionCall p; other := other p |}.

Definition set_parts (ps : list Part) (c : Content) : Content :=
  {| role := role c; parts := Some ps |}.

Definition role_is (r : string) (c : Content) : bool :=
  bool_decide (role c = Some (js r)).

(** The index found by an ascending loop [for (i = 0; i < l.length; i++)
    if (f l[i]) { index = i; break; }], [None] for [-1]. *)
Fixpoint first_index {A} (f : A -> bool) (l : list A) : option nat :=
  match l with
  | [] => None
  | x :: l' => if f x then Some 0%nat else S <$> first_index f l'
  end.

(** The index found by a descending loop [for (i = l.length - 1; i >= 0; i--)]. *)
Fixpoint last_index {A} (f : A -> bool) (l : list A) : option nat :=
  match l with
  | [] => None
  | x :: l' =>
      match last_index f l' with
      | Some i => Some (S i)
      | None => if f x then Some 0%nat else None
      end
  end.

(** ** core.js: request mutation *)

Definition normalizeSystemInstruction (body : Body) : Body :=
  match systemInstruction body, system_instruction body with
  | Some si, Some _ =>
      {| systemInstruction := Some si; system_instruction := None;
         contents := contents body; generationConfig := generationConfig body |}
  | None, Some si' =>
      {| systemInstruction := Some si'; system_instruction := None;
         contents := contents body; generationConfig := generationConfig body |}
  | _, None => body
  end.

Definition set_systemInstruction (si : Content) (body : Body) : Body :=
  {| systemInstruction := Some si; system_instruction := system_instruction body;
     contents := contents body; generationConfig := generationConfig body |}.

Definition set_contents (cs : list Content) (body : Body) : Body :=
  {| systemInstruction := systemInstruction body;
     system_instruction := system_instruction body;
     contents := Some cs; generationConfig := generationConfig body |}.

Definition sep : jstr := js "

---
".

Definition newline : jstr := [10%N].

(** The system-instruction step of [injectSystemPrompts]. *)
Definition inject_systemInstruction (promptToInject : jstr) (newBody : Body) : Body :=
  let tokenPromptPart := text_part promptToInject in
  match systemInstruction newBody with
  | None =>
      set_systemInstruction {| role := None; parts := Some [tokenPromptPart] |} newBody
  | Some si =>
      match parts si with
      | None => set_systemInstruction (set_parts [tokenPromptPart] si) newBody
      | Some [] => set_systemInstruction (set_parts [tokenPromptPart] si) newBody
      | Some (p0 :: ps) =>
          if has_text p0
          then set_systemInstruction
                 (set_parts (set_text (text_of p0 ++ sep ++ promptToInject) p0 :: ps) si)
                 newBody
          else set_systemInstruction (set_parts (tokenPromptPart :: ps) si) newBody
      end
  end.

(** The body of the loop over [newBody.contents]. *)
Definition inject_content (injectBeginTokenPrompt injectFinishTokenPrompt : bool)
    (content : Content) : Content :=
  match parts content with
  | None => content
  | Some ps =>
      let ps :=
        if injectBeginTokenPrompt && role_is "model" content
        then match first_index has_text ps with
             | Some i => alter (fun p => set_text (BEGIN_TOKEN ++ newline ++ text_of p) p) i ps
             | None => ps
             end
        else ps in
      let ps :=
        if injectFinishTokenPrompt && role_is "model" content
        then match last_index has_text ps with
             | Some i => alter (fun p => set_text (text_of p ++ newline ++ FINISHED_TOKEN) p) i ps
             | None => ps
             end
        else ps in
      set_parts ps content
  end.

(** [part.text && part.text.trim() !== ""] *)
Definition has_nonblank_text (p : Part) : bool :=
  has_text p && negb (bool_decide (trim (text_of p) = [])).

(** The reminder step on the last content entry. *)
Definition inject_reminder (config : Config) (injectBeginTokenPrompt : bool)
    (cs : list Content) : list Content :=
  match list.last cs with
  | None => cs
  | Some lastContent =>
      match parts lastContent with
      | Some ((_ :: _) as ps) =>
          if role_is "user" lastContent
          then match last_index has_nonblank_text ps with
               | Some i =>
                   let ps := alter (fun p => set_text (text_of p ++ sep ++ REMINDER_PROMPT) p) i ps in
                   let cs := <[(length cs - 1)%nat := set_parts ps lastContent]> cs in
                   if injectBeginTokenPrompt
                   then cs ++ [ {| role := Some (js "model");
                                   parts := Some [text_part (startOfThought config)] |} ]
                   else cs
               | None => cs
               end
          else cs
      | _ => cs
      end
  end.

Definition injectSystemPrompts (body : Body) (config : Config)
    (injectBeginTokenPrompt injectFinishTokenPrompt : bool) : Body :=
  let newBody := normalizeSystemInstruction body in
  let promptToInject :=
    if injectBeginTokenPrompt && injectFinishTokenPrompt
    then BEGIN_TOKEN_PROMPT ++ FINISH_TOKEN_PROMPT
    else if injectBeginTokenPrompt then BEGIN_TOKEN_PROMPT
    else if injectFinishTokenPrompt then FINISH_TOKEN_PROMPT
    else [] in
  match promptToInject with
  | [] => newBody
  | _ :: _ =>
      let newBody := inject_systemInstruction promptToInject newBody in
      match contents newBody with
      | None => newBody
      | Some cs =>
          let cs := map (inject_content injectBeginTokenPrompt injectFinishTokenPrompt) cs in
          set_contents (inject_reminder config injectBeginTokenPrompt cs) newBody
      end
  end.

(** [part.hasOwnProperty('text')] *)
Definition has_own_text (p : Part) : bool :=
  match text p with
  | Some _ => true
  | None => false
  end.

Definition buildRetryRequest (currentBody : Body) (newResponseText : jstr) : Body :=
  let newBody := normalizeSystemInstruction currentBody in
  let cs := default [] (contents newBody) in
  let modelEntry :=
    {| role := Some (js "model"); parts := Some [text_part newResponseText] |} in
  match list.last cs with
  | Some lastContent =>
      if role_is "model" lastContent
      then
        let ps :=
          match parts lastContent with
          | None => [text_part newResponseText]
          | Some [] => [text_part newResponseText]
          | Some ps =>
              match last_index has_own_text ps with
              | Some i => alter (fun p => set_text (text_of p ++ newResponseText) p) i ps
              | None => ps ++ [text_part newResponseText]
              end
          end in
        set_contents (<[(length cs - 1)%nat := set_parts ps lastContent]> cs) newBody
      else set_contents (cs ++ [modelEntry]) newBody
  | None => set_contents (cs ++ [modelEntry]) newBody
  end.

(** ** core.js: part classification *)

Record ParsedParts : Type := mkParsed {
  thoughtParts : list Part;
  responseText : jstr;
  pp_functionCall : option jstr;
  hasThought : bool;
  hasFunctionCall : bool
}.

Definition parse_step (result : ParsedParts) (part : Part) : ParsedParts :=
  if is_thought part && has_text part
  then {| thoughtParts := thoughtParts result ++ [part];
          responseText := responseText result;
          pp_functionCall := pp_functionCall result;
          hasThought := true;
          hasFunctionCall := hasFunctionCall result |}
  else if has_text part && negb (is_thought part)
  then {| thoughtParts := thoughtParts result;
          responseText := responseText result ++ text_of part;
          pp_functionCall := pp_functionCall result;
          hasThought := hasThought result;
          hasFunctionCall := hasFunctionCall result |}
  else if has_functionCall part
  then {| thoughtParts := thoughtParts result;
          responseText := responseText result;
          pp_functionCall := functionCall part;
          hasThought := hasThought result;
          hasFunctionCall := true |}
  else result.

Definition parseParts (ps : option (list Part)) : ParsedParts :=
  let result :=
    {| thoughtParts := []; responseText := []; pp_functionCall := None;
       hasThought := false; hasFunctionCall := false |} in
  match ps with
  | None => result
  | Some ps => fold_left parse_step ps result
  end.

Definition isStructuredOutputRequest (requestBody : Body) : bool :=
  match generationConfig requestBody with
  | Some gc => bool_decide (is_Some (responseSchema gc))
  | None => false
  end.

(** ** handlers.js: requests, upstream and responses *)

Record Request : Type := mkRequest {
  pathname : jstr;
  search : jstr;
  userAgent : option jstr;      (* the User-Agent header *)
  body : Body                   (* [await request.json()] *)
}.

(** The JSON document of an upstream response, or of one streamed event. *)
Record ResponseJson : Type := mkResponseJson {
  candidate_parts : option (list Part);
    (* candidates[0].content.parts; [None]: candidates[0].content is absent *)
  content_role : option jstr;   (* candidates[0].content.role *)
  finishReason : option jstr;   (* candidates[0].finishReason *)
  index : option Z;             (* candidates[0].index *)
  metadata : option jstr        (* every other field, opaque *)
}.

#[global] Instance ResponseJson_eq_dec : EqDecision ResponseJson.
Proof. solve_decision. Defined.

(** [json.candidates[0].content.parts = ps]; a TypeError ([None]) when
    [candidates[0].content] is absent. *)
Definition assign_parts (ps : list Part) (json : ResponseJson) : option ResponseJson :=
  match candidate_parts json with
  | None => None
  | Some _ =>
      Some {| candidate_parts := Some ps; content_role := content_role json;
              finishReason := finishReason json; index := index json;
              metadata := metadata json |}
  end.

Definition assign_finishReason (r : jstr) (json : ResponseJson) : ResponseJson :=
  {| candidate_parts := candidate_parts json; content_role := content_role json;
     finishReason := Some r; index := index json; metadata := metadata json |}.

(** What [await fetch(upstreamRequest)] gives in the one-shot path. *)
Inductive FetchResult : Type :=
| FetchThrows (message : jstr)            (* fetch, or reading the body, rejects *)
| FetchOk (responseJson : ResponseJson)   (* upstreamResponse.ok *)
| FetchStatus (status : Z) (errorText : jstr).

(** The upstream, asked with the attempt number and the request body. *)
Definition Upstream := Z -> Body -> FetchResult.

Inductive Response : Type :=
| JsonResponse (status : Z) (json : ResponseJson)
| JsonError (status : Z) (message : jstr) (details : jstr)   (* utils.js jsonError *)
| Forwarded.                      (* the upstream's own response, untouched *)

Definition isTargetModel (method : string) (request : Request) : bool :=
  existsb (fun model => includes (js "models/" ++ model ++ js method) (pathname request))
          TARGET_MODELS.

Definition originalThinkingBudget (requestBody : Body) : option Z :=
  generationConfig requestBody ≫= thinkingBudget.

(** [false] exactly when thinkingBudget is present and 0. *)
Definition injectBeginTokenPrompt_of (requestBody : Body) : bool :=
  negb (bool_decide (originalThinkingBudget requestBody = Some 0%Z)).

(** A present, non-zero thinkingBudget is brought into 128..32768, in place. *)
Definition clampThinkingBudget (requestBody : Body) : Body :=
  match generationConfig requestBody with
  | Some gc =>
      match thinkingBudget gc with
      | Some b =>
          if (b =? 0)%Z then requestBody
          else
            let b' := if (b <? 128)%Z then 128%Z
                      else if (32768 <? b)%Z then 32768%Z else b in
            {| systemInstruction := systemInstruction requestBody;
               system_instruction := system_instruction requestBody;
               contents := contents requestBody;
               generationConfig :=
                 Some {| thinkingBudget := Some b';
                         responseSchema := responseSchema gc |} |}
      | None => requestBody
      end
  | None => requestBody
  end.

(** The three accumulators of a retry loop. *)
Record Acc : Type := mkAcc {
  thoughtAccumulatedText : jstr;
  formalAccumulatedText : jstr;
  isThoughtFinished : bool
}.

(** The body of the loop "Process each part in the parts array". *)
Definition accumulate_part (st : Acc) (part : Part) : Acc :=
  if has_text part && negb (is_thought part)
  then
    if negb (isThoughtFinished st)
    then
      if isFormalResponseStarted (text_of part)
      then {| thoughtAccumulatedText := thoughtAccumulatedText st;
              formalAccumulatedText := formalAccumulatedText st ++ text_of part;
              isThoughtFinished := true |}
      else {| thoughtAccumulatedText := thoughtAccumulatedText st ++ text_of part;
              formalAccumulatedText := formalAccumulatedText st;
              isThoughtFinished := false |}
    else {| thoughtAccumulatedText := thoughtAccumulatedText st;
            formalAccumulatedText := formalAccumulatedText st ++ text_of part;
            isThoughtFinished := isThoughtFinished st |}
  else st.

Definition accumulate (st : Acc) (ps : list Part) : Acc :=
  fold_left accumulate_part ps st.

(** [isThoughtFinished && isResponseComplete(formalAccumulatedText)] *)
Definition is_complete (st : Acc) : bool :=
  isThoughtFinished st && isResponseComplete (formalAccumulatedText st).

Definition thought_part (t : jstr) : Part :=
  {| text := Some t; thought := Some true; functionCall := None; other := None |}.

(** The parts of a complete response. *)
Definition complete_parts (st : Acc) : list Part :=
  [thought_part (thoughtAccumulatedText st);
   text_part (stripMarkers (formalAccumulatedText st))].

(** The parts of the response returned when the retries are used up. *)
Definition exhausted_parts (st : Acc) : list Part :=
  (match thoughtAccumulatedText st with
   | [] => []
   | _ :: _ => [thought_part (thoughtAccumulatedText st)]
   end)
  ++ [text_part (stripMarkers (formalAccumulatedText st) ++ newline ++ INCOMPLETE_TOKEN)].

Definition exhausted_json (st : Acc) : ResponseJson :=
  {| candidate_parts := Some (exhausted_parts st); content_role := None;
     finishReason := Some (js "MAX_RETRIES"); index := None; metadata := None |}.

(** The [return] statement that ends [handleNonStreamingRequest]. *)
Inductive Ending : Type :=
| EndForwarded        (* not a target model, or a structured-output request *)
| EndFunctionCall     (* the upstream response is returned as it is *)
| EndComplete         (* the reconstructed complete response *)
| EndExhausted        (* the best-effort response after the loop *)
| EndError.           (* a jsonError *)

(** What the handler returns, with the record of how it got there: the
    body of every upstream call, the [return] reached and the accumulators
    at that point. *)
Record Outcome : Type := mkOutcome {
  response : Response;
  sent : list Body;
  ending : Ending;
  acc : Acc
}.

Section NonStreaming.

Variable config : Config.
Variable upstream : Upstream.

(** The loop [while (attempts <= config.maxRetries) { attempts++; ... }].
    [remaining] counts the iterations still allowed, which is
    [maxRetries + 1 - attempts]; when it reaches zero the loop condition
    is false and the code after the loop runs. *)
Fixpoint nonStreamingLoop (remaining : nat) (attempts : Z)
    (currentRequestBody : Body) (st : Acc) (sent : list Body) : Outcome :=
  match remaining with
  | O => {| response := JsonResponse 200 (exhausted_json st); sent := sent;
            ending := EndExhausted; acc := st |}
  | S remaining =>
      let attempts := (attempts + 1)%Z in
      let sent := sent ++ [currentRequestBody] in
      let on_throw (message : jstr) (st : Acc) :=
        if (attempts >? MAX_FETCH_RETRIES)%Z
        then {| response :=
                  JsonError 500 (js "Internal Server Error after max retries.") message;
                sent := sent; ending := EndError; acc := st |}
        else nonStreamingLoop remaining attempts currentRequestBody st sent in
      match upstream attempts currentRequestBody with
      | FetchThrows message => on_throw message st
      | FetchOk responseJson =>
          let ps := default [] (candidate_parts responseJson) in
          if existsb has_functionCall ps
          then {| response := JsonResponse 200 responseJson; sent := sent;
                  ending := EndFunctionCall; acc := st |}
          else
            let st := accumulate st ps in
            if is_complete st
            then match assign_parts (complete_parts st) responseJson with
                 | Some json =>
                     {| response := JsonResponse 200 json; sent := sent;
                        ending := EndComplete; acc := st |}
                 | None => on_throw (js "TypeError") st
                 end
            else
              nonStreamingLoop remaining attempts
                (buildRetryRequest currentRequestBody
                   (thoughtAccumulatedText st ++ formalAccumulatedText st))
                st sent
      | FetchStatus status errorText =>
          if status_in FATAL_STATUS_CODES status
          then {| response :=
                    JsonError status (js "Upstream API returned a fatal error.") errorText;
                  sent := sent; ending := EndError; acc := st |}
          else
            let isRetryableStatus := status_in RETRYABLE_STATUS_CODES status in
            let maxRetriesForThisError :=
              if isRetryableStatus then maxRetries config
              else MAX_NON_RETRYABLE_STATUS_RETRIES in
            if (attempts >? maxRetriesForThisError)%Z
            then {| response :=
                      JsonError status (js "Upstream API error after max retries.") errorText;
                    sent := sent; ending := EndError; acc := st |}
            else nonStreamingLoop remaining attempts currentRequestBody st sent
      end
  end.

Definition handleNonStreamingRequest (request : Request) : Outcome :=
  if negb (isTargetModel ":generateContent" request)
  then {| response := Forwarded; sent := []; ending := EndForwarded;
          acc := {| thoughtAccumulatedText := []; formalAccumulatedText := [];
                    isThoughtFinished := false |} |}
  else
    let originalRequestBody := body request in
    if isStructuredOutputRequest originalRequestBody
    then {| response := Forwarded; sent := [originalRequestBody];
            ending := EndForwarded;
            acc := {| thoughtAccumulatedText := []; formalAccumulatedText := [];
                      isThoughtFinished := false |} |}
    else
      let injectBeginTokenPrompt := injectBeginTokenPrompt_of originalRequestBody in
      let originalRequestBody := clampThinkingBudget originalRequestBody in
      let currentRequestBody :=
        injectSystemPrompts originalRequestBody config injectBeginTokenPrompt true in
      let st :=
        {| thoughtAccumulatedText :=
             if injectBeginTokenPrompt then startOfThought config else [];
           formalAccumulatedText := [];
           isThoughtFinished := negb injectBeginTokenPrompt |} in
      nonStreamingLoop (Z.to_nat (maxRetries config + 1)) 0 currentRequestBody st [].

End NonStreaming.

(** ** handlers.js: the streaming engine *)

(** One [writer.write] on the outbound stream. *)
Inductive Write : Type :=
| WRaw (bytes : jstr)                     (* text taken from the upstream stream *)
| WData (json : ResponseJson)             (* `data: ${JSON.stringify(json)}\n\n` *)
| WError (code : Z) (message details : jstr).   (* an `event: error` frame *)

(** An element of [linesBuffer]. *)
Record LineObj : Type := mkLineObj {
  rawLine : jstr;
  isTransitionLine : bool;
  lo_text : jstr
}.

(** The variables of one streaming attempt, the shared flag
    [isThoughtFinished] and what has been written to the caller. *)
Record StreamState : Type := mkStreamState {
  accumulatedTextThisAttempt : jstr;
  hasFunctionCallInStream : bool;
  passthroughMode : bool;
  lineBuffer : jstr;
  textBuffer : jstr;
  linesBuffer : list LineObj;
  thoughtFinished : bool;
  written : list Write
}.

(** What [await fetch(upstreamRequest)] gives in the streaming path: the
    body of a successful response is read chunk by chunk until [done]. *)
Inductive StreamFetchResult : Type :=
| StreamThrows (message : jstr)
| StreamOk (chunks : list jstr)
| StreamStatus (status : Z) (errorText : jstr).

Definition StreamUpstream := Z -> Body -> StreamFetchResult.

Record StreamOutcome : Type := mkStreamOutcome {
  writes : list Write;            (* everything written before the stream is closed *)
  stream_sent : list Body
}.

Definition TOKEN_LEN : nat := length FINISHED_TOKEN.
Definition LOOKAHEAD_SIZE : nat := (TOKEN_LEN + 4)%nat.

Definition nn : jstr := [10%N; 10%N].

Definition is_cr (c : char) : bool := (c =? 13)%N.
Definition is_lf (c : char) : bool := (c =? 10)%N.

(** [/\r?\n\r?\n/] *)
Definition event_sep_re : regex := [Opt is_cr; Cls is_lf; Opt is_cr; Cls is_lf].

(** [s.split(r)] for a regular expression that does not match the empty
    string: [cur] is the piece being read, [skip] the code units of a
    separator still to be passed over. *)
Fixpoint split_go (r : regex) (s : jstr) (skip : nat) (cur : jstr) : list jstr :=
  match s with
  | [] => [cur]
  | c :: s' =>
      match skip with
      | S k => split_go r s' k cur
      | O =>
          match m_seq r false s with
          | Some (S n) => cur :: split_go r s' n []
          | _ => split_go r s' O (cur ++ [c])
          end
      end
  end.

Definition regex_split (r : regex) (s : jstr) : list jstr := split_go r s 0 [].

Definition write (w : Write) (st : StreamState) : StreamState :=
  {| accumulatedTextThisAttempt := accumulatedTextThisAttempt st;
     hasFunctionCallInStream := hasFunctionCallInStream st;
     passthroughMode := passthroughMode st;
     lineBuffer := lineBuffer st;
     textBuffer := textBuffer st;
     linesBuffer := linesBuffer st;
     thoughtFinished := thoughtFinished st;
     written := written st ++ [w] |}.

(** "Step 1" and "Step 2" on the parts of an event: the parts to store and
    [wasModified]. *)
Definition rewrite_parts (isThoughtFinished : bool) (ps : list Part) : list Part * bool :=
  let processedParts := List.filter (fun part => negb (is_thought part)) ps in
  let wasModified := (length processedParts <? length ps)%nat in
  if negb isThoughtFinished
  then
    let markedAsThought := existsb has_text processedParts in
    (map (fun part => if has_text part then set_thought true part else part) processedParts,
     wasModified || markedAsThought)
  else (processedParts, wasModified).

(** The default template of the final event. *)
Definition default_payload : ResponseJson :=
  {| candidate_parts := Some []; content_role := Some (js "model");
     finishReason := Some (js "STOP"); index := Some 0%Z; metadata := None |}.

(** The event that opens the stream with the seed phrase. *)
Definition seed_payload (t : jstr) : ResponseJson :=
  {| candidate_parts := Some [thought_part t]; content_role := Some (js "model");
     finishReason := None; index := Some 0%Z; metadata := None |}.

(** The result of processing one chunk, and of the release loop: either
    the attempt goes on, or an exception leaves the inner [try]. *)
Inductive Step : Type :=
| Continue (st : StreamState)
| Thrown (st : StreamState).

(** How an attempt ends when the upstream stream is [done]. *)
Inductive AttemptEnd : Type :=
| Completed (finalPayload : ResponseJson)   (* the final event is written, the stream closed *)
| Truncated (accumulated : jstr)            (* a continuation request is built *)
| Closed                                    (* passthrough mode: the stream is closed *)
| Failed.                                   (* an exception reached the outer [catch] *)

Section Streaming.

(** [JSON.parse] ([None]: it throws) and [JSON.stringify] on event payloads. *)
Variable JSON_parse : jstr -> option ResponseJson.
Variable JSON_stringify : ResponseJson -> jstr.

(** [JSON.parse(line.substring(5).trim())] *)
Definition parse_line (line : jstr) : option ResponseJson :=
  JSON_parse (trim (drop 5 line)).

(** The body of [for (const line of lines)]. *)
Definition process_line (st : StreamState) (line : jstr) : StreamState :=
  if negb (startsWith (js "data:") line)
  then match line with
       | [] => st
       | _ :: _ => write (WRaw (line ++ nn)) st
       end
  else
    let jsonStr := trim (drop 5 line) in
    match jsonStr with
    | [] => st
    | _ :: _ =>
        match JSON_parse jsonStr with
        | None => write (WRaw (line ++ nn)) st
        | Some data =>
            let parsedParts := parseParts (Some (default [] (candidate_parts data))) in
            let hasFunctionCallInStream' :=
              hasFunctionCall parsedParts || hasFunctionCallInStream st in
            if hasThought parsedParts
               && bool_decide (responseText parsedParts = [])
               && negb (hasFunctionCall parsedParts)
            then
              {| accumulatedTextThisAttempt := accumulatedTextThisAttempt st;
                 hasFunctionCallInStream := hasFunctionCallInStream';
                 passthroughMode := passthroughMode st;
                 lineBuffer := lineBuffer st;
                 textBuffer := textBuffer st;
                 linesBuffer := linesBuffer st;
                 thoughtFinished := thoughtFinished st;
                 written := written st |}
            else if hasFunctionCallInStream' && negb (passthroughMode st)
            then
              {| accumulatedTextThisAttempt := accumulatedTextThisAttempt st;
                 hasFunctionCallInStream := true;
                 passthroughMode := true;
                 lineBuffer := lineBuffer st;
                 textBuffer := match linesBuffer st with [] => textBuffer st | _ :: _ => [] end;
                 linesBuffer := [];
                 thoughtFinished := thoughtFinished st;
                 written :=
                   written st
                   ++ map (fun lineObj => WRaw (rawLine lineObj ++ nn)) (linesBuffer st)
                   ++ [WRaw (line ++ nn)] |}
            else
              let responseText := responseText parsedParts in
              let isTransitionLine :=
                negb (thoughtFinished st) && isFormalResponseStarted responseText in
              let isThoughtFinished := thoughtFinished st || isTransitionLine in
              let lineToStore :=
                match candidate_parts data with
                | Some ps =>
                    let '(processedParts, wasModified) := rewrite_parts isThoughtFinished ps in
                    if wasModified
                    then match assign_parts processedParts data with
                         | Some data' => js "data: " ++ JSON_stringify data'
                         | None => line
                         end
                    else line
                | None => line
                end in
              {| accumulatedTextThisAttempt :=
                   if isTransitionLine
                   then accumulatedTextThisAttempt st ++ BEGIN_TOKEN ++ newline
                   else accumulatedTextThisAttempt st;
                 hasFunctionCallInStream := hasFunctionCallInStream';
                 passthroughMode := passthroughMode st;
                 lineBuffer := lineBuffer st;
                 textBuffer := textBuffer st ++ responseText;
                 linesBuffer :=
                   linesBuffer st
                   ++ [ {| rawLine := lineToStore; isTransitionLine := isTransitionLine;
                           lo_text := responseText |} ];
                 thoughtFinished := isThoughtFinished;
                 written := written st |}
        end
    end.

(** The loop "Lookahead and Safe Forwarding": [st] already has the
    released events shifted out of [linesBuffer]. *)
Fixpoint release (safeTextLength forwardedTextLength : nat)
    (queue : list LineObj) (st : StreamState) : Step * nat :=
  let result (q : list LineObj) (acc : jstr) (w : list Write) :=
    {| accumulatedTextThisAttempt := acc;
       hasFunctionCallInStream := hasFunctionCallInStream st;
       passthroughMode := passthroughMode st;
       lineBuffer := lineBuffer st;
       textBuffer := textBuffer st;
       linesBuffer := q;
       thoughtFinished := thoughtFinished st;
       written := w |} in
  match queue with
  | [] => (Continue (result [] (accumulatedTextThisAttempt st) (written st)),
           forwardedTextLength)
  | lineObject :: queue' =>
      if (forwardedTextLength + length (lo_text lineObject) <=? safeTextLength)%nat
      then
        let forwarded' := (forwardedTextLength + length (lo_text lineObject))%nat in
        if isTransitionLine lineObject
        then
          let cleanedBeginText := cleanFinalText (lo_text lineObject) true false in
          match parse_line (rawLine lineObject) ≫= assign_parts [text_part cleanedBeginText] with
          | Some data =>
              release safeTextLength forwarded' queue'
                (result queue' (accumulatedTextThisAttempt st ++ cleanedBeginText)
                        (written st ++ [WData data]))
          | None =>
              (Thrown (result queue' (accumulatedTextThisAttempt st) (written st)),
               forwardedTextLength)
          end
        else
          release safeTextLength forwarded' queue'
            (result queue' (accumulatedTextThisAttempt st ++ lo_text lineObject)
                    (written st ++ [WRaw (rawLine lineObject ++ nn)]))
      else (Continue (result queue (accumulatedTextThisAttempt st) (written st)),
            forwardedTextLength)
  end.

Definition set_textBuffer (t : jstr) (st : StreamState) : StreamState :=
  {| accumulatedTextThisAttempt := accumulatedTextThisAttempt st;
     hasFunctionCallInStream := hasFunctionCallInStream st;
     passthroughMode := passthroughMode st;
     lineBuffer := lineBuffer st;
     textBuffer := t;
     linesBuffer := linesBuffer st;
     thoughtFinished := thoughtFinished st;
     written := written st |}.

Definition set_lineBuffer (t : jstr) (st : StreamState) : StreamState :=
  {| accumulatedTextThisAttempt := accumulatedTextThisAttempt st;
     hasFunctionCallInStream := hasFunctionCallInStream st;
     passthroughMode := passthroughMode st;
     lineBuffer := t;
     textBuffer := textBuffer st;
     linesBuffer := linesBuffer st;
     thoughtFinished := thoughtFinished st;
     written := written st |}.

Definition lookahead (st : StreamState) : Step :=
  if (LOOKAHEAD_SIZE <? length (textBuffer st))%nat
  then
    let safeTextLength := (length (textBuffer st) - LOOKAHEAD_SIZE)%nat in
    match release safeTextLength 0 (linesBuffer st) st with
    | (Continue st', forwardedTextLength) =>
        Continue (set_textBuffer (drop forwardedTextLength (textBuffer st')) st')
    | (Thrown st', _) => Thrown st'
    end
  else Continue st.

(** The body of [if (value) { ... }] for one chunk read from upstream. *)
Definition process_chunk (st : StreamState) (chunkString : jstr) : Step :=
  if passthroughMode st
  then Continue (write (WRaw chunkString) st)
  else
    let processableString := lineBuffer st ++ chunkString in
    let pieces := regex_split event_sep_re processableString in
    let lines := removelast pieces in
    let st := set_lineBuffer (default [] (list.last pieces)) st in
    lookahead (fold_left process_line lines st).

Fixpoint read_chunks (st : StreamState) (chunks : list jstr) : Step :=
  match chunks with
  | [] => Continue st
  | chunk :: chunks' =>
      match process_chunk st chunk with
      | Continue st' => read_chunks st' chunks'
      | Thrown st' => Thrown st'
      end
  end.

(** The text gathered from the lines still buffered when the stream ends. *)
Definition buffered_texts (queue : list LineObj) : jstr * jstr :=
  fold_left
    (fun '(thoughtTextBuffer, responseTextBuffer) lineObject =>
       if startsWith (js "data:") (rawLine lineObject)
       then match parse_line (rawLine lineObject) with
            | Some data =>
                fold_left
                  (fun '(t, r) part =>
                     if is_thought part && has_text part then (t ++ text_of part, r)
                     else if negb (is_thought part) && has_text part
                          then (t, r ++ text_of part)
                          else (t, r))
                  (default [] (candidate_parts data))
                  (thoughtTextBuffer, responseTextBuffer)
            | None => (thoughtTextBuffer, responseTextBuffer)
            end
       else (thoughtTextBuffer, responseTextBuffer))
    queue ([], []).

(** The last buffered line that parses, as the template of the final event. *)
Fixpoint last_payload (queue : list LineObj) : option ResponseJson :=
  match queue with
  | [] => None
  | lineObject :: queue' =>
      match last_payload queue' with
      | Some data => Some data
      | None =>
          if startsWith (js "data:") (rawLine lineObject)
          then parse_line (rawLine lineObject)
          else None
      end
  end.

Definition final_parts (thoughtTextBuffer finalText : jstr) : list Part :=
  (match thoughtTextBuffer with [] => [] | _ :: _ => [thought_part thoughtTextBuffer] end)
  ++ (match finalText with [] => [] | _ :: _ => [text_part finalText] end).

(** The branch [if (done)]. *)
Definition on_done (st : StreamState) : AttemptEnd :=
  if passthroughMode st then Closed
  else if thoughtFinished st && isResponseComplete (textBuffer st)
  then
    let '(thoughtTextBuffer, responseTextBuffer) := buffered_texts (linesBuffer st) in
    let finalPayload := default default_payload (last_payload (linesBuffer st)) in
    let finalText := stripMarkers responseTextBuffer in
    match assign_parts (final_parts thoughtTextBuffer finalText) finalPayload with
    | Some finalPayload => Completed (assign_finishReason (js "STOP") finalPayload)
    | None => Failed
    end
  else Truncated (accumulatedTextThisAttempt st).

(** The state in which an attempt starts reading. *)
Definition attempt_start (seed : jstr) (isThoughtFinished : bool) (out : list Write)
  : StreamState :=
  {| accumulatedTextThisAttempt := seed;
     hasFunctionCallInStream := false;
     passthroughMode := false;
     lineBuffer := [];
     textBuffer := [];
     linesBuffer := [];
     thoughtFinished := isThoughtFinished;
     written := match seed with
                | [] => out
                | _ :: _ => out ++ [WData (seed_payload seed)]
                end |}.

(** One attempt on a successful upstream response: the state reached
    and how the attempt ends. *)
Definition run_attempt (st : StreamState) (chunks : list jstr) : AttemptEnd * StreamState :=
  match read_chunks st chunks with
  | Continue st' => (on_done st', st')
  | Thrown st' => (Failed, st')
  end.

Variable config : Config.
Variable upstream : StreamUpstream.
Variable injectBeginTokenPrompt : bool.

(** The loop of [process]; [remaining] is as in [nonStreamingLoop].  The
    statements after the loop read [linesBuffer], which is declared
    inside the loop body: they throw a ReferenceError, which the handler
    of [process().catch] reports. *)
Fixpoint streamingLoop (remaining : nat) (attempts : Z) (currentRequestBody : Body)
    (isThoughtFinished : bool) (out : list Write) (sent : list Body) : StreamOutcome :=
  match remaining with
  | O =>
      {| writes := out ++ [WError 500 (js "Internal worker error.")
                             (js "linesBuffer is not defined")];
         stream_sent := sent |}
  | S remaining =>
      let attempts := (attempts + 1)%Z in
      let sent := sent ++ [currentRequestBody] in
      let seed :=
        if injectBeginTokenPrompt && (attempts =? 1)%Z then startOfThought config else [] in
      let st := attempt_start seed isThoughtFinished out in
      let on_throw (message : jstr) (st : StreamState) :=
        if (attempts >? maxRetries config)%Z
        then {| writes := written st
                          ++ [WError 500 (js "Internal Server Error after max retries.")
                                message];
                stream_sent := sent |}
        else streamingLoop remaining attempts currentRequestBody
               (thoughtFinished st) (written st) sent in
      match upstream attempts currentRequestBody with
      | StreamThrows message => on_throw message st
      | StreamOk chunks =>
          match run_attempt st chunks with
          | (Completed finalPayload, st') =>
              {| writes := written st' ++ [WData finalPayload]; stream_sent := sent |}
          | (Closed, st') => {| writes := written st'; stream_sent := sent |}
          | (Truncated accumulated, st') =>
              streamingLoop remaining attempts
                (buildRetryRequest currentRequestBody accumulated)
                (thoughtFinished st') (written st') sent
          | (Failed, st') => on_throw (js "TypeError") st'
          end
      | StreamStatus status errorText =>
          if status_in FATAL_STATUS_CODES status
          then {| writes := written st
                            ++ [WError status (js "Upstream API returned a fatal error.")
                                  errorText];
                  stream_sent := sent |}
          else if (attempts >? maxRetries config)%Z
          then {| writes := written st
                            ++ [WError status (js "Upstream API error after max retries.")
                                  errorText];
                  stream_sent := sent |}
          else streamingLoop remaining attempts currentRequestBody
                 (thoughtFinished st) (written st) sent
      end
  end.

End Streaming.

(** [handleStreamingRequest]; [None] when the request is forwarded to the
    upstream untouched. *)
Definition handleStreamingRequest (JSON_parse : jstr -> option ResponseJson)
    (JSON_stringify : ResponseJson -> jstr) (config : Config) (upstream : StreamUpstream)
    (request : Request) : option StreamOutcome :=
  if negb (isTargetModel ":streamGenerateContent" request) then None
  else
    let originalRequestBody := body request in
    if isStructuredOutputRequest originalRequestBody then None
    else
      let injectBeginTokenPrompt := injectBeginTokenPrompt_of originalRequestBody in
      let originalRequestBody := clampThinkingBudget originalRequestBody in
      let isThoughtFinished := negb injectBeginTokenPrompt in
      let currentRequestBody :=
        injectSystemPrompts originalRequestBody config injectBeginTokenPrompt true in
      Some (streamingLoop JSON_parse JSON_stringify config upstream injectBeginTokenPrompt
              (Z.to_nat (maxRetries config + 1)) 0 currentRequestBody isThoughtFinished [] []).

(** ** Request mutation on the object store

    [injectSystemPrompts] works by assignment on the objects of a
    [structuredClone].  To state what it leaves untouched, the same function
    is written here over a store of JS objects: a value is a primitive or a
    reference, and an object is a cell holding its properties (and its
    elements when it is an array). *)

Module Store.

Abbreviation loc := nat.

Inductive value : Type :=
| VUndef
| VNull
| VBool (b : bool)
| VNum (z : Z)
| VStr (s : jstr)
| VRef (l : loc).

Record cell : Type := mkCell {
  elems : option (list value);        (* [Some]: the object is an array *)
  props : list (jstr * value)         (* named own properties, in insertion order *)
}.

Abbreviation heap := (list cell).

(** A computation ends normally with a result, or throws a TypeError;
    either way the store it leaves is observable. *)
Inductive outcome (A : Type) : Type :=
| Ok (a : A) (h : heap)
| Throw (h : heap).
Arguments Ok {A} a h.
Arguments Throw {A} h.

Definition M (A : Type) : Type := heap -> outcome A.

Definition ret {A} (a : A) : M A := fun h => Ok a h.
Definition throw {A} : M A := fun h => Throw h.
Definition bind {A B} (m : M A) (f : A -> M B) : M B :=
  fun h => match m h with
           | Ok a h' => f a h'
           | Throw h' => Throw h'
           end.

Notation "'let*' x := m 'in' k" := (bind m (fun x => k))
  (at level 10, x name, m at level 100, k at level 200).
Notation "'run' m 'then' k" := (bind m (fun _ => k))
  (at level 10, m at level 100, k at level 200).

Definition final_heap {A} (o : outcome A) : heap :=
  match o with
  | Ok _ h => h
  | Throw h => h
  end.

Fixpoint assoc (k : jstr) (l : list (jstr * value)) : option value :=
  match l with
  | [] => None
  | (k', v) :: l' => if bool_decide (k = k') then Some v else assoc k l'
  end.

Fixpoint assoc_set (k : jstr) (v : value) (l : list (jstr * value))
  : list (jstr * value) :=
  match l with
  | [] => [(k, v)]
  | (k', v') :: l' =>
      if bool_decide (k = k') then (k, v) :: l' else (k', v') :: assoc_set k v l'
  end.

Definition assoc_del (k : jstr) (l : list (jstr * value)) : list (jstr * value) :=
  List.filter (fun kv => negb (bool_decide (k = fst kv))) l.

(** JS truthiness *)
Definition truthy (v : value) : bool :=
  match v with
  | VUndef | VNull => false
  | VBool b => b
  | VNum z => negb (z =? 0)%Z
  | VStr s => negb (bool_decide (s = []))
  | VRef _ => true
  end.

(** [v === "s"] *)
Definition is_str (s : string) (v : value) : bool :=
  match v with
  | VStr t => bool_decide (t = js s)
  | _ => false
  end.

(** [{ k1: v1, ... }] and [[v1, ...]] *)
Definition new_object (fields : list (jstr * value)) : M value :=
  fun h => Ok (VRef (length h)) (h ++ [ {| elems := None; props := fields |} ]).
Definition new_array (es : list value) : M value :=
  fun h => Ok (VRef (length h)) (h ++ [ {| elems := Some es; props := [] |} ]).

(** [v.k]: a TypeError on [undefined] and [null], [undefined] on other
    primitives (none of the names read is a property of a primitive). *)
Definition get (v : value) (k : string) : M value :=
  fun h =>
    match v with
    | VUndef | VNull => Throw h
    | VRef l =>
        match h !! l with
        | Some c => Ok (default VUndef (assoc (js k) (props c))) h
        | None => Throw h
        end
    | _ => Ok VUndef h
    end.

(** [v.k = x]: a TypeError on a primitive (module code is strict). *)
Definition set (v : value) (k : string) (x : value) : M unit :=
  fun h =>
    match v with
    | VRef l =>
        match h !! l with
        | Some c =>
            Ok tt (<[l := {| elems := elems c; props := assoc_set (js k) x (props c) |}]> h)
        | None => Throw h
        end
    | _ => Throw h
    end.

(** [delete v.k] on an object. *)
Definition delete_prop (v : value) (k : string) : M unit :=
  fun h =>
    match v with
    | VRef l =>
        match h !! l with
        | Some c =>
            Ok tt (<[l := {| elems := elems c; props := assoc_del (js k) (props c) |}]> h)
        | None => Throw h
        end
    | _ => Ok tt h
    end.

(** The elements of [v] when [Array.isArray(v)]. *)
Definition as_array (v : value) : M (option (list value)) :=
  fun h =>
    match v with
    | VRef l =>
        match h !! l with
        | Some c => Ok (elems c) h
        | None => Throw h
        end
    | _ => Ok None h
    end.

(** [a[i]] on an array. *)
Definition get_index (a : value) (i : nat) : M value :=
  let* es := as_array a in
  ret (default VUndef (default [] es !! i)).

(** [a[i] = x] on an array, for [i <= a.length]. *)
Definition set_index (a : value) (i : nat) (x : value) : M unit :=
  fun h =>
    match a with
    | VRef l =>
        match h !! l with
        | Some {| elems := Some es; props := ps |} =>
            let es' := if (i <? length es)%nat then <[i := x]> es else es ++ [x] in
            Ok tt (<[l := {| elems := Some es'; props := ps |}]> h)
        | _ => Throw h
        end
    | _ => Throw h
    end.

(** [a.push(x)] on an array. *)
Definition push (a : value) (x : value) : M unit :=
  let* es := as_array a in
  set_index a (length (default [] es)) x.

Definition shift_value (n : nat) (v : value) : value :=
  match v with
  | VRef l => VRef (n + l)
  | _ => v
  end.

Definition shift_cell (n : nat) (c : cell) : cell :=
  {| elems := map (shift_value n) <$> elems c;
     props := map (fun kv => (fst kv, shift_value n (snd kv))) (props c) |}.

(** [structuredClone(v)]: a copy of the object graph of [v] that shares
    nothing with the original.  The copy of the object at [l] is placed at
    [length h + l]; objects that [v] does not reach are copied too and
    stay unreachable. *)
Definition structuredClone (v : value) : M value :=
  fun h => Ok (shift_value (length h) v) (h ++ map (shift_cell (length h)) h).

Fixpoint for_each {A} (l : list A) (f : A -> M unit) : M unit :=
  match l with
  | [] => ret tt
  | x :: l' => run f x then for_each l' f
  end.

(** The index at which a loop with [break] stops: the first index of
    [idxs] that satisfies [f]. *)
Fixpoint find_index (idxs : list nat) (f : nat -> M bool) : M (option nat) :=
  match idxs with
  | [] => ret None
  | i :: idxs' =>
      let* b := f i in
      if b then ret (Some i) else find_index idxs' f
  end.

Section WithToString.

(** The conversion to a string applied by [+] to an operand that is not
    a string ([None]: it throws). *)
Variable ToString : heap -> value -> option jstr.

(** [v + s] for a truthy [v] and a string [s] *)
Definition concat (v : value) (s : jstr) : M value :=
  fun h =>
    match v with
    | VStr t => Ok (VStr (t ++ s)) h
    | _ => match ToString h v with
           | Some t => Ok (VStr (t ++ s)) h
           | None => Throw h
           end
    end.

(** [s + v] *)
Definition concat_left (s : jstr) (v : value) : M value :=
  fun h =>
    match v with
    | VStr t => Ok (VStr (s ++ t)) h
    | _ => match ToString h v with
           | Some t => Ok (VStr (s ++ t)) h
           | None => Throw h
           end
    end.

(** [v.trim() !== ""] for a truthy [v]: only a string has [trim]. *)
Definition trim_nonempty (v : value) : M bool :=
  match v with
  | VStr s => ret (negb (bool_decide (trim s = [])))
  | _ => throw
  end.

Definition normalizeSystemInstruction (body : value) : M value :=
  if negb (truthy body) then ret body
  else
    let* si := get body "systemInstruction" in
    let* si' := get body "system_instruction" in
    run (if truthy si && truthy si'
         then delete_prop body "system_instruction"
         else if negb (truthy si) && truthy si'
              then run set body "systemInstruction" si' then
                   delete_prop body "system_instruction"
              else ret tt) then
    ret body.

(** [part.text] is truthy, for the part at index [i] of [ps]. *)
Definition text_truthy_at (ps : value) (i : nat) : M bool :=
  let* part := get_index ps i in
  let* t := get part "text" in
  ret (truthy t).

Definition inject_content (injectBeginTokenPrompt injectFinishTokenPrompt : bool)
    (content : value) : M unit :=
  let* ps := get content "parts" in
  let* es := as_array ps in
  match es with
  | None => ret tt
  | Some es =>
      let* role := get content "role" in
      run (if injectBeginTokenPrompt && is_str "model" role
       then
         let* firstTextPartIndex := find_index (seq 0 (length es)) (text_truthy_at ps) in
         match firstTextPartIndex with
         | Some i =>
             let* part := get_index ps i in
             let* t := get part "text" in
             let* t' := concat_left (BEGIN_TOKEN ++ newline) t in
             set part "text" t'
         | None => ret tt
         end
       else ret tt) then
      let* role := get content "role" in
      (if injectFinishTokenPrompt && is_str "model" role
       then
         let* lastTextPartIndex := find_index (rev (seq 0 (length es))) (text_truthy_at ps) in
         match lastTextPartIndex with
         | Some i =>
             let* part := get_index ps i in
             let* t := get part "text" in
             let* t' := concat t (newline ++ FINISHED_TOKEN) in
             set part "text" t'
         | None => ret tt
         end
       else ret tt)
  end.

(** [part.text && part.text.trim() !== ""], for the part at index [i]. *)
Definition nonblank_text_at (ps : value) (i : nat) : M bool :=
  let* part := get_index ps i in
  let* t := get part "text" in
  if truthy t then trim_nonempty t else ret false.

Definition inject_reminder (startOfThought : jstr) (injectBeginTokenPrompt : bool)
    (newBody : value) : M unit :=
  let* cs := get newBody "contents" in
  let* ces := as_array cs in
  match ces with
  | Some ((_ :: _) as ces) =>
      let* lastContent := get_index cs (length ces - 1) in
      let* role := get lastContent "role" in
      if is_str "user" role
      then
        let* ps := get lastContent "parts" in
        let* es := as_array ps in
        match es with
        | Some ((_ :: _) as es) =>
            let* lastTextPartIndex :=
              find_index (rev (seq 0 (length es))) (nonblank_text_at ps) in
            match lastTextPartIndex with
            | Some i =>
                let* part := get_index ps i in
                let* t := get part "text" in
                let* t' := concat t (sep ++ REMINDER_PROMPT) in
                run set part "text" t' then
                if injectBeginTokenPrompt
                then
                  let* p := new_object [(js "text", VStr startOfThought)] in
                  let* a := new_array [p] in
                  let* c := new_object [(js "role", VStr (js "model")); (js "parts", a)] in
                  let* cs := get newBody "contents" in
                  push cs c
                else ret tt
            | None => ret tt
            end
        | _ => ret tt
        end
      else ret tt
  | _ => ret tt
  end.

(** The statements of [injectSystemPrompts] that follow the copy: they
    work on [newBody] in place. *)
Definition inject_in_place (newBody : value) (startOfThought : jstr)
    (injectBeginTokenPrompt injectFinishTokenPrompt : bool) : M value :=
  run normalizeSystemInstruction newBody then
  let promptToInject :=
    if injectBeginTokenPrompt && injectFinishTokenPrompt
    then BEGIN_TOKEN_PROMPT ++ FINISH_TOKEN_PROMPT
    else if injectBeginTokenPrompt then BEGIN_TOKEN_PROMPT
    else if injectFinishTokenPrompt then FINISH_TOKEN_PROMPT
    else [] in
  match promptToInject with
  | [] => ret newBody
  | _ :: _ =>
      let* tokenPromptPart := new_object [(js "text", VStr promptToInject)] in
      let* si := get newBody "systemInstruction" in
      run (if negb (truthy si)
       then
         let* a := new_array [tokenPromptPart] in
         let* o := new_object [(js "parts", a)] in
         set newBody "systemInstruction" o
       else
         let* ps := get si "parts" in
         let* es := as_array ps in
         match es with
         | None =>
             let* a := new_array [tokenPromptPart] in
             set si "parts" a
         | Some [] => set_index ps 0 tokenPromptPart
         | Some (p0 :: _) =>
             let* t := get p0 "text" in
             if negb (truthy t)
             then set_index ps 0 tokenPromptPart
             else
               let* t' := concat t (sep ++ promptToInject) in
               set p0 "text" t'
         end) then
      let* cs := get newBody "contents" in
      let* ces := as_array cs in
      run match ces with
          | Some ces =>
              for_each ces (inject_content injectBeginTokenPrompt injectFinishTokenPrompt)
          | None => ret tt
          end then
      run inject_reminder startOfThought injectBeginTokenPrompt newBody then
      ret newBody
  end.

Definition injectSystemPrompts (body : value) (startOfThought : jstr)
    (injectBeginTokenPrompt injectFinishTokenPrompt : bool) : M value :=
  let* newBody := structuredClone body in
  inject_in_place newBody startOfThought injectBeginTokenPrompt injectFinishTokenPrompt.

End WithToString.

End Store.

(** ** utils.js: the configuration *)

(** The environment of the Worker: a variable is a string, or is absent. *)
Record Env : Type := mkEnv {
  UPSTREAM_URL_BASE : option jstr;
  MAX_RETRIES : option jstr;
  DEBUG_MODE : option jstr;
  START_OF_THOUGHT : option jstr
}.

Definition is_digit (c : char) : bool := ((48 <=? c) && (c <=? 57))%N.

Definition digit_value (c : char) : Z := Z.of_N (c - 48).

(** The longest run of decimal digits at the head of [s]. *)
Fixpoint leading_digits (s : jstr) : jstr :=
  match s with
  | c :: s' => if is_digit c then c :: leading_digits s' else []
  | [] => []
  end.

(** The integer written by the digits [ds]. *)
Definition decimal (ds : jstr) : Z :=
  fold_left (fun n c => (10 * n + digit_value c)%Z) ds 0%Z.

(** [parseInt(v, 10)], [None] for NaN: the white space at the head of the
    string is skipped, then a sign is read, then the digits up to the first
    character that is not one.  An absent variable is read as the string
    "undefined".  The Number that JS returns is this integer rounded to a
    double, which is the integer itself below 2^53 in absolute value. *)
Definition parseInt10 (v : option jstr) : option Z :=
  let inputString := default (js "undefined") v in
  let trimmed := trimStart inputString in
  let '(sign, rest) :=
    match trimmed with
    | c :: rest' =>
        if (c =? 45)%N then ((-1)%Z, rest')
        else if (c =? 43)%N then (1%Z, rest')
        else (1%Z, trimmed)
    | [] => (1%Z, trimmed)
    end in
  match leading_digits rest with
  | [] => None
  | (_ :: _) as digits => Some (sign * decimal digits)%Z
  end.

(** [v || d] for a variable of the environment. *)
Definition or_default (v : option jstr) (d : jstr) : jstr :=
  match v with
  | Some ((_ :: _) as s) => s
  | _ => d
  end.

Definition parseConfig (env : Env) : Config :=
  {| upstreamUrlBase :=
       or_default (UPSTREAM_URL_BASE env) (js "https://generativelanguage.googleapis.com");
     maxRetries :=
       match parseInt10 (MAX_RETRIES env) with
       | Some n => if (n =? 0)%Z then 3%Z else n
       | None => 3%Z
       end;
     debugMode := bool_decide (DEBUG_MODE env = Some (js "true"));
     startOfThought := or_default (START_OF_THOUGHT env) (js "Here's a") |}.

(** ** index.js: the entry point *)

(** What the entry point reads of an incoming request: the method, the
    parameters [key] and [alt] of the URL as [url.searchParams.get] gives
    them, the header [X-Goog-Api-Key], and the request itself, whose body
    is taken to be a JSON document. *)
Record Incoming : Type := mkIncoming {
  in_method : jstr;
  key_param : option jstr;
  alt_param : option jstr;
  goog_api_key : option jstr;
  in_request : Request
}.

(** What the entry point answers. *)
Inductive Reply : Type :=
| ReplyError (status : Z) (message details : jstr)    (* jsonError *)
| ReplyOptions                                        (* handleOptionsRequest() *)
| ReplyStreaming (o : option StreamOutcome)           (* handleStreamingRequest *)
| ReplyNonStreaming (o : Outcome)                     (* handleNonStreamingRequest *)
| ReplyProxied.                                       (* fetch(upstreamUrl, request) *)

(** Truthiness of a string that may be absent. *)
Definition nonempty (v : option jstr) : bool :=
  match v with
  | Some (_ :: _) => true
  | _ => false
  end.

(** The method [fetch] of the Worker. *)
Definition fetch (JSON_parse : jstr -> option ResponseJson)
    (JSON_stringify : ResponseJson -> jstr) (env : Env)
    (upstream : Upstream) (stream_upstream : StreamUpstream) (request : Incoming) : Reply :=
  let config := parseConfig env in
  if negb (nonempty (key_param request) || nonempty (goog_api_key request))
  then ReplyError 403 (js "Forbidden") (js "Gemini API key not detected")
  else if bool_decide (in_method request = js "OPTIONS") then ReplyOptions
  else if bool_decide (in_method request = js "POST")
  then
    let isStream :=
      includes (js ":stream") (pathname (in_request request))
      || bool_decide (alt_param request = Some (js "sse")) in
    if isStream
    then ReplyStreaming
           (handleStreamingRequest JSON_parse JSON_stringify config stream_upstream
              (in_request request))
    else ReplyNonStreaming (handleNonStreamingRequest config upstream (in_request request))
  else ReplyProxied.

(** * Vocabulary of the statements *)

(** *** The tails matched by the marker expressions *)

(** Vocabulary *)
Fixpoint first_tail (f : jstr -> bool) (s : jstr) : option nat :=
  if f s then Some 0
  else match s with
       | [] => None
       | _ :: s' => S <$> first_tail f s'
       end.

Definition drop_space (s : jstr) : jstr :=
  match s with
  | c :: s' => if is_space c then s' else s
  | [] => []
  end.

Definition finish_tail (s : jstr) : bool :=
  startsWith FINISHED_TOKEN s && forallb is_space (drop (length FINISHED_TOKEN) s).

Definition clean_finish_tail (s : jstr) : bool :=
  finish_tail s
  || match s with
     | c :: s' => is_space c && finish_tail s'
     | [] => false
     end.

Definition strip_begin (s : jstr) : jstr :=
  if startsWith BEGIN_TOKEN s then drop_space (drop (length BEGIN_TOKEN) s)
  else match s with
       | c :: s' =>
           if is_space c && startsWith BEGIN_TOKEN s'
           then drop_space (drop (length BEGIN_TOKEN) s')
           else s
       | [] => s
       end.

(** *** White space around the markers *)

Definition all_space (w : jstr) : bool := forallb is_space w.
Definition one_space (o : jstr) : bool :=
  match o with
  | [] => true
  | [c] => is_space c
  | _ :: _ :: _ => false
  end.
Definition starts_with_space (s : jstr) : bool :=
  match s with
  | c :: _ => is_space c
  | [] => false
  end.
Definition ends_with_space (s : jstr) : bool := starts_with_space (rev s).

(** *** Continuation requests; a small request *)

(** *** buildRetryRequest *)

Definition model_entry (t : jstr) : Content :=
  {| role := Some (js "model"); parts := Some [text_part t] |}.

Definition demo_user_body : Body :=
  {| systemInstruction := None; system_instruction := None;
     contents := Some [ {| role := Some (js "user"); parts := Some [text_part (js "Hi")] |} ];
     generationConfig := None |}.

Definition demo_model_content : Content :=
  {| role := Some (js "model");
     parts := Some [text_part (js "Once"); text_part (js " upon");
                    {| text := None; thought := None; functionCall := None;
                       other := Some (js "inlineData") |} ] |}.

Definition demo_model_body : Body :=
  {| systemInstruction := None; system_instruction := None;
     contents := Some (default [] (contents demo_user_body) ++ [demo_model_content]);
     generationConfig := None |}.

(** *** The request sent by the engine and its starting state *)

Definition engine_body (config : Config) (request : Request) : Body :=
  injectSystemPrompts (clampThinkingBudget (body request)) config
    (injectBeginTokenPrompt_of (body request)) true.

Definition engine_acc (config : Config) (request : Request) : Acc :=
  {| thoughtAccumulatedText :=
       if injectBeginTokenPrompt_of (body request) then startOfThought config else [];
     formalAccumulatedText := [];
     isThoughtFinished := negb (injectBeginTokenPrompt_of (body request)) |}.

(** A request that the engine processes. *)
Definition engine_request (method : string) (request : Request) : Prop :=
  isTargetModel method request = true /\
  isStructuredOutputRequest (body request) = false.

Definition blank_thought (p : Part) : Part :=
  if is_thought p
  then {| text := None; thought := thought p; functionCall := functionCall p;
          other := other p |}
  else p.

Definition blank_thoughts (json : ResponseJson) : ResponseJson :=
  {| candidate_parts := map blank_thought <$> candidate_parts json;
     content_role := content_role json; finishReason := finishReason json;
     index := index json; metadata := metadata json |}.

Definition without_thought_text (upstream : Upstream) : Upstream :=
  fun attempts requestBody =>
    match upstream attempts requestBody with
    | FetchOk json => FetchOk (blank_thoughts json)
    | r => r
    end.

Definition keeps_incomplete (json : ResponseJson) : Prop :=
  existsb has_functionCall (default [] (candidate_parts json)) = false /\
  forall st, is_complete st = false ->
             is_complete (accumulate st (default [] (candidate_parts json))) = false.

(** *** Error outcomes; a configuration and a request *)

Definition error_outcome (status : Z) (message : string) (details : jstr)
    (calls : nat) (config : Config) (request : Request) : Outcome :=
  {| response := JsonError status (js message) details;
     sent := replicate calls (engine_body config request);
     ending := EndError;
     acc := engine_acc config request |}.

(** The streaming outcome that ends with an error event after [calls]
    calls of the upstream. *)
Definition stream_error_outcome (status : Z) (message : string) (details : jstr)
    (calls : nat) (config : Config) (request : Request) : StreamOutcome :=
  {| writes :=
       written (attempt_start
                  (if injectBeginTokenPrompt_of (body request)
                   then startOfThought config else [])
                  (negb (injectBeginTokenPrompt_of (body request))) [])
       ++ [WError status (js message) details];
     stream_sent := replicate calls (engine_body config request) |}.

Definition demo_config (n : Z) : Config :=
  {| upstreamUrlBase := js "https://generativelanguage.googleapis.com";
     maxRetries := n; debugMode := false; startOfThought := js "Here's a" |}.

Definition demo_request (method : string) : Request :=
  {| pathname := js "/v1beta/models/gemini-1.5-pro" ++ js method;
     search := js "?key=k"; userAgent := None; body := demo_user_body |}.

(** *** The event separator *)

(** *** Event framing across chunk boundaries *)

Definition sep_match (s : jstr) : option nat := m_seq event_sep_re false s.

(** The separator at the head of [s], written out. *)
Definition sep_len (s : jstr) : option nat :=
  match s with
  | c1 :: s1 =>
      if is_lf c1
      then match s1 with
           | c2 :: s2 =>
               if is_lf c2 then Some 2
               else if is_cr c2
                    then match s2 with
                         | c3 :: _ => if is_lf c3 then Some 3 else None
                         | [] => None
                         end
                    else None
           | [] => None
           end
      else if is_cr c1
      then match s1 with
           | c2 :: s2 =>
               if is_lf c2
               then match s2 with
                    | c3 :: s3 =>
                        if is_lf c3 then Some 3
                        else if is_cr c3
                             then match s3 with
                                  | c4 :: _ => if is_lf c4 then Some 4 else None
                                  | [] => None
                                  end
                             else None
                    | [] => None
                    end
               else None
           | [] => None
           end
      else None
  | [] => None
  end.

Definition split_sep (s : jstr) (skip : nat) (cur : jstr) : list jstr :=
  split_go event_sep_re s skip cur.

(** *** The buffers of a streaming attempt *)

(** The complete event lines of a stream. *)
Definition lines_of (s : jstr) : list jstr := removelast (regex_split event_sep_re s).

Definition final_event (e : AttemptEnd) : option ResponseJson :=
  match e with
  | Completed finalPayload => Some finalPayload
  | _ => None
  end.

(** The formal text carried by an event: the text of its parts that are
    not flagged as thought. *)
Definition formal_text_of (json : ResponseJson) : jstr :=
  concat (map text_of
            (List.filter (fun p => negb (is_thought p) && has_text p)
                         (default [] (candidate_parts json)))).

(** What one line does to the buffers of an attempt that has seen no
    function call. *)
Inductive effect : Type :=
| Keep
| EnterPassthrough
| Append (e : LineObj).

Definition zero_text (lo : LineObj) : bool := bool_decide (lo_text lo = []).

Fixpoint greedy (safe fwd : nat) (q : list LineObj) : nat * list LineObj :=
  match q with
  | [] => (fwd, [])
  | lo :: q' =>
      if fwd + length (lo_text lo) <=? safe
      then greedy safe (fwd + length (lo_text lo)) q'
      else (fwd, q)
  end.

Definition texts (q : list LineObj) : jstr := concat (map lo_text q).

(** The buffered events after a lookahead pass over [q]. *)
Definition after_lookahead (q : list LineObj) : list LineObj :=
  if LOOKAHEAD_SIZE <? length (texts q)
  then snd (greedy (length (texts q) - LOOKAHEAD_SIZE) 0 q)
  else q.

Section ChunkVocabulary.

Variable JSON_parse : jstr -> option ResponseJson.
Variable JSON_stringify : ResponseJson -> jstr.

(** The payloads that the engine rewrites from a line parse back to
    themselves. *)
Definition reparse_ok (line : jstr) : bool :=
  if startsWith (js "data:") line
  then match parse_line JSON_parse line with
       | Some data =>
           match candidate_parts data with
           | Some ps =>
               forallb
                 (fun fin =>
                    let '(processedParts, wasModified) := rewrite_parts fin ps in
                    if wasModified
                    then match assign_parts processedParts data with
                         | Some data' =>
                             bool_decide
                               (parse_line JSON_parse (js "data: " ++ JSON_stringify data')
                                = Some data')
                         | None => true
                         end
                    else true)
                 [true; false]
           | None => true
           end
       | None => true
       end
  else true.

Definition stream_reparses (s : jstr) : bool := forallb reparse_ok (lines_of s).

Definition line_effect (fin : bool) (line : jstr) : effect :=
  if negb (startsWith (js "data:") line) then Keep
  else
    match trim (drop 5 line) with
    | [] => Keep
    | (_ :: _) as jsonStr =>
        match JSON_parse jsonStr with
        | None => Keep
        | Some data =>
            let parsedParts := parseParts (Some (default [] (candidate_parts data))) in
            if hasThought parsedParts
               && bool_decide (responseText parsedParts = [])
               && negb (hasFunctionCall parsedParts)
            then Keep
            else if hasFunctionCall parsedParts then EnterPassthrough
            else
              let isTransitionLine :=
                negb fin && isFormalResponseStarted (responseText parsedParts) in
              Append
                {| rawLine :=
                     match candidate_parts data with
                     | Some ps =>
                         let '(processedParts, wasModified) :=
                           rewrite_parts (fin || isTransitionLine) ps in
                         if wasModified
                         then match assign_parts processedParts data with
                              | Some data' => js "data: " ++ JSON_stringify data'
                              | None => line
                              end
                         else line
                     | None => line
                     end;
                   isTransitionLine := isTransitionLine;
                   lo_text := responseText parsedParts |}
        end
    end.

(** A buffered line parses, and a transition line carries text. *)
Definition entry_parses (lo : LineObj) : Prop :=
  startsWith (js "data:") (rawLine lo) = true /\
  exists data,
    parse_line JSON_parse (rawLine lo) = Some data /\
    (isTransitionLine lo = true -> lo_text lo <> [] /\ is_Some (candidate_parts data)).

(** A buffered line that contributes no formal text has no text part. *)
Definition entry_inert (lo : LineObj) : Prop :=
  lo_text lo = [] ->
  forall data, parse_line JSON_parse (rawLine lo) = Some data ->
               forallb (fun p => negb (has_text p))
                       (default [] (candidate_parts data)) = true.

(** The invariant of the buffers of an attempt. *)
Definition buffers_ok (st : StreamState) : Prop :=
  Forall entry_parses (linesBuffer st) /\
  (passthroughMode st = false ->
   hasFunctionCallInStream st = false /\
   Forall entry_inert (linesBuffer st) /\
   textBuffer st = texts (linesBuffer st)).

(** What a run of lines adds to the buffers, from the thought flag
    alone; [None] when a function call switches to passthrough mode. *)
Fixpoint absorb (fin : bool) (lines : list jstr) : option (list LineObj * bool) :=
  match lines with
  | [] => Some ([], fin)
  | line :: lines' =>
      match line_effect fin line with
      | Keep => absorb fin lines'
      | EnterPassthrough => None
      | Append e =>
          match absorb (fin || isTransitionLine e) lines' with
          | Some (es, fin') => Some (e :: es, fin')
          | None => None
          end
      end
  end.

(** Two attempts that differ in the events already released: both in
    passthrough mode, or the first still holds some events without text
    that the second has released. *)
Definition same_buffers (m s : StreamState) : Prop :=
  (passthroughMode m = true /\ passthroughMode s = true) \/
  (passthroughMode m = false /\ passthroughMode s = false /\
   lineBuffer m = lineBuffer s /\
   thoughtFinished m = thoughtFinished s /\
   exists zs, linesBuffer m = zs ++ linesBuffer s /\
              forallb zero_text zs = true /\
              (zs <> [] -> LOOKAHEAD_SIZE <= length (textBuffer s))).

(** The line stored for an event, from the thought flag after the event. *)
Definition stored_line (fin' : bool) (line : jstr) (data : ResponseJson) : jstr :=
  match candidate_parts data with
  | Some ps =>
      let '(processedParts, wasModified) := rewrite_parts fin' ps in
      if wasModified
      then match assign_parts processedParts data with
           | Some data' => js "data: " ++ JSON_stringify data'
           | None => line
           end
      else line
  | None => line
  end.

(** The buffer entry made from an event. *)
Definition entry_of (fin : bool) (line : jstr) (data : ResponseJson) : LineObj :=
  let parsedParts := parseParts (Some (default [] (candidate_parts data))) in
  let isTransitionLine := negb fin && isFormalResponseStarted (responseText parsedParts) in
  {| rawLine := stored_line (fin || isTransitionLine) line data;
     isTransitionLine := isTransitionLine;
     lo_text := responseText parsedParts |}.

(** Every line re-parses after the engine has rewritten it. *)
Definition all_reparse (lines : list jstr) : Prop :=
  Forall (fun l => reparse_ok l = true) lines.

(** The body of the loop that gathers the buffered texts. *)
Definition gather : jstr * jstr -> LineObj -> jstr * jstr :=
  fun '(thoughtTextBuffer, responseTextBuffer) lineObject =>
  if startsWith (js "data:") (rawLine lineObject)
  then match parse_line JSON_parse (rawLine lineObject) with
       | Some data =>
           fold_left
             (fun '(t, r) part =>
                if is_thought part && has_text part then (t ++ text_of part, r)
                else if negb (is_thought part) && has_text part
                     then (t, r ++ text_of part)
                     else (t, r))
             (default [] (candidate_parts data))
             (thoughtTextBuffer, responseTextBuffer)
       | None => (thoughtTextBuffer, responseTextBuffer)
       end
  else (thoughtTextBuffer, responseTextBuffer).

End ChunkVocabulary.

(** *** A JSON codec on a table of documents; some streams *)

(** [JSON.parse] and [JSON.stringify] on a finite set of documents, given
    with their JSON text. *)
Definition table_parse (table : list (jstr * ResponseJson)) (s : jstr)
  : option ResponseJson :=
  snd <$> List.find (fun e => bool_decide (fst e = s)) table.

Definition table_stringify (table : list (jstr * ResponseJson)) (d : ResponseJson) : jstr :=
  default [] (fst <$> List.find (fun e => bool_decide (snd e = d)) table).

(** [{candidates: [{content: {parts: ps, role: "model"}, index: 0}]}] *)
Definition demo_event (ps : list Part) : ResponseJson :=
  {| candidate_parts := Some ps; content_role := Some (js "model");
     finishReason := None; index := Some 0%Z; metadata := None |}.

Definition demo_json (parts_text : string) : jstr :=
  jsq "{'candidates':[{'content':{'parts':[" ++ jsq parts_text
      ++ jsq "],'role':'model'},'index':0}]}".

Definition demo_table : list (jstr * ResponseJson) :=
  [ (demo_json "{'text':'Let me think.'}", demo_event [text_part (js "Let me think.")]);
    (demo_json "{'text':'Let me think.','thought':true}",
     demo_event [thought_part (js "Let me think.")]);
    (demo_json "{'text':'[RESPONSE_BEGIN]The answer'}",
     demo_event [text_part (js "[RESPONSE_BEGIN]The answer")]);
    (demo_json "{'text':'[RESPONSE_BEGIN]The answer','thought':true}",
     demo_event [thought_part (js "[RESPONSE_BEGIN]The answer")]);
    (demo_json "{'text':'The answer'}", demo_event [text_part (js "The answer")]);
    (demo_json "{'text':' is 42.[RESPONSE_FINISHED]'}",
     demo_event [text_part (js " is 42.[RESPONSE_FINISHED]")]);
    (demo_json "{'text':' is 42.[RESPONSE_FINISHED]','thought':true}",
     demo_event [thought_part (js " is 42.[RESPONSE_FINISHED]")]);
    (demo_json "{'functionCall':{'name':'get_weather','args':{}}}",
     demo_event [ {| text := None; thought := None;
                     functionCall := Some (jsq "{'name':'get_weather','args':{}}");
                     other := None |} ]);
    (demo_json "{'text':'Calling the tool.'}", demo_event [text_part (js "Calling the tool.")]);
    (demo_json "{'text':'Calling the tool.','thought':true}",
     demo_event [thought_part (js "Calling the tool.")]) ].

Definition demo_parse : jstr -> option ResponseJson := table_parse demo_table.
Definition demo_stringify : ResponseJson -> jstr := table_stringify demo_table.

Definition demo_line (parts_text : string) : jstr := js "data: " ++ demo_json parts_text.

(** An answer in three events, cut into chunks inside an event and inside
    a separator. *)
Definition demo_chunks : list jstr :=
  [ demo_line "{'text':'Let me think.'}" ++ nn ++ js "data: " ;
    demo_json "{'text':'[RESPONSE_BEGIN]The answer'}" ++ [10%N] ;
    [10%N] ++ demo_line "{'text':' is 42.[RESPONSE_FINISHED]'}" ++ nn ].

(** A function call followed, in the same chunk, by one more event. *)
Definition demo_call_chunk : jstr :=
  demo_line "{'functionCall':{'name':'get_weather','args':{}}}" ++ nn
  ++ demo_line "{'text':'Calling the tool.'}" ++ nn.

(** The same two events, the second cut by a chunk boundary. *)
Definition demo_call_chunks : list jstr :=
  [ demo_line "{'functionCall':{'name':'get_weather','args':{}}}" ++ nn
    ++ take 30 (demo_line "{'text':'Calling the tool.'}");
    drop 30 (demo_line "{'text':'Calling the tool.'}") ++ nn ].

(** *** Some upstream responses *)

(** An upstream response that stops before the finish marker. *)
Definition demo_truncated : ResponseJson :=
  demo_event [text_part (js "[RESPONSE_BEGIN]Once upon a")].

(** An upstream response with a thought-flagged part and a function call. *)
Definition demo_call_response : ResponseJson :=
  demo_event [ thought_part (js "The user wants the weather.");
               {| text := None; thought := None;
                  functionCall := Some (jsq "{'name':'get_weather','args':{}}");
                  other := None |} ].

(** An upstream response with a thought-flagged part and a complete answer. *)
Definition demo_thought_response : ResponseJson :=
  demo_event [ thought_part (js "Simple sum.");
               text_part (js "[RESPONSE_BEGIN]4[RESPONSE_FINISHED]") ].

(** A complete answer that quotes the finish marker. *)
Definition demo_quoting_response : ResponseJson :=
  demo_event
    [text_part (js "[RESPONSE_BEGIN]I end with [RESPONSE_FINISHED].[RESPONSE_FINISHED]")].

(** The texts of the parts of a response built by the engine. *)
Definition response_texts (r : Response) : list jstr :=
  match r with
  | JsonResponse _ json => map text_of (default [] (candidate_parts json))
  | _ => []
  end.

(** *** Objects that a computation leaves untouched *)

(** A value that does not refer to any of the first [n] objects. *)
Definition fresh (n : nat) (v : Store.value) : Prop :=
  match v with
  | Store.VRef l => n <= l
  | _ => True
  end.

Definition fresh_cell (n : nat) (c : Store.cell) : Prop :=
  (forall es, Store.elems c = Some es -> Forall (fresh n) es) /\
  Forall (fun kv => fresh n (snd kv)) (Store.props c).

(** The store [h] extends [h0] without touching it, and the objects added
    do not refer back to it. *)
Definition extends (h0 h : Store.heap) : Prop :=
  take (length h0) h = h0 /\ Forall (fresh_cell (length h0)) (drop (length h0) h).

(** A computation that keeps [extends h0], whether it returns or throws,
    and returns a result in [P]. *)
Definition preserves {A} (h0 : Store.heap) (P : A -> Prop) (m : Store.M A) : Prop :=
  forall h, extends h0 h ->
    match m h with
    | Store.Ok a h' => extends h0 h' /\ P a
    | Store.Throw h' => extends h0 h'
    end.

(** *** Texts free of markers *)

(** Neither marker occurs in [s]. *)
Definition marker_free (s : jstr) : bool :=
  negb (includes BEGIN_TOKEN s) && negb (includes FINISHED_TOKEN s).

(** [f] holds of [s] and of every string left by dropping a prefix of [s]. *)
Fixpoint all_tails (f : jstr -> bool) (s : jstr) : bool :=
  f s && match s with
         | [] => true
         | _ :: s' => all_tails f s'
         end.

(** The markers stand only where the engine looks for them: the begin
    marker at the very start of the text, the finish marker at its end,
    followed by white space only. *)
Definition well_marked (s : jstr) : bool :=
  match s with
  | [] => true
  | _ :: s' => negb (includes BEGIN_TOKEN s')
  end
  && all_tails (fun t => negb (startsWith FINISHED_TOKEN t) || finish_tail t) s.

(** The texts of the parts of an event. *)
Definition event_texts (json : ResponseJson) : list jstr :=
  map text_of (default [] (candidate_parts json)).

(** *** A request in the object store *)

(** [demo_user_body] laid out in the store: the body, its [contents]
    array, the user entry, its [parts] array and the part. *)
Definition demo_heap : Store.heap :=
  [ {| Store.elems := None; Store.props := [(js "contents", Store.VRef 1)] |};
    {| Store.elems := Some [Store.VRef 2]; Store.props := [] |};
    {| Store.elems := None;
       Store.props := [(js "role", Store.VStr (js "user")); (js "parts", Store.VRef 3)] |};
    {| Store.elems := Some [Store.VRef 4]; Store.props := [] |};
    {| Store.elems := None; Store.props := [(js "text", Store.VStr (js "Hi"))] |} ].

(** *** Kinds of parts *)

(** The parts that [parseParts] counts as thought, as response text and
    as a function call. *)
Definition thought_text_part (p : Part) : bool := is_thought p && has_text p.
Definition response_text_part (p : Part) : bool := has_text p && negb (is_thought p).
Definition bare_functionCall_part (p : Part) : bool :=
  has_functionCall p && negb (has_text p).

(** *** The parts of a continued entry *)

(** The parts of a model entry after a continuation with [t]: the code of
    [buildRetryRequest] for the parts of the last entry (an absent or empty
    part list is [[]]). *)
Definition continue_parts (t : jstr) (ps : list Part) : list Part :=
  match last_index has_own_text ps with
  | Some i => alter (fun p => set_text (text_of p ++ t) p) i ps
  | None => ps ++ [text_part t]
  end.

(** *** The protocol prompt of a pair of flags *)

(** The prompt that [injectSystemPrompts] injects for a pair of flags. *)
Definition prompt_for (injectBeginTokenPrompt injectFinishTokenPrompt : bool) : jstr :=
  if injectBeginTokenPrompt && injectFinishTokenPrompt
  then BEGIN_TOKEN_PROMPT ++ FINISH_TOKEN_PROMPT
  else if injectBeginTokenPrompt then BEGIN_TOKEN_PROMPT
  else if injectFinishTokenPrompt then FINISH_TOKEN_PROMPT
  else [].

(** The entry that seeds the thought of the model. *)
Definition seed_entry (config : Config) : Content :=
  {| role := Some (js "model"); parts := Some [text_part (startOfThought config)] |}.

(** *** Clamping; streams that never complete *)

(** The thinking budget after the handlers have brought it into range. *)
Definition clamped (b : Z) : Z :=
  if (b =? 0)%Z then 0%Z else Z.max 128 (Z.min 32768 b).

(** An upstream whose every response stream ends before the answer is
    complete, in whatever state the attempt starts. *)
Definition always_truncated (JSON_parse : jstr -> option ResponseJson)
    (JSON_stringify : ResponseJson -> jstr) (upstream : StreamUpstream) : Prop :=
  forall attempts requestBody,
    exists chunks,
      upstream attempts requestBody = StreamOk chunks /\
      forall seed fin out,
        exists accumulated st',
          run_attempt JSON_parse JSON_stringify (attempt_start seed fin out) chunks =
            (Truncated accumulated, st').

(** The error event written when the statements after the streaming loop
    are reached. *)
Definition reference_error : Write :=
  WError 500 (js "Internal worker error.") (js "linesBuffer is not defined").

(** *** An attempt with buffered events *)

(** An attempt that holds two events: a thought and the end of an answer. *)
Definition demo_buffered : StreamState :=
  {| accumulatedTextThisAttempt := js "Here's a";
     hasFunctionCallInStream := false;
     passthroughMode := false;
     lineBuffer := [];
     textBuffer := js "Let me think. is 42.[RESPONSE_FINISHED]";
     linesBuffer :=
       [ {| rawLine := demo_line "{'text':'Let me think.','thought':true}";
            isTransitionLine := false; lo_text := js "Let me think." |};
         {| rawLine := demo_line "{'text':' is 42.[RESPONSE_FINISHED]'}";
            isTransitionLine := false; lo_text := js " is 42.[RESPONSE_FINISHED]" |} ];
     thoughtFinished := true;
     written := [WData (seed_payload (js "Here's a"))] |}.

(** *** Responses of one text; an upstream that resumes *)

(** An upstream response made of one text part. *)
Definition one_text_response (json : ResponseJson) (t : jstr) : Prop :=
  candidate_parts json = Some [text_part t].

(** [json] with the parts that the engine returns on completion. *)
Definition completed_response (json : ResponseJson) (thoughtText formalText : jstr)
  : ResponseJson :=
  {| candidate_parts := Some [thought_part thoughtText; text_part formalText];
     content_role := content_role json; finishReason := finishReason json;
     index := index json; metadata := metadata json |}.

(** An upstream that stops short at the first call and completes at the
    second. *)
Definition demo_resuming : Upstream :=
  fun attempts _ =>
    if (attempts =? 1)%Z
    then FetchOk (demo_event [text_part (BEGIN_TOKEN ++ newline ++ js "Once upon")])
    else FetchOk (demo_event [text_part (js " a time." ++ FINISHED_TOKEN)]).

(** *** A request at the entry point *)

(** A POST with its key in the URL, for a method of a target model. *)
Definition demo_incoming (method : string) (alt : option jstr) : Incoming :=
  {| in_method := js "POST"; key_param := Some (js "k"); alt_param := alt;
     goog_api_key := None;
     in_request :=
       {| pathname := js "/v1beta/models/gemini-1.5-pro" ++ js method;
          search := js "?key=k" ++ from_option (fun a => js "&alt=" ++ a) [] alt;
          userAgent := None; body := demo_user_body |} |}.

(** * Theorems *)

(** *** Facts about the regular-expression matcher *)

Lemma find_match_Bol_false (r : regex) (s : jstr) (i : nat) :
  find_match (Bol :: r) false s i = None.
Proof.
  revert i. induction s as [|c s IH]; intros i; simpl; [done|]. apply IH.
Qed.

Lemma regex_exec_Bol (r : regex) (s : jstr) :
  regex_exec (Bol :: r) s = (fun n => (0, n)) <$> m_seq r true s.
Proof.
  unfold regex_exec. destruct s as [|c s]; simpl.
  - destruct (m_seq r true []); done.
  - destruct (m_seq r true (c :: s)); [done|]. apply find_match_Bol_false.
Qed.

Lemma startsWith_app (p s : jstr) : startsWith p (p ++ s) = true.
Proof. induction p as [|a p IH]; simpl; [done|]. by rewrite N.eqb_refl. Qed.

Lemma startsWith_spec (p s : jstr) :
  startsWith p s = true <-> exists t, s = p ++ t.
Proof.
  revert s. induction p as [|a p IH]; intros s; simpl.
  - split; [intros _; by exists s | done].
  - destruct s as [|b s]; [split; [done | intros [t Ht]; done]|].
    rewrite andb_true_iff, N.eqb_eq, IH. split.
    + intros [-> [t ->]]. by exists t.
    + intros [t Ht]. injection Ht as -> ->. split; [done | by exists t].
Qed.

Lemma startsWith_drop (p s : jstr) :
  startsWith p s = true -> s = p ++ drop (length p) s.
Proof.
  intros [t ->]%startsWith_spec. by rewrite drop_app_length.
Qed.

Theorem begin_char (text : jstr) :
  isFormalResponseStarted text =
    startsWith BEGIN_TOKEN text &&
    match drop (length BEGIN_TOKEN) text with
    | [] => true
    | c :: _ => not_excluded c
    end.
Proof.
  unfold isFormalResponseStarted, regex_test, begin_re.
  rewrite regex_exec_Bol.
  cbn [m_seq m_atom].
  destruct (startsWith BEGIN_TOKEN text) eqn:Hs; cbn [andb].
  - destruct (drop (length BEGIN_TOKEN) text) as [|c rest]; cbn.
    + done.
    + destruct (not_excluded c); cbn; done.
  - done.
Qed.

(** *** What the marker expressions match *)

Lemma m_star_eol (p : char -> bool) (b : bool) (s : jstr) :
  m_seq [Star p; Eol] b s = if forallb p s then Some (length s) else None.
Proof.
  cbn [m_seq m_atom]. revert b.
  induction s as [|c s IH]; intros b; [done|].
  cbn [forallb]. destruct (p c); cbn [andb]; [|done].
  rewrite IH. destruct (forallb p s); done.
Qed.

Lemma m_lit (t : jstr) (r : regex) (b : bool) (s : jstr) :
  m_seq (Lit t :: r) b s =
    if startsWith t s
    then (fun n => length t + n) <$> m_seq r (b && bool_decide (t = [])) (drop (length t) s)
    else None.
Proof. done. Qed.

Lemma m_opt (p : char -> bool) (r : regex) (b : bool) (s : jstr) :
  m_seq (Opt p :: r) b s =
    match s with
    | c :: s' =>
        if p c
        then match m_seq r false s' with
             | Some n => Some (S n)
             | None => m_seq r b s
             end
        else m_seq r b s
    | [] => m_seq r b s
    end.
Proof. destruct s; done. Qed.

Lemma startsWith_length (p s : jstr) : startsWith p s = true -> length p <= length s.
Proof. intros [t ->]%startsWith_spec. rewrite length_app. lia. Qed.

Lemma m_finished (b : bool) (s : jstr) :
  m_seq finished_re b s = if finish_tail s then Some (length s) else None.
Proof.
  unfold finished_re, finish_tail. rewrite m_lit.
  destruct (startsWith FINISHED_TOKEN s) eqn:Hs; [|done].
  rewrite m_star_eol. cbn [andb].
  destruct (forallb _ _); [|done]. cbn [fmap option_fmap option_map].
  apply startsWith_length in Hs. rewrite length_drop. f_equal. lia.
Qed.

Lemma m_clean_finish (b : bool) (s : jstr) :
  m_seq clean_finish_re b s = if clean_finish_tail s then Some (length s) else None.
Proof.
  unfold clean_finish_re. rewrite m_opt.
  change (m_seq (Lit FINISHED_TOKEN :: [Star is_space; Eol])) with (m_seq finished_re).
  unfold clean_finish_tail.
  destruct s as [|c s].
  - rewrite m_finished. by rewrite orb_false_r.
  - rewrite !m_finished. destruct (is_space c); cbn [andb].
    + destruct (finish_tail s); [by rewrite orb_true_r|].
      rewrite orb_false_r. done.
    + by rewrite orb_false_r.
Qed.

(** A regular expression whose matches always run to the end of the
    input: the leftmost match starts at the first suffix that matches. *)
Lemma find_match_tail (r : regex) (f : jstr -> bool) :
  (forall b s, m_seq r b s = if f s then Some (length s) else None) ->
  forall b s i,
    find_match r b s i = (fun k => (i + k, length s - k)) <$> first_tail f s.
Proof.
  intros Hr b s. revert b.
  induction s as [|c s IH]; intros b i; cbn [find_match first_tail]; rewrite Hr.
  - destruct (f []); cbn; [do 2 f_equal; lia | done].
  - destruct (f (c :: s)); cbn; [do 2 f_equal; lia |].
    rewrite IH. destruct (first_tail f s); cbn; [do 2 f_equal; lia | done].
Qed.

Lemma first_tail_le f s k : first_tail f s = Some k -> k <= length s.
Proof.
  revert k. induction s as [|c s IH]; intros k; cbn.
  - destruct (f []); [|done]. intros [= <-]. lia.
  - destruct (f (c :: s)); [intros [= <-]; lia|].
    destruct (first_tail f s) eqn:E; [|done]. cbn. intros [= <-].
    specialize (IH _ eq_refl). lia.
Qed.

Lemma regex_remove_tail (r : regex) (f : jstr -> bool) (s : jstr) :
  (forall b s, m_seq r b s = if f s then Some (length s) else None) ->
  regex_remove r s = match first_tail f s with Some k => take k s | None => s end.
Proof.
  intros Hr. unfold regex_remove, regex_exec. rewrite (find_match_tail r f Hr).
  destruct (first_tail f s) as [k|] eqn:E; cbn; [|done].
  apply first_tail_le in E.
  rewrite drop_ge by lia. by rewrite app_nil_r.
Qed.

Lemma regex_test_tail (r : regex) (f : jstr -> bool) (s : jstr) :
  (forall b s, m_seq r b s = if f s then Some (length s) else None) ->
  regex_test r s = bool_decide (is_Some (first_tail f s)).
Proof.
  intros Hr. unfold regex_test, regex_exec. rewrite (find_match_tail r f Hr).
  destruct (first_tail f s); cbn; done.
Qed.

Lemma clean_finish_remove (s : jstr) :
  regex_remove clean_finish_re s =
    match first_tail clean_finish_tail s with Some k => take k s | None => s end.
Proof. apply regex_remove_tail. apply m_clean_finish. Qed.

Lemma isResponseComplete_tail (s : jstr) :
  isResponseComplete s = bool_decide (is_Some (first_tail finish_tail s)).
Proof. apply regex_test_tail. apply m_finished. Qed.

Lemma BEGIN_TOKEN_cons : BEGIN_TOKEN = 91%N :: drop 1 BEGIN_TOKEN.
Proof. reflexivity. Qed.

Lemma startsWith_BEGIN_head c s : startsWith BEGIN_TOKEN (c :: s) = true -> c = 91%N.
Proof.
  rewrite BEGIN_TOKEN_cons. cbn [startsWith].
  intros [H _]%andb_true_iff. apply N.eqb_eq in H. done.
Qed.

Lemma m_opt_last (p : char -> bool) (b : bool) (s : jstr) :
  m_seq [Opt p] b s = Some (length s - length (if match s with c :: _ => p c | [] => false end then drop 1 s else s)).
Proof.
  rewrite m_opt. destruct s as [|c s]; [done|].
  destruct (p c); cbn [m_seq drop length]; rewrite ?drop_0; f_equal; lia.
Qed.

Lemma drop_space_alt (s : jstr) :
  drop_space s = if match s with c :: _ => is_space c | [] => false end then drop 1 s else s.
Proof. destruct s as [|c s]; cbn; [done|]. by destruct (is_space c). Qed.

Lemma drop_space_length s : length (drop_space s) <= length s.
Proof. destruct s as [|c s]; cbn; [lia|]. destruct (is_space c); cbn; lia. Qed.

Lemma m_begin_tail (b : bool) (s : jstr) :
  m_seq [Lit BEGIN_TOKEN; Opt is_space] b s =
    if startsWith BEGIN_TOKEN s
    then Some (length s - length (drop_space (drop (length BEGIN_TOKEN) s)))
    else None.
Proof.
  rewrite m_lit. destruct (startsWith BEGIN_TOKEN s) eqn:Hs; [|done].
  rewrite m_opt_last, <- drop_space_alt. cbn [fmap option_fmap option_map].
  f_equal. apply startsWith_length in Hs.
  pose proof (drop_space_length (drop (length BEGIN_TOKEN) s)) as Hl.
  rewrite length_drop in *. lia.
Qed.

Lemma clean_begin_remove (s : jstr) :
  regex_remove clean_begin_re s = strip_begin s.
Proof.
  unfold regex_remove, clean_begin_re. rewrite regex_exec_Bol, m_opt.
  unfold strip_begin.
  assert (Hdrop : forall (t u : jstr), length u <= length t ->
            (exists v, t = v ++ u) -> drop (0 + (length t - length u)) t = u).
  { intros t u Hl [v ->]. rewrite length_app.
    replace (0 + (length v + length u - length u)) with (length v) by lia.
    by rewrite drop_app_length. }
  assert (Hsuf : forall t, exists v, t = v ++ drop_space (drop (length BEGIN_TOKEN) t)).
  { intros t. destruct (drop (length BEGIN_TOKEN) t) as [|c u] eqn:E.
    - exists t. by rewrite app_nil_r.
    - cbn. destruct (is_space c).
      + exists (take (length BEGIN_TOKEN) t ++ [c]).
        rewrite <- app_assoc. cbn. rewrite <- E. by rewrite take_drop.
      + exists (take (length BEGIN_TOKEN) t). rewrite <- E. by rewrite take_drop. }
  assert (Hlen : forall t, length (drop_space (drop (length BEGIN_TOKEN) t)) <= length t).
  { intros t. etrans; [apply drop_space_length|]. rewrite length_drop. lia. }
  destruct s as [|c s].
  - rewrite m_begin_tail. done.
  - rewrite !m_begin_tail.
    destruct (startsWith BEGIN_TOKEN (c :: s)) eqn:Hs.
    + assert (is_space c = false) as -> by (apply startsWith_BEGIN_head in Hs; by subst).
      cbn [fmap option_fmap option_map take app].
      apply Hdrop; [apply Hlen | apply Hsuf].
    + destruct (is_space c); cbn [andb]; [|done].
      destruct (startsWith BEGIN_TOKEN s) eqn:Hs'; [|done].
      cbn [fmap option_fmap option_map take app].
      destruct (Hsuf s) as [v Hv]. pose proof (Hlen s).
      change (0 + S (length s - length (drop_space (drop (length BEGIN_TOKEN) s))))
        with (S (length s - length (drop_space (drop (length BEGIN_TOKEN) s)))).
      cbn [drop]. apply (Hdrop s); [done | by exists v].
Qed.

(** *** Stripping the markers *)

Lemma trimStart_space_app (w s : jstr) :
  all_space w = true -> trimStart (w ++ s) = trimStart s.
Proof.
  induction w as [|c w IH]; cbn; [done|].
  intros [-> Hw]%andb_true_iff. by apply IH.
Qed.

Lemma trimStart_id (s : jstr) : starts_with_space s = false -> trimStart s = s.
Proof. destruct s as [|c s]; cbn; [done|]. by intros ->. Qed.

Lemma all_space_rev (w : jstr) : all_space w = true -> all_space (rev w) = true.
Proof.
  unfold all_space. rewrite !forallb_forall. intros H c Hc. apply H.
  by apply in_rev.
Qed.

Lemma trimEnd_app_space (u w : jstr) :
  all_space w = true -> ends_with_space u = false -> trimEnd (u ++ w) = u.
Proof.
  intros Hw Hu. unfold trimEnd. rewrite rev_app_distr.
  rewrite trimStart_space_app by by apply all_space_rev.
  rewrite trimStart_id by done. apply rev_involutive.
Qed.

Lemma FINISHED_TOKEN_rev : rev FINISHED_TOKEN = 93%N :: rev (take 18 FINISHED_TOKEN).
Proof. reflexivity. Qed.

Lemma ends_FINISHED (z : jstr) : ends_with_space (z ++ FINISHED_TOKEN) = false.
Proof. unfold ends_with_space. rewrite rev_app_distr, FINISHED_TOKEN_rev. done. Qed.

Lemma finish_tail_spec (s : jstr) :
  finish_tail s = true <-> exists w, s = FINISHED_TOKEN ++ w /\ all_space w = true.
Proof.
  unfold finish_tail. rewrite andb_true_iff. split.
  - intros [Hs Hw]. exists (drop (length FINISHED_TOKEN) s). split; [|done].
    by apply startsWith_drop.
  - intros (w & -> & Hw). rewrite startsWith_app, drop_app_length. done.
Qed.

(** The finish marker that ends a text, trailing whitespace aside, is at
    one place only. *)
Lemma finish_tail_unique (z w : jstr) :
  all_space w = true -> finish_tail (z ++ FINISHED_TOKEN ++ w) = true -> z = [].
Proof.
  intros Hw (w' & Heq & Hw')%finish_tail_spec.
  assert (H : z ++ FINISHED_TOKEN = FINISHED_TOKEN).
  { rewrite <- (trimEnd_app_space (z ++ FINISHED_TOKEN) w Hw (ends_FINISHED z)).
    rewrite <- app_assoc, Heq.
    apply (trimEnd_app_space FINISHED_TOKEN w' Hw' (ends_FINISHED [])). }
  apply (f_equal length) in H. rewrite length_app in H.
  destruct z; [done | cbn in H; lia].
Qed.

Lemma first_tail_app (f : jstr -> bool) (x y : jstr) :
  f y = true ->
  (forall x0 c x1, x = x0 ++ c :: x1 -> f (c :: x1 ++ y) = false) ->
  first_tail f (x ++ y) = Some (length x).
Proof.
  intros Hy. induction x as [|c x IH]; intros Hx.
  - cbn [app length]. destruct y; cbn; by rewrite Hy.
  - cbn [app first_tail]. rewrite (Hx [] c x eq_refl).
    rewrite IH; [done|]. intros x0 c' x1 ->. by apply (Hx (c :: x0) c' x1).
Qed.

Lemma first_tail_bound (f : jstr -> bool) (x y : jstr) :
  f y = true -> exists k, first_tail f (x ++ y) = Some k /\ k <= length x.
Proof.
  intros Hy. induction x as [|c x (k & Hk & Hle)].
  - exists 0. split; [|done]. cbn [app]. destruct y; cbn; by rewrite Hy.
  - cbn [app first_tail]. destruct (f (c :: x ++ y)).
    + exists 0. split; [done | lia].
    + exists (S k). rewrite Hk. split; [done | cbn; lia].
Qed.

Lemma clean_finish_tail_here (b w : jstr) :
  one_space b = true -> all_space w = true ->
  clean_finish_tail (b ++ FINISHED_TOKEN ++ w) = true.
Proof.
  intros Hb Hw.
  assert (Hf : finish_tail (FINISHED_TOKEN ++ w) = true)
    by (apply finish_tail_spec; by exists w).
  unfold clean_finish_tail.
  destruct b as [|c [|? ?]]; [| |done].
  - cbn [app]. by rewrite Hf.
  - cbn [app]. cbn in Hb. rewrite Hb, Hf. by rewrite orb_true_r.
Qed.

Lemma strip_finish_round_trip (text b w : jstr) :
  one_space b = true -> all_space w = true ->
  (b = [] -> ends_with_space text = false) ->
  regex_remove clean_finish_re (text ++ b ++ FINISHED_TOKEN ++ w) = text.
Proof.
  intros Hb Hw Hend. rewrite clean_finish_remove.
  rewrite first_tail_app.
  - by rewrite take_app_length.
  - by apply clean_finish_tail_here.
  - intros x0 c x1 ->. unfold clean_finish_tail. apply orb_false_iff. split.
    + apply not_true_is_false. intros H.
      change (c :: x1 ++ b ++ FINISHED_TOKEN ++ w)
        with ((c :: x1) ++ b ++ FINISHED_TOKEN ++ w) in H.
      rewrite (app_assoc _ b) in H. by apply finish_tail_unique in H.
    + apply not_true_is_false. intros [Hc H]%andb_true_iff.
      rewrite (app_assoc x1 b) in H. apply finish_tail_unique in H; [|done].
      apply app_eq_nil in H as [-> ->].
      specialize (Hend eq_refl). unfold ends_with_space in Hend.
      rewrite rev_app_distr in Hend. cbn in Hend. congruence.
Qed.

Lemma FINISHED_TOKEN_cons : FINISHED_TOKEN = 91%N :: drop 1 FINISHED_TOKEN.
Proof. reflexivity. Qed.

Lemma strip_begin_round_trip (pre a rest : jstr) :
  one_space pre = true -> one_space a = true ->
  (a = [] -> starts_with_space rest = false) ->
  strip_begin (pre ++ BEGIN_TOKEN ++ a ++ rest) = rest.
Proof.
  intros Hpre Ha Hrest.
  assert (Htail : drop_space (a ++ rest) = rest).
  { destruct a as [|c [|? ?]]; [| |done].
    - specialize (Hrest eq_refl). destruct rest as [|c rest]; cbn in *; [done|].
      by rewrite Hrest.
    - cbn in *. by rewrite Ha. }
  unfold strip_begin. destruct pre as [|c [|? ?]]; [| |done].
  - cbn [app]. rewrite startsWith_app, drop_app_length. done.
  - cbn [app]. cbn in Hpre.
    destruct (startsWith BEGIN_TOKEN (c :: BEGIN_TOKEN ++ a ++ rest)) eqn:Hs.
    + apply startsWith_BEGIN_head in Hs. by subst.
    + rewrite Hpre, startsWith_app, drop_app_length. done.
Qed.

(** C7.  Stripping undoes injection: [stripMarkers] applied to the begin
    marker, a text and the finish marker gives back the text, with at most
    one white-space character before the begin marker, after it and before
    the finish marker, and any white space after the finish marker --
    provided that, where no white space separates a marker from the text,
    the text itself does not start (or end) with white space there.  The
    text may even contain the markers. *)
Theorem stripMarkers_round_trip (pre a text b w : jstr) :
  one_space pre = true -> one_space a = true -> one_space b = true ->
  all_space w = true ->
  (a = [] -> starts_with_space text = false) ->
  (b = [] -> ends_with_space text = false) ->
  stripMarkers (pre ++ BEGIN_TOKEN ++ a ++ text ++ b ++ FINISHED_TOKEN ++ w) = text.
Proof.
  intros Hpre Ha Hb Hw Hstart Hend.
  unfold stripMarkers, cleanFinalText. rewrite clean_begin_remove.
  destruct text as [|c text].
  - (* an empty text: the whitespace before the finish marker may already
       have been taken with the begin marker *)
    cbn [app].
    assert (Hcase : strip_begin (pre ++ BEGIN_TOKEN ++ a ++ b ++ FINISHED_TOKEN ++ w)
                    = b ++ FINISHED_TOKEN ++ w
                    \/ strip_begin (pre ++ BEGIN_TOKEN ++ a ++ b ++ FINISHED_TOKEN ++ w)
                       = FINISHED_TOKEN ++ w).
    { destruct a as [|ca [|? ?]]; [| |done].
      - destruct b as [|cb [|? ?]]; [| |done].
        + left. apply (strip_begin_round_trip pre [] _ Hpre eq_refl).
          intros _. rewrite FINISHED_TOKEN_cons. done.
        + right. apply (strip_begin_round_trip pre [cb] _ Hpre Hb). done.
      - left. apply (strip_begin_round_trip pre [ca] _ Hpre Ha). done. }
    destruct Hcase as [-> | ->].
    + by apply (strip_finish_round_trip [] b w).
    + by apply (strip_finish_round_trip [] [] w).
  - rewrite (strip_begin_round_trip pre a ((c :: text) ++ b ++ FINISHED_TOKEN ++ w) Hpre Ha Hstart).
    by apply strip_finish_round_trip.
Qed.

Lemma stripMarkers_round_trip_witness :
  stripMarkers (BEGIN_TOKEN ++ js "
" ++ js "The answer is 42." ++ [] ++ FINISHED_TOKEN ++ js " ")
  = js "The answer is 42.".
Proof.
  apply (stripMarkers_round_trip [] (js "
") (js "The answer is 42.") [] (js " ")); try reflexivity; intros; reflexivity.
Defined.

(** C7, as stated, fails for a text that starts with a space and follows
    the begin marker directly: the space is taken with the marker. *)
Lemma stripMarkers_counterexample :
  includes BEGIN_TOKEN (js " hello") = false /\
  includes FINISHED_TOKEN (js " hello") = false /\
  stripMarkers (BEGIN_TOKEN ++ js " hello" ++ FINISHED_TOKEN) <> js " hello".
Proof. split; [|split]; [reflexivity | reflexivity |]. vm_compute. discriminate. Qed.

(** C2.  [isFormalResponseStarted] holds exactly of the texts that start
    with the begin marker followed by the end of the text or by a character
    other than a backquote, a period and a space.  So it holds of the
    marker alone and of the marker followed by [Hello], and fails for the
    marker followed by [. ok], for every text that does not start with the
    marker -- and for the marker followed by [ Hello], since the space is
    one of the excluded characters. *)
Theorem hasAnswerStarted_cases :
  (forall text,
     isFormalResponseStarted text =
       startsWith BEGIN_TOKEN text &&
       match drop (length BEGIN_TOKEN) text with
       | [] => true
       | c :: _ => not_excluded c
       end) /\
  (forall text, startsWith BEGIN_TOKEN text = false ->
                isFormalResponseStarted text = false) /\
  isFormalResponseStarted BEGIN_TOKEN = true /\
  isFormalResponseStarted (BEGIN_TOKEN ++ js " Hello") = false /\
  isFormalResponseStarted (BEGIN_TOKEN ++ js "Hello") = true /\
  isFormalResponseStarted (BEGIN_TOKEN ++ js ". ok") = false.
Proof.
  split; [apply begin_char|].
  split; [intros text H; by rewrite begin_char, H|].
  repeat split; reflexivity.
Qed.

Lemma hasAnswerStarted_cases_witness :
  isFormalResponseStarted (js "Hello [RESPONSE_BEGIN]") = false.
Proof.
  apply (proj1 (proj2 hasAnswerStarted_cases) (js "Hello [RESPONSE_BEGIN]")).
  reflexivity.
Defined.

(** C2, as stated, fails on its first example: the begin marker followed
    by [ Hello] is not recognised. *)
Lemma hasAnswerStarted_counterexample :
  isFormalResponseStarted (BEGIN_TOKEN ++ js " Hello") = false.
Proof. vm_compute. reflexivity. Qed.

(** *** buildRetryRequest *)

Lemma normalize_contents (body : Body) :
  contents (normalizeSystemInstruction body) = contents body.
Proof.
  unfold normalizeSystemInstruction.
  destruct (systemInstruction body), (system_instruction body); done.
Qed.

Lemma last_index_app {A} (f : A -> bool) (pre post : list A) (p : A) :
  f p = true -> forallb (fun x => negb (f x)) post = true ->
  last_index f (pre ++ p :: post) = Some (length pre).
Proof.
  intros Hp Hpost.
  assert (Hnone : last_index f post = None).
  { induction post as [|x post IH]; [done|]. cbn in *.
    apply andb_true_iff in Hpost as [Hx Hpost]. rewrite IH by done.
    by destruct (f x). }
  induction pre as [|x pre IH]; cbn.
  - by rewrite Hnone, Hp.
  - by rewrite IH.
Qed.

Lemma alter_middle {A} (g : A -> A) (pre post : list A) (p : A) :
  alter g (length pre) (pre ++ p :: post) = pre ++ g p :: post.
Proof. induction pre as [|x pre IH]; cbn; [done|]. by rewrite IH. Qed.

Lemma insert_last {A} (cs0 : list A) (lc x : A) :
  <[length (cs0 ++ [lc]) - 1 := x]> (cs0 ++ [lc]) = cs0 ++ [x].
Proof.
  rewrite length_app. cbn [length].
  replace (length cs0 + 1 - 1) with (length cs0 + 0) by lia.
  by rewrite insert_app_r.
Qed.



(** *** The non-streaming loop *)

Lemma handle_engine (config : Config) (upstream : Upstream) (request : Request) :
  engine_request ":generateContent" request ->
  handleNonStreamingRequest config upstream request =
    nonStreamingLoop config upstream (Z.to_nat (maxRetries config + 1)) 0
      (engine_body config request) (engine_acc config request) [].
Proof.
  intros [Ht Hs]. unfold handleNonStreamingRequest. rewrite Ht, Hs. done.
Qed.

Lemma engine_acc_incomplete config request : is_complete (engine_acc config request) = false.
Proof. unfold is_complete. cbn. apply andb_false_r. Qed.

(** **** Exhausted retries *)

Lemma loop_exhausted_shape config upstream remaining attempts currentBody st sent0 :
  let o := nonStreamingLoop config upstream remaining attempts currentBody st sent0 in
  ending o = EndExhausted -> response o = JsonResponse 200 (exhausted_json (acc o)).
Proof.
  revert attempts currentBody st sent0.
  induction remaining as [|n IH]; intros attempts currentBody st sent0; cbn zeta.
  - done.
  - cbn [nonStreamingLoop].
    destruct (upstream (attempts + 1)%Z currentBody) as [msg | json | status txt].
    + destruct (_ >? _)%Z; [done | apply IH].
    + destruct (existsb _ _); [done|].
      destruct (is_complete _); [|apply IH].
      destruct (assign_parts _ _); [done|].
      destruct (_ >? _)%Z; [done | apply IH].
    + destruct (status_in FATAL_STATUS_CODES status); [done|].
      destruct (_ >? _)%Z; [done | apply IH].
Qed.

Lemma loop_never_complete config upstream remaining attempts currentBody st sent0 :
  (forall a b, exists json, upstream a b = FetchOk json /\ keeps_incomplete json) ->
  is_complete st = false ->
  let o := nonStreamingLoop config upstream remaining attempts currentBody st sent0 in
  ending o = EndExhausted /\ length (sent o) = length sent0 + remaining.
Proof.
  intros Hup. revert attempts currentBody st sent0.
  induction remaining as [|n IH]; intros attempts currentBody st sent0 Hst; cbn zeta.
  - cbn. split; [done | lia].
  - cbn [nonStreamingLoop].
    destruct (Hup (attempts + 1)%Z currentBody) as (json & -> & Hfc & Hkeep).
    rewrite Hfc, (Hkeep st Hst).
    edestruct IH as [H1 H2]; [by apply Hkeep|]. split; [apply H1|].
    rewrite H2, length_app. cbn. lia.
Qed.

(** C6.  With [maxRetries = 0] and a first response that is not complete,
    one upstream call is made and the handler returns status 200 with the
    best-effort body; that body has the finish reason MAX_RETRIES and its
    last part is the cleaned formal text followed by a line with the
    incomplete marker; an upstream that never completes uses up
    [maxRetries + 1] calls; and whenever the loop runs out, the response is
    that 200 response, never an error. *)
Theorem exhausted_retries_best_effort :
  (* one attempt when maxRetries = 0 *)
  (forall config upstream request json,
     engine_request ":generateContent" request ->
     maxRetries config = 0%Z ->
     upstream 1%Z (engine_body config request) = FetchOk json ->
     existsb has_functionCall (default [] (candidate_parts json)) = false ->
     is_complete (accumulate (engine_acc config request)
                    (default [] (candidate_parts json))) = false ->
     let st := accumulate (engine_acc config request) (default [] (candidate_parts json)) in
     handleNonStreamingRequest config upstream request =
       {| response := JsonResponse 200 (exhausted_json st);
          sent := [engine_body config request];
          ending := EndExhausted; acc := st |})
  /\
  (* the best-effort response *)
  (forall st,
     finishReason (exhausted_json st) = Some (js "MAX_RETRIES") /\
     exists pre,
       candidate_parts (exhausted_json st) =
         Some (pre ++ [text_part (stripMarkers (formalAccumulatedText st)
                                  ++ newline ++ INCOMPLETE_TOKEN)]))
  /\
  (* an upstream that never completes uses up maxRetries + 1 attempts *)
  (forall config upstream request,
     engine_request ":generateContent" request ->
     (forall a b, exists json, upstream a b = FetchOk json /\ keeps_incomplete json) ->
     let o := handleNonStreamingRequest config upstream request in
     ending o = EndExhausted /\ length (sent o) = Z.to_nat (maxRetries config + 1))
  /\
  (* whenever the retries are used up, the response is the 200 one *)
  (forall config upstream request,
     let o := handleNonStreamingRequest config upstream request in
     ending o = EndExhausted -> response o = JsonResponse 200 (exhausted_json (acc o))).
Proof.
  split; [|split; [|split]].
  - intros config upstream request json Hreq Hmax Hup Hfc Hinc st.
    rewrite handle_engine by done. rewrite Hmax.
    change (Z.to_nat (0 + 1)) with 1%nat.
    cbn [nonStreamingLoop]. change (0 + 1)%Z with 1%Z. rewrite Hup, Hfc.
    fold st. fold st in Hinc. rewrite Hinc. done.
  - intros st. split; [done|]. unfold exhausted_json, exhausted_parts. cbn.
    by eexists.
  - intros config upstream request Hreq Hup o. subst o.
    rewrite handle_engine by done.
    apply (loop_never_complete config upstream _ 0%Z _ _ [] Hup).
    apply engine_acc_incomplete.
  - intros config upstream request o. subst o.
    unfold handleNonStreamingRequest.
    destruct (negb _); [done|]. destruct (isStructuredOutputRequest _); [done|].
    apply loop_exhausted_shape.
Qed.

(** **** Thought-flagged parts *)

Lemma accumulate_part_thought st p : is_thought p = true -> accumulate_part st p = st.
Proof. intros H. unfold accumulate_part. rewrite H. by rewrite andb_false_r. Qed.

Lemma accumulate_filter st ps :
  accumulate st ps = accumulate st (List.filter (fun p => negb (is_thought p)) ps).
Proof.
  unfold accumulate. revert st. induction ps as [|p ps IH]; intros st; [done|].
  cbn [List.filter fold_left]. destruct (is_thought p) eqn:Hp; cbn [negb].
  - rewrite accumulate_part_thought by done. apply IH.
  - cbn [fold_left]. apply IH.
Qed.

Lemma is_thought_blank p : is_thought (blank_thought p) = is_thought p.
Proof. unfold blank_thought. destruct (is_thought p) eqn:E; [|done]. exact E. Qed.

Lemma accumulate_part_blank st p : accumulate_part st (blank_thought p) = accumulate_part st p.
Proof.
  destruct (is_thought p) eqn:E.
  - rewrite !accumulate_part_thought; [done | done | by rewrite is_thought_blank].
  - unfold blank_thought. by rewrite E.
Qed.

Lemma accumulate_blank st ps : accumulate st (map blank_thought ps) = accumulate st ps.
Proof.
  unfold accumulate. revert st. induction ps as [|p ps IH]; intros st; [done|].
  cbn [map fold_left]. rewrite accumulate_part_blank. apply IH.
Qed.

Lemma has_functionCall_blank ps :
  existsb has_functionCall (map blank_thought ps) = existsb has_functionCall ps.
Proof.
  induction ps as [|p ps IH]; [done|]. cbn [map existsb]. rewrite IH. f_equal.
  unfold blank_thought. by destruct (is_thought p).
Qed.

Lemma blank_parts json :
  default [] (candidate_parts (blank_thoughts json))
  = map blank_thought (default [] (candidate_parts json)).
Proof. unfold blank_thoughts. cbn. by destruct (candidate_parts json). Qed.

Lemma assign_parts_blank ps json :
  assign_parts ps (blank_thoughts json) = assign_parts ps json.
Proof. unfold assign_parts, blank_thoughts. cbn. by destruct (candidate_parts json). Qed.

Lemma loop_without_thought_text config upstream remaining attempts currentBody st sent0 :
  let o := nonStreamingLoop config upstream remaining attempts currentBody st sent0 in
  let o' := nonStreamingLoop config (without_thought_text upstream)
              remaining attempts currentBody st sent0 in
  sent o' = sent o /\ ending o' = ending o /\ acc o' = acc o /\
  (ending o <> EndFunctionCall -> response o' = response o).
Proof.
  revert attempts currentBody st sent0.
  induction remaining as [|n IH]; intros attempts currentBody st sent0; cbn zeta.
  - done.
  - cbn [nonStreamingLoop].
    assert (Hw : without_thought_text upstream (attempts + 1)%Z currentBody
                 = match upstream (attempts + 1)%Z currentBody with
                   | FetchOk json => FetchOk (blank_thoughts json)
                   | r => r
                   end) by done.
    rewrite Hw. clear Hw.
    destruct (upstream (attempts + 1)%Z currentBody) as [msg | json | status txt].
    + destruct (_ >? _)%Z; [done | apply IH].
    + rewrite blank_parts, has_functionCall_blank, accumulate_blank, assign_parts_blank.
      destruct (existsb _ _).
      { cbn. repeat split. intros H. exfalso. by apply H. }
      destruct (is_complete _); [|apply IH].
      destruct (assign_parts _ _); [done|].
      destruct (_ >? _)%Z; [done | apply IH].
    + destruct (status_in FATAL_STATUS_CODES status); [done|].
      destruct (_ >? _)%Z; [done | apply IH].
Qed.


(** *** Upstream failures *)

Lemma loop_fatal config upstream n attempts currentBody st sent0 status txt :
  upstream (attempts + 1)%Z currentBody = FetchStatus status txt ->
  status_in FATAL_STATUS_CODES status = true ->
  nonStreamingLoop config upstream (S n) attempts currentBody st sent0 =
    {| response := JsonError status (js "Upstream API returned a fatal error.") txt;
       sent := sent0 ++ [currentBody]; ending := EndError; acc := st |}.
Proof. intros Hup Hf. cbn [nonStreamingLoop]. by rewrite Hup, Hf. Qed.

Lemma replicate_snoc {A} (n : nat) (x : A) : replicate n x ++ [x] = x :: replicate n x.
Proof. induction n as [|n IH]; [done|]. cbn. by rewrite IH. Qed.

Lemma loop_capped config upstream status txt cap :
  (forall a b, upstream a b = FetchStatus status txt) ->
  status_in FATAL_STATUS_CODES status = false ->
  cap = (if status_in RETRYABLE_STATUS_CODES status then maxRetries config
         else MAX_NON_RETRYABLE_STATUS_RETRIES) ->
  forall n attempts currentBody st sent0,
    (0 <= attempts <= cap)%Z ->
    (cap + 1 - attempts <= Z.of_nat n)%Z ->
    nonStreamingLoop config upstream n attempts currentBody st sent0 =
      {| response := JsonError status (js "Upstream API error after max retries.") txt;
         sent := sent0 ++ replicate (Z.to_nat (cap + 1 - attempts)) currentBody;
         ending := EndError; acc := st |}.
Proof.
  intros Hup Hf Hcap. induction n as [|n IH]; intros attempts currentBody st sent0 Ha Hn.
  - lia.
  - cbn [nonStreamingLoop]. rewrite Hup, Hf, <- Hcap.
    destruct (attempts + 1 >? cap)%Z eqn:Hgt.
    + apply Z.gtb_lt in Hgt.
      replace (cap + 1 - attempts)%Z with 1%Z by lia. done.
    + assert (attempts + 1 <= cap)%Z by (pose proof (Zgt_cases (attempts + 1) cap); rewrite Hgt in *; lia).
      rewrite IH by lia.
      replace (Z.to_nat (cap + 1 - attempts)) with (S (Z.to_nat (cap + 1 - (attempts + 1)))) by lia.
      cbn [replicate]. rewrite <- app_assoc. done.
Qed.

Lemma loop_throws config upstream message :
  (forall a b, upstream a b = FetchThrows message) ->
  forall n attempts currentBody st sent0,
    (0 <= attempts <= MAX_FETCH_RETRIES)%Z ->
    (MAX_FETCH_RETRIES + 1 - attempts <= Z.of_nat n)%Z ->
    nonStreamingLoop config upstream n attempts currentBody st sent0 =
      {| response := JsonError 500 (js "Internal Server Error after max retries.") message;
         sent := sent0 ++ replicate (Z.to_nat (MAX_FETCH_RETRIES + 1 - attempts)) currentBody;
         ending := EndError; acc := st |}.
Proof.
  intros Hup. induction n as [|n IH]; intros attempts currentBody st sent0 Ha Hn.
  - lia.
  - cbn [nonStreamingLoop]. rewrite Hup.
    destruct (attempts + 1 >? MAX_FETCH_RETRIES)%Z eqn:Hgt.
    + apply Z.gtb_lt in Hgt.
      replace (MAX_FETCH_RETRIES + 1 - attempts)%Z with 1%Z by lia. done.
    + assert (attempts + 1 <= MAX_FETCH_RETRIES)%Z
        by (pose proof (Zgt_cases (attempts + 1) MAX_FETCH_RETRIES); rewrite Hgt in *; lia).
      rewrite IH by lia.
      replace (Z.to_nat (MAX_FETCH_RETRIES + 1 - attempts))
        with (S (Z.to_nat (MAX_FETCH_RETRIES + 1 - (attempts + 1)))) by lia.
      cbn [replicate]. rewrite <- app_assoc. done.
Qed.

Lemma written_attempt_start seed fin out :
  thoughtFinished (attempt_start seed fin out) = fin.
Proof. done. Qed.

(** In the streaming loop every failure that is not fatal is retried until
    the attempts exceed [maxRetries]. *)
Lemma stream_loop_capped parse stringify config upstream inj result code message details :
  (forall a b, upstream a b = result) ->
  (result = StreamStatus code details /\ status_in FATAL_STATUS_CODES code = false /\
   message = js "Upstream API error after max retries.") \/
  (result = StreamThrows details /\ code = 500%Z /\
   message = js "Internal Server Error after max retries.") ->
  forall n attempts currentBody fin out sent0,
    (0 <= attempts <= maxRetries config)%Z ->
    (maxRetries config + 1 - attempts <= Z.of_nat n)%Z ->
    streamingLoop parse stringify config upstream inj n attempts currentBody fin out sent0 =
      {| writes :=
           written (attempt_start
                      (if inj && (attempts + 1 =? 1)%Z then startOfThought config else [])
                      fin out)
           ++ [WError code message details];
         stream_sent :=
           sent0 ++ replicate (Z.to_nat (maxRetries config + 1 - attempts)) currentBody |}.
Proof.
  intros Hup Hres. induction n as [|n IH]; intros attempts currentBody fin out sent0 Ha Hn.
  - lia.
  - cbn [streamingLoop]. rewrite Hup.
    set (st := attempt_start _ fin out).
    assert (Hstep :
      (if (attempts + 1 >? maxRetries config)%Z
       then {| writes := written st ++ [WError code message details];
               stream_sent := sent0 ++ [currentBody] |}
       else streamingLoop parse stringify config upstream inj n (attempts + 1) currentBody
              (thoughtFinished st) (written st) (sent0 ++ [currentBody])) =
      {| writes := written st ++ [WError code message details];
         stream_sent :=
           sent0 ++ replicate (Z.to_nat (maxRetries config + 1 - attempts)) currentBody |}).
    { destruct (attempts + 1 >? maxRetries config)%Z eqn:Hgt.
      - apply Z.gtb_lt in Hgt.
        replace (maxRetries config + 1 - attempts)%Z with 1%Z by lia. done.
      - assert (attempts + 1 <= maxRetries config)%Z
          by (pose proof (Zgt_cases (attempts + 1) (maxRetries config));
              rewrite Hgt in *; lia).
        rewrite IH by lia.
        replace (attempts + 1 + 1 =? 1)%Z with false by (symmetry; apply Z.eqb_neq; lia).
        rewrite andb_false_r.
        replace (Z.to_nat (maxRetries config + 1 - attempts))
          with (S (Z.to_nat (maxRetries config + 1 - (attempts + 1)))) by lia.
        cbn [replicate]. rewrite <- app_assoc. unfold st at 1.
        cbn [attempt_start thoughtFinished written app]. done. }
    destruct Hres as [(-> & Hf & ->) | (-> & -> & ->)].
    + rewrite Hf. exact Hstep.
    + exact Hstep.
Qed.

Lemma handle_stream_engine parse stringify config upstream request :
  engine_request ":streamGenerateContent" request ->
  handleStreamingRequest parse stringify config upstream request =
    Some (streamingLoop parse stringify config upstream
            (injectBeginTokenPrompt_of (body request))
            (Z.to_nat (maxRetries config + 1)) 0 (engine_body config request)
            (negb (injectBeginTokenPrompt_of (body request))) [] []).
Proof.
  intros [Ht Hs]. unfold handleStreamingRequest. by rewrite Ht, Hs.
Qed.



Lemma cr_not_lf c : is_cr c = true -> is_lf c = false.
Proof. unfold is_cr, is_lf. intros ->%N.eqb_eq. done. Qed.

#[local] Opaque is_cr is_lf.

Lemma sep_match_len (s : jstr) : sep_match s = sep_len s.
Proof.
  unfold sep_match, event_sep_re.
  destruct s as [|c1 [|c2 [|c3 [|c4 s]]]]; cbn;
    repeat match goal with
      | |- context [is_cr ?c] =>
          let E := fresh "E" in
          destruct (is_cr c) eqn:E;
          [ rewrite ?(cr_not_lf c E) | ]; cbn
      | |- context [is_lf ?c] => destruct (is_lf c); cbn
      end; done.
Qed.

Lemma split_sep_nil skip cur : split_sep [] skip cur = [cur].
Proof. done. Qed.

Lemma split_sep_skip c s k cur : split_sep (c :: s) (S k) cur = split_sep s k cur.
Proof. done. Qed.

Lemma split_sep_scan c s cur :
  split_sep (c :: s) 0 cur =
    match sep_len (c :: s) with
    | Some (S n) => cur :: split_sep s n []
    | _ => split_sep s 0 (cur ++ [c])
    end.
Proof.
  unfold split_sep. cbn [split_go].
  change (m_seq event_sep_re false (c :: s)) with (sep_match (c :: s)).
  by rewrite sep_match_len.
Qed.

Lemma split_sep_nonempty s skip cur : split_sep s skip cur <> [].
Proof.
  revert skip cur. induction s as [|c s IH]; intros skip cur; [done|].
  destruct skip as [|k]; [|rewrite split_sep_skip; apply IH].
  rewrite split_sep_scan. destruct (sep_len (c :: s)) as [[|n]|]; try apply IH. done.
Qed.

Ltac sep_cases :=
  repeat match goal with
    | H : context [if is_cr ?c then _ else _] |- _ =>
        let E := fresh "E" in
        destruct (is_cr c) eqn:E; [ rewrite ?(cr_not_lf c E) in * | ]; cbn in H
    | H : context [if is_lf ?c then _ else _] |- _ =>
        let E := fresh "E" in destruct (is_lf c) eqn:E; cbn in H
    | |- context [if is_cr ?c then _ else _] =>
        let E := fresh "E" in
        destruct (is_cr c) eqn:E; [ rewrite ?(cr_not_lf c E) in * | ]; cbn
    | |- context [if is_lf ?c then _ else _] =>
        let E := fresh "E" in destruct (is_lf c) eqn:E; cbn
    end.

Lemma sep_len_bounds s n : sep_len s = Some n -> 2 <= n <= 4 /\ n <= length s.
Proof.
  destruct s as [|c1 [|c2 [|c3 [|c4 s]]]]; cbn; intros H; sep_cases;
    try discriminate; injection H as <-; cbn; lia.
Qed.

Lemma sep_len_extend s t n : sep_len s = Some n -> sep_len (s ++ t) = Some n.
Proof.
  destruct s as [|c1 [|c2 [|c3 [|c4 s]]]]; cbn; intros H; sep_cases;
    try discriminate; done.
Qed.

Lemma sep_len_restrict s t n :
  sep_len (s ++ t) = Some n -> n <= length s -> sep_len s = Some n.
Proof.
  destruct s as [|c1 [|c2 [|c3 [|c4 s]]]]; cbn [app length]; intros H Hn;
    pose proof (sep_len_bounds _ _ H) as [Hb _];
    try lia.
  - destruct t as [|c3 [|c4 t]]; cbn in *; sep_cases; try discriminate;
      injection H as <-; try lia; done.
  - destruct t as [|c4 t]; cbn in *; sep_cases; try discriminate;
      injection H as <-; try lia; done.
  - cbn in *. sep_cases; try discriminate; done.
Qed.

(** A separator that runs past the end of [x] leaves no separator inside
    what follows its first code unit. *)
Lemma split_sep_straddle c x y n cur :
  sep_len (c :: x ++ y) = Some (S n) -> length x < n ->
  split_sep x 0 cur = [cur ++ x].
Proof.
  intros H Hn. pose proof (sep_len_bounds _ _ H) as [Hb _].
  destruct x as [|a [|b [|? ?]]]; cbn [length] in Hn; try lia.
  - by rewrite split_sep_nil, app_nil_r.
  - rewrite split_sep_scan. cbn [sep_len].
    destruct (is_lf a), (is_cr a); rewrite split_sep_nil; done.
  - assert (n = 3) as -> by lia.
    destruct y as [|d y]; cbn [app sep_len] in H; sep_cases; try discriminate.
    assert (Hlb : is_lf b = false) by (by apply cr_not_lf).
    rewrite split_sep_scan. cbn [sep_len].
    repeat match goal with E : _ = _ |- _ => rewrite E end.
    rewrite split_sep_scan. cbn [sep_len].
    repeat match goal with E : _ = _ |- _ => rewrite E end.
    rewrite split_sep_nil, <- app_assoc. done.
Qed.

Lemma removelast_cons_ne {A} (a : A) (l : list A) :
  l <> [] -> removelast (a :: l) = a :: removelast l.
Proof. by destruct l. Qed.

Lemma last_cons_ne {A} (a : A) (l : list A) :
  l <> [] -> list.last (a :: l) = list.last l.
Proof. by destruct l. Qed.

Lemma split_sep_resume (x : jstr) :
  forall skip cur y,
    (skip = 0 -> split_sep (cur ++ x ++ y) 0 [] = split_sep (x ++ y) 0 cur) ->
    (0 < skip -> cur = [] /\ skip <= length x) ->
    split_sep (x ++ y) skip cur =
      removelast (split_sep x skip cur)
      ++ split_sep (default [] (list.last (split_sep x skip cur)) ++ y) 0 [].
Proof.
  induction x as [|c x IH]; intros skip cur y HP Hskip.
  - destruct skip as [|k]; [|cbn in Hskip; lia].
    rewrite split_sep_nil. cbn. symmetry. by apply HP.
  - destruct skip as [|k].
    + clear Hskip. specialize (HP eq_refl). cbn [app] in HP |- *. rewrite split_sep_scan.
      destruct (sep_len (c :: x ++ y)) as [[|n]|] eqn:Hlong.
      * apply sep_len_bounds in Hlong. lia.
      * destruct (decide (S n <= length (c :: x))) as [Hfit|Hstr].
        -- change (c :: x ++ y) with ((c :: x) ++ y) in Hlong.
           apply sep_len_restrict in Hlong; [|done].
           rewrite split_sep_scan, Hlong.
           pose proof (split_sep_nonempty x n []) as Hne.
           rewrite removelast_cons_ne, last_cons_ne by exact Hne.
           cbn [app]. f_equal. apply IH; [done|].
           intros _. split; [done|]. cbn in Hfit. lia.
        -- assert (Hshort : sep_len (c :: x) = None).
           { destruct (sep_len (c :: x)) as [m|] eqn:Hm; [|done].
             pose proof (sep_len_bounds _ _ Hm) as [_ Hle].
             apply (sep_len_extend _ y) in Hm. cbn [app] in Hm.
             rewrite Hlong in Hm. injection Hm as <-. done. }
           rewrite split_sep_scan, Hshort.
           rewrite (split_sep_straddle c x y n (cur ++ [c]) Hlong)
             by (cbn in Hstr; lia).
           cbn [removelast list.last default from_option id app].
           rewrite <- !app_assoc. cbn [app].
           rewrite HP. cbn [app]. by rewrite split_sep_scan, Hlong.
      * assert (Hshort : sep_len (c :: x) = None).
        { destruct (sep_len (c :: x)) as [m|] eqn:Hm; [|done].
          apply (sep_len_extend _ y) in Hm. cbn [app] in Hm. congruence. }
        rewrite split_sep_scan, Hshort. apply IH; [|lia].
        intros _. rewrite <- app_assoc. cbn [app]. rewrite HP.
        cbn [app]. by rewrite split_sep_scan, Hlong.
    + destruct (Hskip ltac:(lia)) as [-> Hle]. cbn [app].
      rewrite !split_sep_skip. apply IH; [done|].
      intros _. split; [done|]. cbn in Hle. lia.
Qed.

(** Reading [x ++ y] frames the same events as reading [x], keeping its
    unfinished last piece, and then reading that piece followed by [y]. *)
Lemma regex_split_app (x y : jstr) :
  regex_split event_sep_re (x ++ y) =
    removelast (regex_split event_sep_re x)
    ++ regex_split event_sep_re
         (default [] (list.last (regex_split event_sep_re x)) ++ y).
Proof. apply (split_sep_resume x 0 [] y); [done | lia]. Qed.

Lemma regex_split_nonempty (x : jstr) : regex_split event_sep_re x <> [].
Proof. apply split_sep_nonempty. Qed.

#[local] Transparent is_cr is_lf.

(** *** Chunk boundaries do not change what an attempt ends with *)

Lemma parse_step_mono r p :
  (hasThought r = true -> hasThought (parse_step r p) = true) /\
  (responseText r <> [] -> responseText (parse_step r p) <> []).
Proof.
  unfold parse_step.
  destruct (is_thought p && has_text p); [done|].
  destruct (has_text p && negb (is_thought p)); cbn.
  - split; [done|]. intros H Heq. apply app_eq_nil in Heq as [? _]. done.
  - destruct (has_functionCall p); done.
Qed.

Lemma parse_fold_mono ps r :
  (hasThought r = true -> hasThought (fold_left parse_step ps r) = true) /\
  (responseText r <> [] -> responseText (fold_left parse_step ps r) <> []).
Proof.
  revert r. induction ps as [|p ps IH]; intros r; [done|]. cbn [fold_left].
  destruct (parse_step_mono r p) as [H1 H2], (IH (parse_step r p)) as [H3 H4].
  split; auto.
Qed.

Lemma has_text_text_of p : has_text p = true -> text_of p <> [].
Proof. unfold has_text, text_of. destruct (text p) as [[|c s]|]; done. Qed.

Lemma parse_step_text r p :
  has_text p = true ->
  hasThought (parse_step r p) = true \/ responseText (parse_step r p) <> [].
Proof.
  intros Hp. unfold parse_step. rewrite Hp.
  destruct (is_thought p); cbn; [by left | right].
  intros Heq. apply app_eq_nil in Heq as [_ Heq]. by apply has_text_text_of in Hp.
Qed.

Lemma parse_fold_no_text ps r :
  hasThought (fold_left parse_step ps r) = false ->
  responseText (fold_left parse_step ps r) = [] ->
  forallb (fun p => negb (has_text p)) ps = true.
Proof.
  revert r. induction ps as [|p ps IH]; intros r Ht Hr; [done|].
  cbn [fold_left forallb] in *. rewrite (IH _ Ht Hr), andb_true_r.
  destruct (has_text p) eqn:Hp; [|done]. exfalso.
  destruct (parse_fold_mono ps (parse_step r p)) as [H1 H2].
  destruct (parse_step_text r p Hp) as [H|H].
  - rewrite (H1 H) in Ht. done.
  - by apply (H2 H).
Qed.

Lemma parse_nil_response :
  responseText (parseParts (Some [])) = [].
Proof. done. Qed.

Lemma started_nonempty t : isFormalResponseStarted t = true -> t <> [].
Proof. rewrite begin_char. intros H ->. done. Qed.

Lemma rewrite_parts_no_text fin ps :
  forallb (fun p => negb (has_text p)) ps = true ->
  forallb (fun p => negb (has_text p)) (fst (rewrite_parts fin ps)) = true.
Proof.
  intros H. unfold rewrite_parts.
  assert (Hf : forallb (fun p => negb (has_text p))
                 (List.filter (fun part => negb (is_thought part)) ps) = true).
  { rewrite forallb_forall in *. intros p [Hp _]%filter_In. by apply H. }
  destruct (negb fin); cbn [fst]; [|done].
  rewrite forallb_forall in *. intros p (q & <- & Hq)%in_map_iff.
  specialize (Hf q Hq). destruct (has_text q) eqn:E; [done|]. by rewrite E.
Qed.

Section ChunkProofs.

Variable JSON_parse : jstr -> option ResponseJson.
Variable JSON_stringify : ResponseJson -> jstr.

#[local] Abbreviation process_line := (process_line JSON_parse JSON_stringify).
#[local] Abbreviation line_effect := (line_effect JSON_parse JSON_stringify).
#[local] Abbreviation reparse_ok := (reparse_ok JSON_parse JSON_stringify).
#[local] Abbreviation entry_parses := (entry_parses JSON_parse).
#[local] Abbreviation entry_inert := (entry_inert JSON_parse).
#[local] Abbreviation buffers_ok := (buffers_ok JSON_parse).
#[local] Abbreviation parse_line := (parse_line JSON_parse).
#[local] Abbreviation absorb := (absorb JSON_parse JSON_stringify).
#[local] Abbreviation lookahead := (lookahead JSON_parse).
#[local] Abbreviation release := (release JSON_parse).
#[local] Abbreviation process_chunk := (process_chunk JSON_parse JSON_stringify).
#[local] Abbreviation read_chunks := (read_chunks JSON_parse JSON_stringify).
#[local] Abbreviation on_done := (on_done JSON_parse).
#[local] Abbreviation stored_line := (stored_line JSON_stringify).
#[local] Abbreviation entry_of := (entry_of JSON_stringify).

Lemma data_prefix x : startsWith (js "data:") (js "data: " ++ x) = true.
Proof. done. Qed.

Lemma stored_line_parses fin' line data :
  startsWith (js "data:") line = true ->
  parse_line line = Some data ->
  reparse_ok line = true ->
  startsWith (js "data:") (stored_line fin' line data) = true /\
  exists data',
    parse_line (stored_line fin' line data) = Some data' /\
    (is_Some (candidate_parts data) -> is_Some (candidate_parts data')) /\
    (forallb (fun p => negb (has_text p)) (default [] (candidate_parts data)) = true ->
     forallb (fun p => negb (has_text p)) (default [] (candidate_parts data')) = true).
Proof.
  intros Hs Hp Hr. unfold stored_line.
  destruct (candidate_parts data) as [ps|] eqn:Hps; [|split; [done|]; exists data; by rewrite Hps].
  destruct (rewrite_parts fin' ps) as [processed modified] eqn:Hrw.
  destruct modified; [|split; [done|]; exists data; by rewrite Hps].
  assert (Ha : exists data', assign_parts processed data = Some data' /\
                            candidate_parts data' = Some processed).
  { unfold assign_parts. rewrite Hps. by eexists. }
  destruct Ha as (data' & Ha & Hps'). rewrite Ha.
  split; [apply data_prefix|].
  unfold reparse_ok in Hr. rewrite Hs, Hp, Hps in Hr.
  cbn [forallb] in Hr. rewrite andb_true_r in Hr.
  apply andb_true_iff in Hr as [Ht Hf].
  assert (Hfin : (let '(processedParts, wasModified) := rewrite_parts fin' ps in
                  if wasModified
                  then match assign_parts processedParts data with
                       | Some data' =>
                           bool_decide (parse_line (js "data: " ++ JSON_stringify data')
                                        = Some data')
                       | None => true
                       end
                  else true) = true) by (destruct fin'; done).
  rewrite Hrw in Hfin. rewrite Ha in Hfin.
  apply bool_decide_eq_true in Hfin.
  exists data'. split; [exact Hfin|]. rewrite Hps'. split; [done|].
  intros Hno. pose proof (rewrite_parts_no_text fin' ps Hno) as H. by rewrite Hrw in H.
Qed.

Lemma entry_of_parses fin line data :
  startsWith (js "data:") line = true ->
  parse_line line = Some data ->
  reparse_ok line = true ->
  entry_parses (entry_of fin line data).
Proof.
  intros Hs Hp Hr. unfold entry_of. cbn zeta.
  set (parsed := parseParts (Some (default [] (candidate_parts data)))).
  set (tr := negb fin && isFormalResponseStarted (responseText parsed)).
  destruct (stored_line_parses (fin || tr) line data Hs Hp Hr) as (H1 & data' & H2 & H3 & _).
  split; [exact H1|]. exists data'. split; [exact H2|]. cbn.
  intros Htr. apply andb_true_iff in Htr as [_ Hst]. apply started_nonempty in Hst.
  split; [done|]. apply H3.
  destruct (candidate_parts data); [done|]. done.
Qed.

Lemma entry_of_inert fin line data :
  startsWith (js "data:") line = true ->
  parse_line line = Some data ->
  reparse_ok line = true ->
  (responseText (parseParts (Some (default [] (candidate_parts data)))) = [] ->
   hasThought (parseParts (Some (default [] (candidate_parts data)))) = false) ->
  entry_inert (entry_of fin line data).
Proof.
  intros Hs Hp Hr Hth. unfold entry_of, entry_inert. cbn zeta. cbn [lo_text rawLine].
  set (parsed := parseParts (Some (default [] (candidate_parts data)))) in *.
  set (tr := negb fin && isFormalResponseStarted (responseText parsed)).
  intros Htext data'' Hp''.
  destruct (stored_line_parses (fin || tr) line data Hs Hp Hr) as (_ & data' & H2 & _ & H4).
  rewrite H2 in Hp''. injection Hp'' as <-. apply H4.
  by apply (parse_fold_no_text _ _ (Hth Htext) Htext).
Qed.

Lemma parse_line_jsonStr line : parse_line line = JSON_parse (trim (drop 5 line)).
Proof. done. Qed.

(** [process_line] on an attempt that has seen no function call. *)
Lemma process_line_effect st line :
  passthroughMode st = false -> hasFunctionCallInStream st = false ->
  let st' := process_line st line in
  lineBuffer st' = lineBuffer st /\
  match line_effect (thoughtFinished st) line with
  | Keep =>
      passthroughMode st' = false /\ hasFunctionCallInStream st' = false /\
      textBuffer st' = textBuffer st /\ linesBuffer st' = linesBuffer st /\
      thoughtFinished st' = thoughtFinished st
  | EnterPassthrough => passthroughMode st' = true
  | Append e =>
      passthroughMode st' = false /\ hasFunctionCallInStream st' = false /\
      textBuffer st' = textBuffer st ++ lo_text e /\
      linesBuffer st' = linesBuffer st ++ [e] /\
      thoughtFinished st' = (thoughtFinished st || isTransitionLine e) /\
      (reparse_ok line = true -> entry_parses e /\ entry_inert e)
  end.
Proof.
  intros Hpt Hfc. cbn zeta. unfold process_line, line_effect.
  destruct (startsWith (js "data:") line) eqn:Hs; cbn [negb].
  2:{ destruct line; done. }
  destruct (trim (drop 5 line)) as [|c jsonStr] eqn:Hjson; [done|].
  destruct (JSON_parse (c :: jsonStr)) as [data|] eqn:Hparse; [|by cbn].
  assert (Hp : parse_line line = Some data) by (by rewrite parse_line_jsonStr, Hjson).
  cbn zeta.
  set (parsed := parseParts (Some (default [] (candidate_parts data)))).
  rewrite Hfc, Hpt, orb_false_r.
  destruct (hasThought parsed && bool_decide (responseText parsed = [])
            && negb (hasFunctionCall parsed)) eqn:Hskip.
  - apply andb_true_iff in Hskip as [_ Hnf].
    destruct (hasFunctionCall parsed) eqn:Hf; [done|]. by cbn.
  - destruct (hasFunctionCall parsed) eqn:Hf; cbn [andb negb]; [done|].
    cbn [lineBuffer passthroughMode hasFunctionCallInStream textBuffer linesBuffer
         thoughtFinished lo_text isTransitionLine].
    do 6 (split; [done|]). intros H. split.
    + apply (entry_of_parses (thoughtFinished st) line data Hs Hp H).
    + apply (entry_of_inert (thoughtFinished st) line data Hs Hp H).
      fold parsed. intros Htext. rewrite andb_true_r in Hskip.
      rewrite Htext in Hskip. by destruct (hasThought parsed).
Qed.

Lemma process_line_general st line :
  let st' := process_line st line in
  lineBuffer st' = lineBuffer st /\
  (passthroughMode st = true -> passthroughMode st' = true) /\
  (reparse_ok line = true -> Forall entry_parses (linesBuffer st) ->
   Forall entry_parses (linesBuffer st')) /\
  (forall t, process_line (set_lineBuffer t st) line = set_lineBuffer t st').
Proof.
  cbn zeta. unfold process_line.
  destruct (startsWith (js "data:") line) eqn:Hs; cbn [negb].
  2:{ destruct line; done. }
  destruct (trim (drop 5 line)) as [|c jsonStr] eqn:Hjson; [done|].
  destruct (JSON_parse (c :: jsonStr)) as [data|] eqn:Hparse; [|done].
  assert (Hp : parse_line line = Some data) by (by rewrite parse_line_jsonStr, Hjson).
  cbn zeta.
  set (parsed := parseParts (Some (default [] (candidate_parts data)))).
  destruct (hasThought parsed && bool_decide (responseText parsed = [])
            && negb (hasFunctionCall parsed)); [done|].
  cbn [set_lineBuffer passthroughMode hasFunctionCallInStream].
  destruct ((hasFunctionCall parsed || hasFunctionCallInStream st)
            && negb (passthroughMode st)) eqn:Hflush.
  - cbn [lineBuffer passthroughMode linesBuffer]. done.
  - cbn [lineBuffer passthroughMode linesBuffer].
    split; [done|]. split; [done|]. split; [|done].
    intros Hr Hq. apply Forall_app. split; [done|]. apply Forall_singleton.
    apply (entry_of_parses (thoughtFinished st) line data Hs Hp Hr).
Qed.

Lemma fold_general lines st :
  let st' := fold_left process_line lines st in
  lineBuffer st' = lineBuffer st /\
  (passthroughMode st = true -> passthroughMode st' = true) /\
  (Forall (fun l => reparse_ok l = true) lines -> Forall entry_parses (linesBuffer st) ->
   Forall entry_parses (linesBuffer st')) /\
  (forall t, fold_left process_line lines (set_lineBuffer t st) = set_lineBuffer t st').
Proof.
  revert st. induction lines as [|l lines IH]; intros st; [done|].
  cbn [fold_left]. cbn zeta.
  destruct (process_line_general st l) as (H1 & H2 & H3 & H4).
  destruct (IH (process_line st l)) as (G1 & G2 & G3 & G4).
  split; [congruence|]. split; [auto|]. split.
  - intros Hls Hq. pose proof (Forall_inv Hls) as Hl. apply Forall_inv_tail in Hls. auto.
  - intros t. rewrite H4. apply G4.
Qed.

Lemma texts_app q1 q2 : texts (q1 ++ q2) = texts q1 ++ texts q2.
Proof. unfold texts. by rewrite map_app, concat_app. Qed.

Lemma texts_cons e q : texts (e :: q) = lo_text e ++ texts q.
Proof. done. Qed.

(** A run of lines on an attempt that has seen no function call. *)
Lemma fold_absorb lines st :
  passthroughMode st = false -> hasFunctionCallInStream st = false ->
  Forall (fun l => reparse_ok l = true) lines ->
  let st' := fold_left process_line lines st in
  match absorb (thoughtFinished st) lines with
  | None => passthroughMode st' = true
  | Some (es, fin') =>
      passthroughMode st' = false /\ hasFunctionCallInStream st' = false /\
      textBuffer st' = textBuffer st ++ texts es /\
      linesBuffer st' = linesBuffer st ++ es /\
      thoughtFinished st' = fin' /\
      Forall entry_parses es /\ Forall entry_inert es
  end.
Proof.
  revert st. induction lines as [|l lines IH]; intros st Hpt Hfc Hls.
  - cbn. rewrite !app_nil_r. done.
  - pose proof (Forall_inv Hls) as Hl. apply Forall_inv_tail in Hls.
    cbn [fold_left absorb]. cbn zeta.
    destruct (process_line_effect st l Hpt Hfc) as [_ H].
    destruct (line_effect (thoughtFinished st) l) as [| |e].
    + destruct H as (H1 & H2 & H3 & H4 & H5).
      specialize (IH (process_line st l) H1 H2 Hls). cbn zeta in IH.
      rewrite H5, H3, H4 in IH. exact IH.
    + destruct (fold_general lines (process_line st l)) as (_ & G & _). by apply G.
    + destruct H as (H1 & H2 & H3 & H4 & H5 & H6).
      specialize (IH (process_line st l) H1 H2 Hls). cbn zeta in IH.
      rewrite H5 in IH.
      destruct (absorb (thoughtFinished st || isTransitionLine e) lines) as [[es fin']|];
        [|done].
      destruct IH as (I1 & I2 & I3 & I4 & I5 & I6 & I7).
      destruct (H6 Hl) as [P1 P2].
      rewrite I3, I4, H3, H4, texts_cons, <- !app_assoc. cbn [app].
      repeat split; try done; by apply Forall_cons.
Qed.

(** **** The release loop *)

Lemma greedy_split safe fwd q :
  exists p, q = p ++ snd (greedy safe fwd q) /\
            fst (greedy safe fwd q) = fwd + length (texts p) /\
            fwd + length (texts p) <= Nat.max fwd safe.
Proof.
  revert fwd. induction q as [|e q IH]; intros fwd.
  - exists []. cbn. split; [done|]. split; lia.
  - cbn [greedy]. destruct (fwd + length (lo_text e) <=? safe) eqn:Hle.
    + apply Nat.leb_le in Hle.
      destruct (IH (fwd + length (lo_text e))) as (p & Hp & Hf & Hb).
      exists (e :: p). cbn [app]. rewrite <- Hp, Hf, texts_cons, length_app.
      split; [done|]. split; lia.
    + exists []. cbn. split; [done|]. split; lia.
Qed.

Lemma greedy_skip safe fwd p q :
  fwd + length (texts p) <= safe ->
  greedy safe fwd (p ++ q) = greedy safe (fwd + length (texts p)) q.
Proof.
  revert fwd. induction p as [|e p IH]; intros fwd Hle.
  - cbn. by rewrite Nat.add_0_r.
  - rewrite texts_cons, length_app in Hle. cbn [app greedy].
    rewrite (proj2 (Nat.leb_le _ _)) by lia.
    rewrite IH by lia. rewrite texts_cons, length_app. f_equal. lia.
Qed.

Lemma greedy_shift k safe fwd q :
  greedy (safe + k) (fwd + k) q =
    (fst (greedy safe fwd q) + k, snd (greedy safe fwd q)).
Proof.
  revert fwd. induction q as [|e q IH]; intros fwd; [done|].
  cbn [greedy].
  replace (fwd + k + length (lo_text e) <=? safe + k)
    with (fwd + length (lo_text e) <=? safe)
    by (destruct (fwd + length (lo_text e) <=? safe) eqn:E; symmetry;
        [apply Nat.leb_le; apply Nat.leb_le in E | apply Nat.leb_gt; apply Nat.leb_gt in E];
        lia).
  destruct (fwd + length (lo_text e) <=? safe); [|done].
  replace (fwd + k + length (lo_text e)) with (fwd + length (lo_text e) + k) by lia.
  apply IH.
Qed.

Lemma greedy_zero safe q :
  exists zs, q = zs ++ snd (greedy safe safe q) /\
             fst (greedy safe safe q) = safe /\
             forallb zero_text zs = true.
Proof.
  induction q as [|e q (zs & Hq & Hf & Hz)].
  - by exists [].
  - cbn [greedy]. destruct (safe + length (lo_text e) <=? safe) eqn:Hle.
    + apply Nat.leb_le in Hle.
      assert (Hlen : length (lo_text e) = 0) by lia.
      rewrite Hlen, Nat.add_0_r. exists (e :: zs). cbn [app forallb].
      rewrite <- Hq, Hz. split; [done|]. split; [done|].
      unfold zero_text. destruct (lo_text e); [done | discriminate Hlen].
    + by exists [].
Qed.

Lemma texts_zero zs : forallb zero_text zs = true -> texts zs = [].
Proof.
  induction zs as [|z zs IH]; [done|]. cbn [forallb].
  intros [Hz Hzs]%andb_true_iff. rewrite texts_cons, IH by done.
  unfold zero_text in Hz. apply bool_decide_eq_true in Hz. by rewrite Hz.
Qed.

Lemma release_greedy q st safe fwd :
  Forall entry_parses q ->
  exists st',
    release safe fwd q st = (Continue st', fst (greedy safe fwd q)) /\
    linesBuffer st' = snd (greedy safe fwd q) /\
    passthroughMode st' = passthroughMode st /\
    hasFunctionCallInStream st' = hasFunctionCallInStream st /\
    lineBuffer st' = lineBuffer st /\
    textBuffer st' = textBuffer st /\
    thoughtFinished st' = thoughtFinished st.
Proof.
  revert st fwd. induction q as [|e q IH]; intros st fwd Hq.
  - eexists. split; [reflexivity|]. done.
  - pose proof (Forall_inv Hq) as He. apply Forall_inv_tail in Hq.
    cbn [release greedy].
    destruct (fwd + length (lo_text e) <=? safe).
    2:{ eexists. split; [reflexivity|]. done. }
    destruct (isTransitionLine e) eqn:Htr.
    + destruct He as (_ & data & Hp & Hc). destruct (Hc Htr) as [_ [ps Hps]].
      rewrite Hp. cbn [mbind option_bind]. unfold assign_parts. rewrite Hps.
      edestruct IH as (st' & H1 & H2); [exact Hq|].
      eexists. split; [exact H1|]. exact H2.
    + edestruct IH as (st' & H1 & H2); [exact Hq|].
      eexists. split; [exact H1|]. exact H2.
Qed.

Lemma lookahead_spec st :
  Forall entry_parses (linesBuffer st) ->
  exists st',
    lookahead st = Continue st' /\
    passthroughMode st' = passthroughMode st /\
    hasFunctionCallInStream st' = hasFunctionCallInStream st /\
    lineBuffer st' = lineBuffer st /\
    thoughtFinished st' = thoughtFinished st /\
    if LOOKAHEAD_SIZE <? length (textBuffer st)
    then linesBuffer st' =
           snd (greedy (length (textBuffer st) - LOOKAHEAD_SIZE) 0 (linesBuffer st)) /\
         textBuffer st' =
           drop (fst (greedy (length (textBuffer st) - LOOKAHEAD_SIZE) 0 (linesBuffer st)))
                (textBuffer st)
    else linesBuffer st' = linesBuffer st /\ textBuffer st' = textBuffer st.
Proof.
  intros Hq. unfold lookahead.
  destruct (LOOKAHEAD_SIZE <? length (textBuffer st)).
  - destruct (release_greedy (linesBuffer st) st
                (length (textBuffer st) - LOOKAHEAD_SIZE) 0 Hq)
      as (st' & -> & H1 & H2 & H3 & H4 & H5 & H6).
    eexists. split; [reflexivity|]. cbn. rewrite H5. done.
  - exists st. done.
Qed.

End ChunkProofs.

(** *** Chunks against a single delivery *)

Section ChunkProofs2.

Variable JSON_parse : jstr -> option ResponseJson.
Variable JSON_stringify : ResponseJson -> jstr.

#[local] Abbreviation process_line := (process_line JSON_parse JSON_stringify).
#[local] Abbreviation reparse_ok := (reparse_ok JSON_parse JSON_stringify).
#[local] Abbreviation entry_parses := (entry_parses JSON_parse).
#[local] Abbreviation entry_inert := (entry_inert JSON_parse).
#[local] Abbreviation buffers_ok := (buffers_ok JSON_parse).
#[local] Abbreviation parse_line := (parse_line JSON_parse).
#[local] Abbreviation absorb := (absorb JSON_parse JSON_stringify).
#[local] Abbreviation lookahead := (lookahead JSON_parse).
#[local] Abbreviation process_chunk := (process_chunk JSON_parse JSON_stringify).
#[local] Abbreviation read_chunks := (read_chunks JSON_parse JSON_stringify).
#[local] Abbreviation on_done := (on_done JSON_parse).
#[local] Abbreviation all_reparse := (all_reparse JSON_parse JSON_stringify).
#[local] Abbreviation gather := (gather JSON_parse).

Lemma after_lookahead_split q :
  exists p, q = p ++ after_lookahead q /\
            (p = [] \/ (LOOKAHEAD_SIZE < length (texts q) /\
                        length (texts p) + LOOKAHEAD_SIZE <= length (texts q))).
Proof.
  unfold after_lookahead. destruct (LOOKAHEAD_SIZE <? length (texts q)) eqn:Hf.
  - apply Nat.ltb_lt in Hf.
    destruct (greedy_split (length (texts q) - LOOKAHEAD_SIZE) 0 q) as (p & Hp & _ & Hb).
    exists p. split; [done|]. right. lia.
  - exists []. split; [done | by left].
Qed.

Lemma lookahead_ok st :
  buffers_ok st ->
  exists st',
    lookahead st = Continue st' /\
    buffers_ok st' /\
    passthroughMode st' = passthroughMode st /\
    lineBuffer st' = lineBuffer st /\
    thoughtFinished st' = thoughtFinished st /\
    (passthroughMode st = false -> linesBuffer st' = after_lookahead (linesBuffer st)).
Proof.
  intros [Hq Halive].
  destruct (lookahead_spec JSON_parse st Hq) as (st' & Hl & Hpt & Hfc & Hlb & Hfin & Hbuf).
  exists st'. split; [done|].
  assert (Hsuffix : exists p, linesBuffer st = p ++ linesBuffer st' /\
                              textBuffer st' = drop (length (texts p)) (textBuffer st) /\
                              (passthroughMode st = false ->
                               linesBuffer st' = after_lookahead (linesBuffer st))).
  { unfold after_lookahead.
    destruct (LOOKAHEAD_SIZE <? length (textBuffer st)) eqn:Hfire.
    - destruct Hbuf as [Hb1 Hb2].
      destruct (greedy_split (length (textBuffer st) - LOOKAHEAD_SIZE) 0 (linesBuffer st))
        as (p & Hp & Hf & _).
      exists p. rewrite Hb1, Hb2, Hf. split; [done|]. split; [done|].
      intros Ha. destruct (Halive Ha) as (_ & _ & <-). by rewrite Hfire.
    - destruct Hbuf as [Hb1 Hb2]. exists []. rewrite Hb1, Hb2. split; [done|].
      split; [done|]. intros Ha. destruct (Halive Ha) as (_ & _ & <-). by rewrite Hfire. }
  destruct Hsuffix as (p & Hp & Htb & Hafter).
  split; [|done].
  split.
  - rewrite Hp in Hq. by apply Forall_app in Hq as [_ ?].
  - rewrite Hpt. intros Ha. destruct (Halive Ha) as (H1 & H2 & H3).
    split; [congruence|]. split.
    + rewrite Hp in H2. by apply Forall_app in H2 as [_ ?].
    + rewrite Htb, H3, Hp, texts_app, drop_app_length. done.
Qed.

Lemma buffers_ok_write w st : buffers_ok st -> buffers_ok (write w st).
Proof. done. Qed.

Lemma buffers_ok_set_lineBuffer t st : buffers_ok st -> buffers_ok (set_lineBuffer t st).
Proof. done. Qed.

Lemma removelast_app_ne {A} (l1 l2 : list A) :
  l2 <> [] -> removelast (l1 ++ l2) = l1 ++ removelast l2.
Proof. intros. by apply removelast_app. Qed.

Lemma last_app_ne {A} (l1 l2 : list A) :
  l2 <> [] -> list.last (l1 ++ l2) = list.last l2.
Proof.
  intros H. destruct (exists_last H) as (l & x & ->).
  by rewrite app_assoc, !last_snoc.
Qed.

Lemma lines_of_app x y :
  lines_of (x ++ y) =
    lines_of x ++ lines_of (default [] (list.last (regex_split event_sep_re x)) ++ y) /\
  list.last (regex_split event_sep_re (x ++ y)) =
    list.last (regex_split event_sep_re
                 (default [] (list.last (regex_split event_sep_re x)) ++ y)).
Proof.
  unfold lines_of. rewrite regex_split_app.
  pose proof (regex_split_nonempty
                (default [] (list.last (regex_split event_sep_re x)) ++ y)) as Hne.
  rewrite removelast_app_ne, last_app_ne by done. done.
Qed.

(** One chunk keeps the invariant, and never throws. *)
Lemma process_chunk_ok st c :
  buffers_ok st ->
  (passthroughMode st = false -> all_reparse (lines_of (lineBuffer st ++ c))) ->
  exists st',
    process_chunk st c = Continue st' /\ buffers_ok st' /\
    (passthroughMode st = true -> passthroughMode st' = true) /\
    (passthroughMode st' = false ->
     lineBuffer st' = default [] (list.last (regex_split event_sep_re (lineBuffer st ++ c)))).
Proof.
  intros Hok Hlines. unfold process_chunk.
  destruct (passthroughMode st) eqn:Hpt.
  - eexists. split; [reflexivity|]. split; [by apply buffers_ok_write|].
    split; [done|]. cbn. congruence.
  - specialize (Hlines eq_refl).
    set (pieces := regex_split event_sep_re (lineBuffer st ++ c)) in *.
    set (st0 := set_lineBuffer (default [] (list.last pieces)) st).
    assert (Hok0 : buffers_ok st0) by (by apply buffers_ok_set_lineBuffer).
    destruct (fold_general JSON_parse JSON_stringify (removelast pieces) st0)
      as (Hlb & _ & Hparses & _).
    assert (Hok1 : buffers_ok (fold_left process_line (removelast pieces) st0)).
    { split; [apply Hparses; [exact Hlines | apply Hok0]|].
      intros Ha. destruct Hok0 as [Hq0 Halive0]. destruct (Halive0 Hpt) as (F1 & F2 & F3).
      pose proof (fold_absorb JSON_parse JSON_stringify (removelast pieces) st0 Hpt F1 Hlines)
        as Habs. cbn zeta in Habs.
      destruct (absorb (thoughtFinished st0) (removelast pieces)) as [[es fin']|];
        [|congruence].
      destruct Habs as (A1 & A2 & A3 & A4 & A5 & A6 & A7).
      split; [done|]. split.
      - rewrite A4. apply Forall_app. done.
      - rewrite A3, A4, F3, texts_app. done. }
    destruct (lookahead_ok _ Hok1) as (st' & Hl & Hok' & Hpt' & Hlb' & _).
    exists st'. split; [done|]. split; [done|]. split; [done|].
    intros _. rewrite Hlb', Hlb. done.
Qed.

Lemma after_lookahead_merge q es :
  exists zs,
    after_lookahead (after_lookahead q ++ es) = zs ++ after_lookahead (q ++ es) /\
    forallb zero_text zs = true /\
    (zs <> [] -> LOOKAHEAD_SIZE <= length (texts (after_lookahead (q ++ es)))).
Proof.
  destruct (after_lookahead_split q) as (p & Hq & Hp).
  set (qA := after_lookahead q) in *. set (rest := qA ++ es).
  assert (Hqe : q ++ es = p ++ rest) by (unfold rest; by rewrite app_assoc, <- Hq).
  rewrite Hqe.
  destruct Hp as [-> | [Hfire Hle]]; [by exists []|].
  assert (Hlen : length (texts q) = length (texts p) + length (texts qA))
    by (by rewrite Hq at 1; rewrite texts_app, length_app).
  assert (HT : length (texts (p ++ rest)) = length (texts p) + length (texts rest))
    by (by rewrite texts_app, length_app).
  assert (HT' : length (texts qA) <= length (texts rest))
    by (unfold rest; rewrite texts_app, length_app; lia).
  assert (Hc : after_lookahead (p ++ rest) =
               snd (greedy (length (texts p) + length (texts rest) - LOOKAHEAD_SIZE)
                           (0 + length (texts p)) rest)).
  { unfold after_lookahead. rewrite HT.
    rewrite (proj2 (Nat.ltb_lt _ _)) by lia.
    by rewrite (greedy_skip _ 0 p rest) by lia. }
  rewrite Hc. clear Hc.
  unfold after_lookahead. destruct (LOOKAHEAD_SIZE <? length (texts rest)) eqn:Hf.
  - apply Nat.ltb_lt in Hf. exists []. split; [|done]. cbn [app].
    pose proof (greedy_shift (length (texts p)) (length (texts rest) - LOOKAHEAD_SIZE) 0 rest)
      as Hs.
    replace (length (texts rest) - LOOKAHEAD_SIZE + length (texts p))
      with (length (texts p) + length (texts rest) - LOOKAHEAD_SIZE) in Hs by lia.
    by rewrite Hs.
  - apply Nat.ltb_ge in Hf.
    replace (length (texts p) + length (texts rest) - LOOKAHEAD_SIZE)
      with (0 + length (texts p)) by lia.
    generalize (0 + length (texts p)). intros k.
    destruct (greedy_zero k rest) as (zs & Hz & _ & Hzero).
    exists zs. split; [exact Hz|]. split; [done|]. intros _.
    apply (f_equal texts) in Hz. rewrite texts_app, (texts_zero zs Hzero) in Hz.
    cbn [app] in Hz. apply (f_equal length) in Hz. lia.
Qed.

Lemma absorb_app fin l1 l2 :
  absorb fin (l1 ++ l2) =
    match absorb fin l1 with
    | None => None
    | Some (es1, fin1) =>
        match absorb fin1 l2 with
        | None => None
        | Some (es2, fin2) => Some (es1 ++ es2, fin2)
        end
    end.
Proof.
  revert fin. induction l1 as [|l l1 IH]; intros fin.
  - cbn. by destruct (absorb fin l2) as [[? ?]|].
  - cbn [app absorb]. destruct (line_effect JSON_parse JSON_stringify fin l) as [| |e].
    + apply IH.
    + done.
    + rewrite IH. destruct (absorb (fin || isTransitionLine e) l1) as [[es1 fin1]|]; [|done].
      by destruct (absorb fin1 l2) as [[? ?]|].
Qed.

(** One chunk, on an attempt that is not in passthrough mode. *)
Lemma process_chunk_alive st c :
  buffers_ok st -> passthroughMode st = false ->
  all_reparse (lines_of (lineBuffer st ++ c)) ->
  exists st',
    process_chunk st c = Continue st' /\
    match absorb (thoughtFinished st) (lines_of (lineBuffer st ++ c)) with
    | None => passthroughMode st' = true
    | Some (es, fin') =>
        passthroughMode st' = false /\
        thoughtFinished st' = fin' /\
        linesBuffer st' = after_lookahead (linesBuffer st ++ es)
    end.
Proof.
  intros Hok Hpt Hlines. unfold process_chunk. rewrite Hpt.
  fold (lines_of (lineBuffer st ++ c)).
  set (lines := lines_of (lineBuffer st ++ c)) in *.
  set (st0 := set_lineBuffer _ st).
  destruct Hok as [Hq Halive]. destruct (Halive Hpt) as (F1 & F2 & F3).
  pose proof (fold_absorb JSON_parse JSON_stringify lines st0 Hpt F1 Hlines) as Habs.
  cbn zeta in Habs.
  destruct (fold_general JSON_parse JSON_stringify lines st0) as (_ & _ & Hparses & _).
  specialize (Hparses Hlines Hq).
  change (thoughtFinished st0) with (thoughtFinished st) in Habs.
  destruct (absorb (thoughtFinished st) lines) as [[es fin']|].
  - destruct Habs as (A1 & A2 & A3 & A4 & A5 & A6 & A7).
    assert (Hok1 : buffers_ok (fold_left process_line lines st0)).
    { split; [done|]. intros _. split; [done|]. split.
      - rewrite A4. apply Forall_app. done.
      - rewrite A3, A4, texts_app. cbn. by rewrite F3. }
    destruct (lookahead_ok _ Hok1) as (st' & Hl & _ & Hpt' & _ & Hfin' & Hafter).
    exists st'. split; [done|]. rewrite Hpt', Hfin', (Hafter A1), A4. done.
  - assert (Hok1 : buffers_ok (fold_left process_line lines st0)).
    { split; [done|]. intros Ha. congruence. }
    destruct (lookahead_ok _ Hok1) as (st' & Hl & _ & Hpt' & _).
    exists st'. split; [done|]. congruence.
Qed.

Lemma same_buffers_refl st : same_buffers st st.
Proof.
  destruct (passthroughMode st) eqn:Hpt; [by left | right].
  do 4 (split; [done|]). by exists [].
Qed.

Lemma buffers_text st :
  buffers_ok st -> passthroughMode st = false -> textBuffer st = texts (linesBuffer st).
Proof. intros [_ H] Hpt. by destruct (H Hpt) as (_ & _ & ?). Qed.

Lemma same_buffers_text m s :
  buffers_ok m -> buffers_ok s -> same_buffers m s ->
  passthroughMode m = false -> textBuffer m = textBuffer s.
Proof.
  intros Hm Hs [[Hpt _] | (Hpm & Hps & _ & _ & zs & Hq & Hz & _)] Ha; [congruence|].
  rewrite (buffers_text m Hm Hpm), (buffers_text s Hs Hps), Hq, texts_app.
  by rewrite (texts_zero zs Hz).
Qed.

Lemma same_buffers_trans a b c :
  buffers_ok b -> buffers_ok c ->
  same_buffers a b -> same_buffers b c -> same_buffers a c.
Proof.
  intros Hb Hc Hab Hbc.
  pose proof (same_buffers_text b c Hb Hc Hbc) as Htext.
  destruct Hab as [[Ha1 Hb1] | (Ha1 & Hb1 & Hlb1 & Hfin1 & zs1 & Hq1 & Hz1 & Hn1)];
    destruct Hbc as [[Hb2 Hc2] | (Hb2 & Hc2 & Hlb2 & Hfin2 & zs2 & Hq2 & Hz2 & Hn2)];
    try congruence; [by left|].
  right. do 2 (split; [done|]). split; [congruence|]. split; [congruence|].
  exists (zs1 ++ zs2). rewrite Hq1, Hq2, app_assoc. split; [done|]. split.
  - rewrite forallb_app. by rewrite Hz1, Hz2.
  - intros Hne. destruct zs2 as [|z zs2].
    + rewrite app_nil_r in Hne. rewrite <- (Htext Hb2). by apply Hn1.
    + by apply Hn2.
Qed.

(** Reading two chunks one after the other, or at once. *)
Lemma process_chunk_merge st c1 c2 :
  buffers_ok st ->
  (passthroughMode st = false -> all_reparse (lines_of (lineBuffer st ++ c1 ++ c2))) ->
  exists a b c,
    process_chunk st c1 = Continue a /\
    process_chunk a c2 = Continue b /\
    process_chunk st (c1 ++ c2) = Continue c /\
    buffers_ok b /\ buffers_ok c /\ same_buffers b c.
Proof.
  intros Hok Hlines.
  destruct (lines_of_app (lineBuffer st ++ c1) c2) as [Hsplit Hlast].
  rewrite <- app_assoc in Hsplit, Hlast.
  set (rem1 := default [] (list.last (regex_split event_sep_re (lineBuffer st ++ c1)))) in *.
  assert (Hl1 : passthroughMode st = false -> all_reparse (lines_of (lineBuffer st ++ c1))).
  { intros Ha. specialize (Hlines Ha). rewrite Hsplit in Hlines.
    unfold all_reparse in *. by apply Forall_app in Hlines as [? _]. }
  assert (Hl2 : passthroughMode st = false -> all_reparse (lines_of (rem1 ++ c2))).
  { intros Ha. specialize (Hlines Ha). rewrite Hsplit in Hlines.
    unfold all_reparse in *. by apply Forall_app in Hlines as [_ ?]. }
  destruct (process_chunk_ok st c1 Hok Hl1) as (a & Ha & Hoka & Hpta & Hlba).
  assert (Hla : passthroughMode a = false -> all_reparse (lines_of (lineBuffer a ++ c2))).
  { intros Hpa. rewrite (Hlba Hpa). fold rem1. apply Hl2.
    destruct (passthroughMode st); [|done]. specialize (Hpta eq_refl). congruence. }
  destruct (process_chunk_ok a c2 Hoka Hla) as (b & Hb & Hokb & Hptb & Hlbb).
  destruct (process_chunk_ok st (c1 ++ c2) Hok Hlines) as (c & Hc & Hokc & Hptc & Hlbc).
  exists a, b, c. do 5 (split; [done|]).
  destruct (passthroughMode st) eqn:Hpt.
  { left. auto. }
  destruct (process_chunk_alive st c1 Hok Hpt (Hl1 eq_refl)) as (a' & Ha' & Hqa).
  rewrite Ha in Ha'. injection Ha' as <-.
  destruct (process_chunk_alive st (c1 ++ c2) Hok Hpt (Hlines eq_refl)) as (c' & Hc' & Hqc).
  rewrite Hc in Hc'. injection Hc' as <-.
  rewrite Hsplit, absorb_app in Hqc.
  destruct (absorb (thoughtFinished st) (lines_of (lineBuffer st ++ c1)))
    as [[es1 fin1]|].
  2:{ left. auto. }
  destruct Hqa as (Hpa & Hfa & Hqa).
  destruct (process_chunk_alive a c2 Hoka Hpa (Hla Hpa)) as (b' & Hb' & Hqb).
  rewrite Hb in Hb'. injection Hb' as <-.
  rewrite (Hlba Hpa), Hfa in Hqb. fold rem1 in Hqb.
  destruct (absorb fin1 (lines_of (rem1 ++ c2))) as [[es2 fin2]|].
  2:{ left. auto. }
  destruct Hqb as (Hpb & Hfb & Hqb). destruct Hqc as (Hpc & Hfc & Hqc).
  right. do 2 (split; [done|]). split.
  { rewrite (Hlbb Hpb), (Hlbc Hpc), (Hlba Hpa). fold rem1. by rewrite Hlast. }
  split; [congruence|].
  destruct (after_lookahead_merge (linesBuffer st ++ es1) es2) as (zs & Hz1 & Hz2 & Hz3).
  exists zs. rewrite Hqb, Hqa, Hqc, app_assoc. split; [done|]. split; [done|].
  intros Hne. rewrite (buffers_text c Hokc Hpc), Hqc, app_assoc. by apply Hz3.
Qed.

(** **** The end of the stream *)

Lemma buffered_texts_gather q : buffered_texts JSON_parse q = fold_left gather q ([], []).
Proof. reflexivity. Qed.

Lemma gather_no_text (ps : list Part) (acc : jstr * jstr) :
  forallb (fun p => negb (has_text p)) ps = true ->
  fold_left
    (fun '(t, r) part =>
       if is_thought part && has_text part then (t ++ text_of part, r)
       else if negb (is_thought part) && has_text part
            then (t, r ++ text_of part)
            else (t, r)) ps acc = acc.
Proof.
  revert acc. induction ps as [|p ps IH]; intros acc; [done|]. cbn [forallb fold_left].
  intros [Hp Hps]%andb_true_iff. apply negb_true_iff in Hp.
  destruct acc as [t r]. rewrite Hp, !andb_false_r. by apply IH.
Qed.

Lemma gather_inert zs acc :
  Forall entry_inert zs -> forallb zero_text zs = true -> fold_left gather zs acc = acc.
Proof.
  revert acc. induction zs as [|z zs IH]; intros acc Hi Hz; [done|].
  pose proof (Forall_inv Hi) as Hiz. apply Forall_inv_tail in Hi.
  cbn [forallb] in Hz. apply andb_true_iff in Hz as [Hz Hzs].
  cbn [fold_left]. rewrite <- (IH acc Hi Hzs) at 2. f_equal.
  destruct acc as [t r]. unfold gather.
  destruct (startsWith (js "data:") (rawLine z)); [|done].
  destruct (parse_line (rawLine z)) as [data|] eqn:Hp; [|done].
  apply gather_no_text. apply (Hiz (bool_decide_eq_true_1 _ Hz) data Hp).
Qed.

Lemma last_payload_app a b :
  last_payload JSON_parse (a ++ b) =
    match last_payload JSON_parse b with
    | Some data => Some data
    | None => last_payload JSON_parse a
    end.
Proof.
  induction a as [|x a IH]; cbn [app last_payload].
  - by destruct (last_payload JSON_parse b).
  - rewrite IH. by destruct (last_payload JSON_parse b).
Qed.

Lemma last_payload_some q :
  q <> [] -> Forall entry_parses q -> is_Some (last_payload JSON_parse q).
Proof.
  induction q as [|x q IH]; [done|]. intros _ Hq.
  pose proof (Forall_inv Hq) as (Hs & data & Hp & _). apply Forall_inv_tail in Hq.
  cbn [last_payload]. destruct (last_payload JSON_parse q); [done|].
  rewrite Hs. fold (parse_line (rawLine x)). rewrite Hp. done.
Qed.

Lemma on_done_same m s :
  buffers_ok m -> buffers_ok s -> same_buffers m s ->
  final_event (on_done m) = final_event (on_done s).
Proof.
  intros Hm Hs Hsame. pose proof (same_buffers_text m s Hm Hs Hsame) as Htext.
  destruct Hsame as [[Hpm Hps] | (Hpm & Hps & _ & Hfin & zs & Hq & Hz & Hne)].
  { unfold on_done. by rewrite Hpm, Hps. }
  unfold on_done. rewrite Hpm, Hps, Hfin, (Htext Hpm).
  destruct (thoughtFinished s && isResponseComplete (textBuffer s)) eqn:Hcomplete; [|done].
  destruct Hm as [_ Hma]. destruct (Hma Hpm) as (_ & Hinert & _).
  rewrite Hq in Hinert. apply Forall_app in Hinert as [Hinert _].
  rewrite !buffered_texts_gather, Hq, fold_left_app, (gather_inert zs _ Hinert Hz).
  rewrite last_payload_app.
  destruct zs as [|z zs]; [by destruct (last_payload JSON_parse (linesBuffer s))|].
  assert (Hqs : linesBuffer s <> []).
  { intros Hnil. specialize (Hne ltac:(done)).
    rewrite (buffers_text s Hs Hps), Hnil in Hne. cbn in Hne. unfold LOOKAHEAD_SIZE in Hne.
    cbn in Hne. lia. }
  destruct Hs as [Hsq _].
  destruct (last_payload_some _ Hqs Hsq) as [data ->]. done.
Qed.

Lemma chunks_merge cs :
  forall c st,
    buffers_ok st ->
    (passthroughMode st = false ->
     all_reparse (lines_of (lineBuffer st ++ c ++ concat cs))) ->
    exists m s,
      read_chunks st (c :: cs) = Continue m /\
      process_chunk st (c ++ concat cs) = Continue s /\
      buffers_ok m /\ buffers_ok s /\ same_buffers m s.
Proof.
  induction cs as [|c' cs IH]; intros c st Hok Hlines.
  - cbn [concat] in *. rewrite app_nil_r in *.
    destruct (process_chunk_ok st c Hok Hlines) as (st' & Hp & Hok' & _).
    exists st', st'. cbn [read_chunks]. rewrite Hp.
    do 4 (split; [done|]). apply same_buffers_refl.
  - cbn [concat] in *.
    destruct (process_chunk_merge st c (c' ++ concat cs) Hok Hlines)
      as (a & b & d & Ha & Hb & Hd & Hokb & Hokd & Hbd).
    destruct (lines_of_app (lineBuffer st ++ c) (c' ++ concat cs)) as [Hsplit _].
    rewrite <- app_assoc in Hsplit.
    assert (Hl1 : passthroughMode st = false -> all_reparse (lines_of (lineBuffer st ++ c))).
    { intros Hpt. specialize (Hlines Hpt). rewrite Hsplit in Hlines.
      unfold all_reparse in *. by apply Forall_app in Hlines as [? _]. }
    destruct (process_chunk_ok st c Hok Hl1) as (a' & Ha' & Hoka & Hpta & Hlba).
    rewrite Ha in Ha'. injection Ha' as <-.
    assert (Hla : passthroughMode a = false ->
                  all_reparse (lines_of (lineBuffer a ++ c' ++ concat cs))).
    { intros Hpa. rewrite (Hlba Hpa).
      destruct (passthroughMode st) eqn:Hpt; [specialize (Hpta eq_refl); congruence|].
      specialize (Hlines eq_refl). rewrite Hsplit in Hlines.
      unfold all_reparse in *. by apply Forall_app in Hlines as [_ ?]. }
    destruct (IH c' a Hoka Hla) as (m & b' & Hm & Hb' & Hokm & _ & Hmb).
    rewrite Hb in Hb'. injection Hb' as <-.
    exists m, d. cbn [read_chunks]. rewrite Ha.
    split; [exact Hm|]. split; [exact Hd|]. split; [done|]. split; [done|].
    by apply (same_buffers_trans m b d).
Qed.

Lemma attempt_start_ok seed fin out : buffers_ok (attempt_start seed fin out).
Proof. split; [constructor|]. intros _. split; [done|]. split; [constructor | done]. Qed.

Lemma all_reparse_stream s : stream_reparses JSON_parse JSON_stringify s = true ->
                             all_reparse (lines_of s).
Proof.
  unfold stream_reparses, all_reparse. rewrite forallb_forall, List.Forall_forall. done.
Qed.

End ChunkProofs2.

Lemma run_attempt_continue JSON_parse JSON_stringify st chunks m :
  read_chunks JSON_parse JSON_stringify st chunks = Continue m ->
  fst (run_attempt JSON_parse JSON_stringify st chunks) = on_done JSON_parse m.
Proof. unfold run_attempt. by intros ->. Qed.


(** *** Examples of streams; function calls *)

Example demo_stream_completes :
  let st := attempt_start (js "Here's a") false [] in
  let '(e, st') := run_attempt demo_parse demo_stringify st demo_chunks in
  e = Completed
        {| candidate_parts := Some [text_part (js " is 42.")];
           content_role := Some (js "model"); finishReason := Some (js "STOP");
           index := Some 0%Z; metadata := None |}
  /\ written st' =
       [ WData (seed_payload (js "Here's a"));
         WRaw (demo_line "{'text':'Let me think.','thought':true}" ++ nn);
         WData (demo_event [text_part (js "The answer")]) ].
Proof. vm_compute. split; reflexivity. Qed.


(** In passthrough mode every chunk is written as it comes and the attempt
    ends by closing the stream. *)
Lemma passthrough_forwards parse stringify (chunks : list jstr) : forall st,
  passthroughMode st = true ->
  run_attempt parse stringify st chunks =
    (Closed, fold_left (fun st chunk => write (WRaw chunk) st) chunks st).
Proof.
  unfold run_attempt.
  induction chunks as [|c cs IH]; intros st Hp.
  - cbn. unfold on_done. by rewrite Hp.
  - cbn [read_chunks fold_left]. unfold process_chunk. rewrite Hp.
    by apply IH.
Qed.

(** The first event with a function call switches to passthrough mode:
    the buffered events are written as stored, then the event itself. *)
Lemma function_call_flushes parse stringify st line data :
  startsWith (js "data:") line = true ->
  trim (drop 5 line) <> [] ->
  parse_line parse line = Some data ->
  hasFunctionCall (parseParts (Some (default [] (candidate_parts data)))) = true ->
  passthroughMode st = false ->
  let st' := process_line parse stringify st line in
  passthroughMode st' = true /\ linesBuffer st' = [] /\
  written st' =
    written st ++ map (fun lineObj => WRaw (rawLine lineObj ++ nn)) (linesBuffer st)
    ++ [WRaw (line ++ nn)].
Proof.
  intros Hs Hne Hp Hfc Hpass. unfold process_line, parse_line in *.
  rewrite Hs. cbn [negb]. destruct (trim (drop 5 line)) as [|c j]; [done|].
  rewrite Hp. cbv zeta. rewrite Hfc, Hpass. cbn [negb andb orb].
  rewrite andb_false_r. done.
Qed.

(** C4 fails in the code.  The engine does write the buffered events and
    the function-call event, forwards the chunks that come later and makes
    no further upstream call; but what follows the function-call event in
    its own chunk is not forwarded.  Two responses of two events, a
    function call and a text: when one chunk holds both, the text event is
    never written; when the chunk ends inside the text event, only the rest
    of its bytes is written. *)
Theorem function_call_event_lost :
  (let upstream : StreamUpstream := fun _ _ => StreamOk [demo_call_chunk] in
   let out := handleStreamingRequest demo_parse demo_stringify (demo_config 3) upstream
                (demo_request ":streamGenerateContent") in
   (writes <$> out) =
     Some [ WData (seed_payload (js "Here's a"));
            WRaw (demo_line "{'functionCall':{'name':'get_weather','args':{}}}" ++ nn) ]
   /\ (length <$> (stream_sent <$> out)) = Some 1%nat)
  /\
  (let upstream : StreamUpstream := fun _ _ => StreamOk demo_call_chunks in
   let out := handleStreamingRequest demo_parse demo_stringify (demo_config 3) upstream
                (demo_request ":streamGenerateContent") in
   (writes <$> out) =
     Some [ WData (seed_payload (js "Here's a"));
            WRaw (demo_line "{'functionCall':{'name':'get_weather','args':{}}}" ++ nn);
            WRaw (drop 30 (demo_line "{'text':'Calling the tool.'}") ++ nn) ]
   /\ (length <$> (stream_sent <$> out)) = Some 1%nat).
Proof. vm_compute. repeat split; reflexivity. Qed.

(** *** Examples of non-streaming requests *)


Lemma exhausted_retries_best_effort_witness :
  handleNonStreamingRequest (demo_config 0) (fun _ _ => FetchOk demo_truncated)
    (demo_request ":generateContent") =
    {| response :=
         JsonResponse 200
           {| candidate_parts :=
                Some [ thought_part (js "Here's a");
                       text_part (js "Once upon a" ++ newline ++ INCOMPLETE_TOKEN) ];
              content_role := None; finishReason := Some (js "MAX_RETRIES");
              index := None; metadata := None |};
       sent := [engine_body (demo_config 0) (demo_request ":generateContent")];
       ending := EndExhausted;
       acc := {| thoughtAccumulatedText := js "Here's a";
                 formalAccumulatedText := js "[RESPONSE_BEGIN]Once upon a";
                 isThoughtFinished := true |} |}
  /\
  (let o := handleNonStreamingRequest (demo_config 2)
              (fun _ _ => FetchOk (demo_event [thought_part (js "Hm.")]))
              (demo_request ":generateContent") in
   ending o = EndExhausted /\ length (sent o) = 3%nat)
  /\
  (let o := handleNonStreamingRequest (demo_config 2)
              (fun _ _ => FetchOk (demo_event [thought_part (js "Hm.")]))
              (demo_request ":generateContent") in
   response o = JsonResponse 200 (exhausted_json (acc o))).
Proof.
  destruct exhausted_retries_best_effort as (Hone & _ & Hnever & Hshape).
  split; [|split].
  - apply (Hone (demo_config 0) (fun _ _ => FetchOk demo_truncated)
             (demo_request ":generateContent") demo_truncated);
      [split; reflexivity | reflexivity | reflexivity | reflexivity | reflexivity].
  - apply (Hnever (demo_config 2)
             (fun _ _ => FetchOk (demo_event [thought_part (js "Hm.")]))
             (demo_request ":generateContent")); [split; reflexivity|].
    intros a b. exists (demo_event [thought_part (js "Hm.")]).
    split; [reflexivity|]. split; [reflexivity|]. intros st Hst. exact Hst.
  - apply (Hshape (demo_config 2)
             (fun _ _ => FetchOk (demo_event [thought_part (js "Hm.")]))
             (demo_request ":generateContent")).
    reflexivity.
Defined.


Example demo_thought_response_outcome :
  response (handleNonStreamingRequest (demo_config 3)
              (fun _ _ => FetchOk demo_thought_response)
              (demo_request ":generateContent")) =
    JsonResponse 200 (demo_event [thought_part (js "Here's a"); text_part (js "4")]).
Proof. vm_compute. reflexivity. Qed.



(** *** injectSystemPrompts leaves its argument untouched *)

Section Frame.
Import Store.

Variable h0 : heap.
#[local] Abbreviation n := (length h0).

Lemma extends_length h : extends h0 h -> n <= length h.
Proof.
  intros [Ht _]. rewrite <- Ht at 1. rewrite length_take. lia.
Qed.

Lemma extends_lookup h l c :
  extends h0 h -> n <= l -> h !! l = Some c -> fresh_cell n c.
Proof.
  intros [_ Hf] Hl Hc.
  eapply (proj1 (Forall_lookup _ _) Hf (l - n)%nat).
  rewrite lookup_drop. replace (n + (l - n))%nat with l by lia. done.
Qed.

Lemma extends_insert h l c :
  extends h0 h -> n <= l -> fresh_cell n c -> extends h0 (<[l := c]> h).
Proof.
  intros [Ht Hf] Hl Hc. split.
  - rewrite take_insert_ge by lia. done.
  - rewrite drop_insert_ge by lia. by apply Forall_insert.
Qed.

Lemma extends_snoc h c :
  extends h0 h -> fresh_cell n c -> extends h0 (h ++ [c]).
Proof.
  intros He Hc. pose proof (extends_length h He) as Hlen.
  destruct He as [Ht Hf]. split.
  - rewrite take_app_le by lia. done.
  - rewrite drop_app_le by lia. apply Forall_app. split; [done|].
    by apply Forall_singleton.
Qed.

Lemma preserves_ret {A} (P : A -> Prop) a : P a -> preserves h0 P (ret a).
Proof. intros Ha h He. done. Qed.

Lemma preserves_throw {A} (P : A -> Prop) : preserves h0 P (@throw A).
Proof. intros h He. done. Qed.

Lemma preserves_bind {A B} (P : A -> Prop) (Q : B -> Prop) m f :
  preserves h0 P m -> (forall a, P a -> preserves h0 Q (f a)) ->
  preserves h0 Q (bind m f).
Proof.
  intros Hm Hf h He. unfold bind. specialize (Hm h He).
  destruct (m h) as [a h'|h']; [|done].
  destruct Hm as [He' Ha]. by apply Hf.
Qed.

Lemma preserves_weaken {A} (P Q : A -> Prop) m :
  preserves h0 P m -> (forall a, P a -> Q a) -> preserves h0 Q m.
Proof.
  intros Hm HPQ h He. specialize (Hm h He).
  destruct (m h); [|done]. destruct Hm. split; auto.
Qed.

Lemma fresh_assoc k ps :
  Forall (fun kv => fresh n (snd kv)) ps -> fresh n (default VUndef (assoc k ps)).
Proof.
  induction 1 as [|[k' v] ps Hv _ IH]; cbn; [done|].
  destruct (bool_decide _); done.
Qed.

Lemma fresh_assoc_set k v ps :
  fresh n v -> Forall (fun kv => fresh n (snd kv)) ps ->
  Forall (fun kv => fresh n (snd kv)) (assoc_set k v ps).
Proof.
  intros Hv. induction 1 as [|[k' v'] ps Hv' Hps IH]; cbn.
  - by apply Forall_singleton.
  - destruct (bool_decide _); constructor; done.
Qed.

Lemma fresh_assoc_del k ps :
  Forall (fun kv => fresh n (snd kv)) ps ->
  Forall (fun kv => fresh n (snd kv)) (assoc_del k ps).
Proof.
  intros H. unfold assoc_del. rewrite List.Forall_forall in *.
  intros x Hx. apply List.filter_In in Hx. apply H, Hx.
Qed.

Lemma preserves_get v k : fresh n v -> preserves h0 (fresh n) (get v k).
Proof.
  intros Hv h He. unfold get. destruct v as [| | | | |l]; try done.
  destruct (h !! l) as [c|] eqn:Hc; [|done]. split; [done|].
  apply fresh_assoc. by apply (extends_lookup h l c He Hv).
Qed.

Lemma preserves_set v k x :
  fresh n v -> fresh n x -> preserves h0 (fun _ => True) (set v k x).
Proof.
  intros Hv Hx h He. unfold set. destruct v as [| | | | |l]; try done.
  destruct (h !! l) as [c|] eqn:Hc; [|done]. split; [|done].
  pose proof (extends_lookup h l c He Hv Hc) as [H1 H2].
  apply extends_insert; [done..|]. split; [done|]. by apply fresh_assoc_set.
Qed.

Lemma preserves_delete_prop v k :
  fresh n v -> preserves h0 (fun _ => True) (delete_prop v k).
Proof.
  intros Hv h He. unfold delete_prop. destruct v as [| | | | |l]; try done.
  destruct (h !! l) as [c|] eqn:Hc; [|done]. split; [|done].
  pose proof (extends_lookup h l c He Hv Hc) as [H1 H2].
  apply extends_insert; [done..|]. split; [done|]. by apply fresh_assoc_del.
Qed.

Lemma preserves_as_array v :
  fresh n v ->
  preserves h0 (fun es => Forall (fresh n) (default [] es)) (as_array v).
Proof.
  intros Hv h He. unfold as_array. destruct v as [| | | | |l]; try done.
  destruct (h !! l) as [c|] eqn:Hc; [|done]. split; [done|].
  pose proof (extends_lookup h l c He Hv Hc) as [H1 H2].
  destruct (elems c) as [es|]; [by apply H1 | done].
Qed.

Lemma fresh_lookup es i : Forall (fresh n) es -> fresh n (default VUndef (es !! i)).
Proof.
  intros H. destruct (es !! i) as [v|] eqn:Hv; [|done].
  by apply (proj1 (Forall_lookup _ _) H i).
Qed.

Lemma preserves_get_index v i : fresh n v -> preserves h0 (fresh n) (get_index v i).
Proof.
  intros Hv. unfold get_index.
  eapply preserves_bind; [by apply preserves_as_array|].
  intros es Hes. apply preserves_ret. by apply fresh_lookup.
Qed.

Lemma preserves_set_index v i x :
  fresh n v -> fresh n x -> preserves h0 (fun _ => True) (set_index v i x).
Proof.
  intros Hv Hx h He. unfold set_index. destruct v as [| | | | |l]; try done.
  destruct (h !! l) as [[[es|] ps]|] eqn:Hc; try done. split; [|done].
  pose proof (extends_lookup h l _ He Hv Hc) as [H1 H2]. cbn [elems props] in H1, H2.
  apply extends_insert; [done..|]. split; [|done]. cbn [elems].
  intros es' [= <-]. specialize (H1 es eq_refl).
  destruct (i <? length es)%nat.
  - by apply Forall_insert.
  - apply Forall_app. split; [done|]. by apply Forall_singleton.
Qed.

Lemma preserves_push v x :
  fresh n v -> fresh n x -> preserves h0 (fun _ => True) (push v x).
Proof.
  intros Hv Hx. unfold push.
  eapply preserves_bind; [by apply preserves_as_array|].
  intros es _. by apply preserves_set_index.
Qed.

Lemma preserves_new_object fields :
  Forall (fun kv => fresh n (snd kv)) fields ->
  preserves h0 (fresh n) (new_object fields).
Proof.
  intros Hf h He. unfold new_object. split.
  - apply extends_snoc; [done|]. split; [done|]. done.
  - cbn. by apply extends_length.
Qed.

Lemma preserves_new_array es :
  Forall (fresh n) es -> preserves h0 (fresh n) (new_array es).
Proof.
  intros Hf h He. unfold new_array. split.
  - apply extends_snoc; [done|]. split; cbn; [|done]. by intros ? [= <-].
  - cbn. by apply extends_length.
Qed.

Lemma preserves_for_each {A} (P : A -> Prop) (l : list A) f :
  Forall P l -> (forall x, P x -> preserves h0 (fun _ => True) (f x)) ->
  preserves h0 (fun _ => True) (for_each l f).
Proof.
  intros Hl Hf. induction Hl as [|x l Hx _ IH]; cbn.
  - by apply preserves_ret.
  - eapply preserves_bind; [by apply Hf|]. intros _ _. apply IH.
Qed.

Lemma preserves_find_index idxs f :
  (forall i, preserves h0 (fun _ => True) (f i)) ->
  preserves h0 (fun _ => True) (find_index idxs f).
Proof.
  intros Hf. induction idxs as [|i idxs IH]; cbn.
  - by apply preserves_ret.
  - eapply preserves_bind; [apply Hf|]. intros b _.
    destruct b; [by apply preserves_ret | apply IH].
Qed.

Variable ToString : heap -> value -> option jstr.

Lemma preserves_concat v s : preserves h0 (fresh n) (concat ToString v s).
Proof.
  intros h He. unfold concat.
  destruct v; try done; destruct (ToString h _); done.
Qed.

Lemma preserves_concat_left s v : preserves h0 (fresh n) (concat_left ToString s v).
Proof.
  intros h He. unfold concat_left.
  destruct v; try done; destruct (ToString h _); done.
Qed.

Lemma preserves_trim_nonempty v : preserves h0 (fun _ => True) (trim_nonempty v).
Proof. destruct v; cbn; try apply preserves_throw. by apply preserves_ret. Qed.

Lemma preserves_normalize v :
  fresh n v -> preserves h0 (fresh n) (normalizeSystemInstruction v).
Proof.
  intros Hv. unfold normalizeSystemInstruction.
  destruct (negb (truthy v)); [by apply preserves_ret|].
  eapply preserves_bind; [by apply preserves_get|]. intros si Hsi.
  eapply preserves_bind; [by apply preserves_get|]. intros si' Hsi'.
  eapply preserves_bind with (P := fun _ => True); [|intros; by apply preserves_ret].
  destruct (truthy si && truthy si'); [by apply preserves_delete_prop|].
  destruct (negb (truthy si) && truthy si'); [|by apply preserves_ret].
  eapply preserves_bind; [by apply preserves_set|]. intros _ _.
  by apply preserves_delete_prop.
Qed.

Lemma preserves_text_truthy_at ps i :
  fresh n ps -> preserves h0 (fun _ => True) (text_truthy_at ps i).
Proof.
  intros Hps. unfold text_truthy_at.
  eapply preserves_bind; [by apply preserves_get_index|]. intros part Hpart.
  eapply preserves_bind; [by apply preserves_get|]. intros t Ht.
  by apply preserves_ret.
Qed.

Lemma preserves_nonblank_text_at ps i :
  fresh n ps -> preserves h0 (fun _ => True) (nonblank_text_at ps i).
Proof.
  intros Hps. unfold nonblank_text_at.
  eapply preserves_bind; [by apply preserves_get_index|]. intros part Hpart.
  eapply preserves_bind; [by apply preserves_get|]. intros t Ht.
  destruct (truthy t); [apply preserves_trim_nonempty | by apply preserves_ret].
Qed.

(** Rewriting the text of the part found by a search. *)
Lemma preserves_rewrite_text ps idxs (f : value -> M value) :
  fresh n ps ->
  (forall t, preserves h0 (fresh n) (f t)) ->
  preserves h0 (fun _ => True)
    (bind (find_index idxs (text_truthy_at ps))
       (fun found =>
          match found with
          | Some i =>
              bind (get_index ps i) (fun part =>
              bind (get part "text") (fun t =>
              bind (f t) (fun t' => set part "text" t')))
          | None => ret tt
          end)).
Proof.
  intros Hps Hf.
  eapply preserves_bind;
    [apply preserves_find_index; intros; by apply preserves_text_truthy_at|].
  intros [i|] _; [|by apply preserves_ret].
  eapply preserves_bind; [by apply preserves_get_index|]. intros part Hpart.
  eapply preserves_bind; [by apply preserves_get|]. intros t Ht.
  eapply preserves_bind; [apply Hf|]. intros t' Ht'.
  by apply preserves_set.
Qed.

Lemma preserves_inject_content b f content :
  fresh n content -> preserves h0 (fun _ => True) (inject_content ToString b f content).
Proof.
  intros Hc. unfold inject_content.
  eapply preserves_bind; [by apply preserves_get|]. intros ps Hps.
  eapply preserves_bind; [by apply preserves_as_array|]. intros [es|] Hes;
    [|by apply preserves_ret].
  eapply preserves_bind; [by apply preserves_get|]. intros role Hrole.
  eapply preserves_bind with (P := fun _ => True).
  - destruct (b && is_str "model" role); [|by apply preserves_ret].
    apply preserves_rewrite_text; [done|]. intros t. apply preserves_concat_left.
  - intros _ _.
    eapply preserves_bind; [by apply preserves_get|]. intros role' Hrole'.
    destruct (f && is_str "model" role'); [|by apply preserves_ret].
    apply preserves_rewrite_text; [done|]. intros t. apply preserves_concat.
Qed.

Lemma preserves_inject_reminder sot b newBody :
  fresh n newBody -> preserves h0 (fun _ => True) (inject_reminder ToString sot b newBody).
Proof.
  intros Hb. unfold inject_reminder.
  eapply preserves_bind; [by apply preserves_get|]. intros cs Hcs.
  eapply preserves_bind; [by apply preserves_as_array|].
  intros [[|c0 ces]|] Hces; try by apply preserves_ret.
  eapply preserves_bind; [by apply preserves_get_index|]. intros lastContent Hlast.
  eapply preserves_bind; [by apply preserves_get|]. intros role Hrole.
  destruct (is_str "user" role); [|by apply preserves_ret].
  eapply preserves_bind; [by apply preserves_get|]. intros ps Hps.
  eapply preserves_bind; [by apply preserves_as_array|].
  intros [[|e0 es]|] Hes; try by apply preserves_ret.
  eapply preserves_bind;
    [apply preserves_find_index; intros; by apply preserves_nonblank_text_at|].
  intros [i|] _; [|by apply preserves_ret].
  eapply preserves_bind; [by apply preserves_get_index|]. intros part Hpart.
  eapply preserves_bind; [by apply preserves_get|]. intros t Ht.
  eapply preserves_bind; [apply preserves_concat|]. intros t' Ht'.
  eapply preserves_bind; [by apply preserves_set|]. intros _ _.
  destruct b; [|by apply preserves_ret].
  eapply preserves_bind;
    [apply preserves_new_object; by apply Forall_singleton|]. intros p Hp.
  eapply preserves_bind;
    [apply preserves_new_array; by apply Forall_singleton|]. intros a Ha.
  eapply preserves_bind;
    [apply preserves_new_object; repeat constructor; done|]. intros c Hc.
  eapply preserves_bind; [by apply preserves_get|]. intros cs' Hcs'.
  by apply preserves_push.
Qed.

Lemma preserves_inject_body sot b f newBody :
  fresh n newBody -> preserves h0 (fresh n) (inject_in_place ToString newBody sot b f).
Proof.
  intros Hb. unfold inject_in_place.
  eapply preserves_bind; [by apply preserves_normalize|]. intros _ _. cbv zeta.
  destruct (if b && f then _ else _) as [|c0 prompt]; [by apply preserves_ret|].
  eapply preserves_bind;
    [apply preserves_new_object; by apply Forall_singleton|]. intros tpp Htpp.
  eapply preserves_bind; [by apply preserves_get|]. intros si Hsi.
  eapply preserves_bind with (P := fun _ => True).
  - destruct (negb (truthy si)).
    + eapply preserves_bind;
        [apply preserves_new_array; by apply Forall_singleton|]. intros a Ha.
      eapply preserves_bind;
        [apply preserves_new_object; by apply Forall_singleton|]. intros o Ho.
      by apply preserves_set.
    + eapply preserves_bind; [by apply preserves_get|]. intros ps Hps.
      eapply preserves_bind; [by apply preserves_as_array|].
      intros [[|p0 es]|] Hes.
      * by apply preserves_set_index.
      * cbn in Hes. apply Forall_inv in Hes.
        eapply preserves_bind; [by apply preserves_get|]. intros t Ht.
        destruct (negb (truthy t)); [by apply preserves_set_index|].
        eapply preserves_bind; [apply preserves_concat|]. intros t' Ht'.
        by apply preserves_set.
      * eapply preserves_bind;
          [apply preserves_new_array; by apply Forall_singleton|]. intros a Ha.
        by apply preserves_set.
  - intros _ _.
    eapply preserves_bind; [by apply preserves_get|]. intros cs Hcs.
    eapply preserves_bind; [by apply preserves_as_array|]. intros ces Hces.
    eapply preserves_bind with (P := fun _ => True).
    + destruct ces as [ces|]; [|by apply preserves_ret].
      eapply preserves_for_each; [exact Hces|].
      intros c Hc. by apply preserves_inject_content.
    + intros _ _.
      eapply preserves_bind; [by apply preserves_inject_reminder|]. intros _ _.
      by apply preserves_ret.
Qed.

End Frame.

Lemma extends_clone (h : Store.heap) :
  extends h (h ++ map (Store.shift_cell (length h)) h).
Proof.
  split.
  - by rewrite take_app_length.
  - rewrite drop_app_length. apply Forall_map. apply Forall_true. intros c. split.
    + unfold Store.shift_cell. cbn. intros es Hes.
      destruct (Store.elems c) as [es0|]; [|done]. cbn in Hes. injection Hes as <-.
      apply Forall_map. apply Forall_true. intros [| | | | |l]; cbn; try done. lia.
    + unfold Store.shift_cell. cbn. apply Forall_map. apply Forall_true.
      intros [k [| | | | |l]]; cbn; try done. lia.
Qed.

Lemma fresh_shift (k : nat) (v : Store.value) : fresh k (Store.shift_value k v).
Proof. destruct v; cbn; try done. lia. Qed.

(** C9.  [injectSystemPrompts] leaves every object that exists before the
    call as it is, whether it returns or throws: the store after the call
    is the store before it followed by new objects, and the body returned
    is one of the new objects (or a primitive). *)
Theorem injectMarkers_leaves_input
    (ToString : Store.heap -> Store.value -> option jstr)
    (body : Store.value) (startOfThought : jstr)
    (injectBeginTokenPrompt injectFinishTokenPrompt : bool) (h : Store.heap) :
  let o := Store.injectSystemPrompts ToString body startOfThought
             injectBeginTokenPrompt injectFinishTokenPrompt h in
  take (length h) (Store.final_heap o) = h /\
  (forall l c, h !! l = Some c -> Store.final_heap o !! l = Some c) /\
  match o with
  | Store.Ok newBody _ => fresh (length h) newBody
  | Store.Throw _ => True
  end.
Proof.
  cbv zeta.
  pose proof (preserves_inject_body h ToString startOfThought injectBeginTokenPrompt
                injectFinishTokenPrompt (Store.shift_value (length h) body)
                (fresh_shift _ _) _ (extends_clone h)) as H.
  change (Store.injectSystemPrompts ToString body startOfThought
            injectBeginTokenPrompt injectFinishTokenPrompt h)
    with (Store.inject_in_place ToString (Store.shift_value (length h) body) startOfThought
            injectBeginTokenPrompt injectFinishTokenPrompt
            (h ++ map (Store.shift_cell (length h)) h)).
  destruct (Store.inject_in_place _ _ _ _ _ _) as [newBody h'|h'].
  - destruct H as [[Ht _] Hb]. cbn [Store.final_heap]. split; [done|]. split; [|done].
    intros l c Hl. rewrite <- Ht in Hl. apply lookup_take_Some in Hl. apply Hl.
  - destruct H as [Ht _]. cbn [Store.final_heap]. split; [done|]. split; [|done].
    intros l c Hl. rewrite <- Ht in Hl. apply lookup_take_Some in Hl. apply Hl.
Qed.

(** *** Markers in the output *)

Lemma includes_drop (p s : jstr) (i : nat) :
  startsWith p (drop i s) = true -> includes p s = true.
Proof.
  revert i. induction s as [|c s IH]; intros i H.
  - rewrite drop_nil in H. cbn. by rewrite H.
  - destruct i as [|i].
    + cbn [drop] in H. cbn [includes]. by rewrite H.
    + cbn [drop] in H. cbn [includes]. rewrite (IH i H). apply orb_true_r.
Qed.

Lemma includes_witness (p s : jstr) :
  includes p s = true -> exists i, startsWith p (drop i s) = true.
Proof.
  induction s as [|c s IH]; cbn [includes].
  - rewrite orb_false_r. intros H. by exists 0.
  - intros [H|H]%orb_true_iff; [by exists 0|].
    destruct (IH H) as [i Hi]. by exists (S i).
Qed.

Lemma includes_suffix (p s : jstr) (i : nat) :
  includes p (drop i s) = true -> includes p s = true.
Proof.
  intros [k Hk]%includes_witness. rewrite drop_drop in Hk. by eapply includes_drop.
Qed.

Lemma startsWith_take (p s : jstr) (k : nat) :
  startsWith p (take k s) = true -> startsWith p s = true /\ length p <= k.
Proof.
  revert s k. induction p as [|a p IH]; intros s k H.
  - split; [done | cbn; lia].
  - destruct k as [|k]; [by destruct s|]. destruct s as [|b s]; [done|].
    cbn [take startsWith] in *. apply andb_true_iff in H as [Hab H].
    destruct (IH s k H) as [H1 H2]. rewrite Hab, H1. split; [done | cbn; lia].
Qed.

Lemma startsWith_drop_take (p s : jstr) (i k : nat) :
  startsWith p (drop i (take k s)) = true ->
  startsWith p (drop i s) = true /\ length p <= k - i.
Proof.
  rewrite skipn_firstn_comm. apply startsWith_take.
Qed.

Lemma all_tails_drop (f : jstr -> bool) (s : jstr) (i : nat) :
  all_tails f s = true -> f (drop i s) = true.
Proof.
  revert i. induction s as [|c s IH]; intros i H.
  - rewrite drop_nil. cbn in H. by apply andb_true_iff in H as [H _].
  - cbn [all_tails] in H. apply andb_true_iff in H as [H1 H2].
    destruct i as [|i]; [done|]. cbn [drop]. by apply IH.
Qed.

Lemma first_tail_before (f : jstr -> bool) (s : jstr) (k i : nat) :
  first_tail f s = Some k -> i < k -> f (drop i s) = false.
Proof.
  revert k i. induction s as [|c s IH]; intros k i; cbn [first_tail].
  - destruct (f []); [intros [= <-]; lia | done].
  - destruct (f (c :: s)) eqn:Hf; [intros [= <-]; lia|].
    destruct (first_tail f s) as [k'|] eqn:Hk; [|done]. intros [= <-] Hi.
    destruct i as [|i]; [done|]. cbn [drop]. apply (IH k'); [done | lia].
Qed.

Lemma first_tail_none (f : jstr -> bool) (s : jstr) (i : nat) :
  first_tail f s = None -> f (drop i s) = false.
Proof.
  revert i. induction s as [|c s IH]; intros i; cbn [first_tail].
  - rewrite drop_nil. by destruct (f []).
  - destruct (f (c :: s)) eqn:Hf; [done|].
    destruct (first_tail f s) eqn:Hk; [done|]. intros _.
    destruct i as [|i]; [done|]. cbn [drop]. by apply IH.
Qed.

Lemma strip_begin_suffix (s : jstr) :
  match s with
  | [] => true
  | _ :: s' => negb (includes BEGIN_TOKEN s')
  end = true ->
  exists j, strip_begin s = drop j s /\ includes BEGIN_TOKEN (drop j s) = false.
Proof.
  intros H. unfold strip_begin.
  destruct (startsWith BEGIN_TOKEN s) eqn:Hs.
  - destruct s as [|c s]; [done|]. apply negb_true_iff in H.
    rewrite drop_space_alt.
    assert (Hj : forall j, includes BEGIN_TOKEN (drop (S j) (c :: s)) = false).
    { intros j. cbn [drop]. destruct (includes BEGIN_TOKEN (drop j s)) eqn:E; [|done].
      apply includes_suffix in E. congruence. }
    destruct (match drop (length BEGIN_TOKEN) (c :: s) with
              | c0 :: _ => is_space c0
              | [] => false
              end).
    + rewrite drop_drop. exists (length BEGIN_TOKEN + 1). split; [done|].
      replace (length BEGIN_TOKEN + 1) with (S (length BEGIN_TOKEN)) by lia. apply Hj.
    + exists (length BEGIN_TOKEN). split; [done|]. apply (Hj 15).
  - destruct s as [|c s]; [by exists 0|]. apply negb_true_iff in H.
    destruct (is_space c && startsWith BEGIN_TOKEN s) eqn:E.
    + apply andb_true_iff in E as [_ E].
      assert (includes BEGIN_TOKEN s = true) by (by apply (includes_drop _ _ 0)).
      congruence.
    + exists 0. split; [done|]. cbn [drop includes]. by rewrite Hs, H.
Qed.

Lemma stripMarkers_marker_free (s : jstr) :
  well_marked s = true -> marker_free (stripMarkers s) = true.
Proof.
  unfold well_marked. intros [Hb Hf]%andb_true_iff.
  destruct (strip_begin_suffix s Hb) as (j & Hj & Hbj).
  unfold stripMarkers, cleanFinalText.
  rewrite clean_begin_remove, clean_finish_remove, Hj.
  set (r := drop j s) in *.
  assert (Hfin : forall i, startsWith FINISHED_TOKEN (drop i r) = true ->
                           clean_finish_tail (drop i r) = true).
  { intros i Hi. subst r. rewrite drop_drop in *.
    pose proof (all_tails_drop _ s (j + i) Hf) as H. cbn beta in H.
    rewrite Hi in H. cbn [negb orb] in H. unfold clean_finish_tail. by rewrite H. }
  unfold marker_free. apply andb_true_iff.
  destruct (first_tail clean_finish_tail r) as [k|] eqn:Hk.
  - split; apply negb_true_iff.
    + destruct (includes BEGIN_TOKEN (take k r)) eqn:E; [|done].
      apply includes_witness in E as [i Hi]. apply startsWith_drop_take in Hi as [Hi _].
      apply includes_drop in Hi. congruence.
    + destruct (includes FINISHED_TOKEN (take k r)) eqn:E; [|done].
      apply includes_witness in E as [i Hi]. apply startsWith_drop_take in Hi as [Hi Hlen].
      assert (i < k) by (change (length FINISHED_TOKEN) with 19 in Hlen; lia).
      pose proof (Hfin i Hi) as Hc. by rewrite (first_tail_before _ _ _ _ Hk H) in Hc.
  - split; apply negb_true_iff; [done|].
    destruct (includes FINISHED_TOKEN r) eqn:E; [|done].
    apply includes_witness in E as [i Hi].
    pose proof (Hfin i Hi) as H. by rewrite (first_tail_none _ _ i Hk) in H.
Qed.

Lemma startsWith_app_cases (p u t : jstr) :
  startsWith p (u ++ t) = true ->
  startsWith p u = true \/
  (length u < length p /\ startsWith (drop (length u) p) t = true).
Proof.
  revert u. induction p as [|a p IH]; intros u H; [by left|].
  destruct u as [|b u].
  - right. split; [cbn; lia | done].
  - cbn [app startsWith] in *. apply andb_true_iff in H as [Hab H].
    destruct (IH u H) as [H1 | [H1 H2]].
    + left. by rewrite Hab, H1.
    + right. split; [cbn; lia | done].
Qed.

(** A string [p] that does not occur in [s] nor in [t] occurs in [s ++ t]
    only across the junction. *)
Lemma includes_app_apart (p s t : jstr) :
  forallb (fun k => negb (startsWith (drop k p) t)) (seq 1 (length p - 1)) = true ->
  includes p s = false -> includes p t = false -> includes p (s ++ t) = false.
Proof.
  intros Hno Hs Ht. induction s as [|c s IH]; [done|].
  cbn [includes] in Hs. apply orb_false_iff in Hs as [Hs1 Hs2].
  cbn [app includes]. rewrite (IH Hs2), orb_false_r.
  destruct (startsWith p (c :: s ++ t)) eqn:E; [|done].
  apply (startsWith_app_cases p (c :: s) t) in E as [E | [Hlen E]]; [congruence|].
  rewrite forallb_forall in Hno.
  specialize (Hno (length (c :: s))). rewrite E in Hno.
  assert (false = true); [|done]. apply Hno. apply in_seq. cbn in *. lia.
Qed.

Lemma marker_free_incomplete (s : jstr) :
  marker_free s = true -> marker_free (s ++ newline ++ INCOMPLETE_TOKEN) = true.
Proof.
  unfold marker_free.
  intros [Hb Hf]%andb_true_iff. apply negb_true_iff in Hb, Hf.
  apply andb_true_iff. split; apply negb_true_iff.
  - apply includes_app_apart; [vm_compute; reflexivity | done | vm_compute; reflexivity].
  - apply includes_app_apart; [vm_compute; reflexivity | done | vm_compute; reflexivity].
Qed.

Lemma loop_complete_shape config upstream remaining attempts currentBody st sent0 :
  let o := nonStreamingLoop config upstream remaining attempts currentBody st sent0 in
  ending o = EndComplete ->
  exists json, response o = JsonResponse 200 json /\
               candidate_parts json = Some (complete_parts (acc o)).
Proof.
  revert attempts currentBody st sent0.
  induction remaining as [|n IH]; intros attempts currentBody st sent0; cbn zeta.
  - done.
  - cbn [nonStreamingLoop].
    destruct (upstream (attempts + 1)%Z currentBody) as [msg | json | status txt].
    + destruct (_ >? _)%Z; [done | apply IH].
    + destruct (existsb _ _); [done|].
      destruct (is_complete _); [|apply IH].
      destruct (assign_parts _ _) as [json'|] eqn:Ha.
      * intros _. exists json'. split; [done|]. cbn [acc].
        unfold assign_parts in Ha. destruct (candidate_parts json); [|done].
        by injection Ha as <-.
      * destruct (_ >? _)%Z; [done | apply IH].
    + destruct (status_in FATAL_STATUS_CODES status); [done|].
      destruct (_ >? _)%Z; [done | apply IH].
Qed.

Ltac simpl_texts :=
  cbn [candidate_parts default from_option id map app forallb text_of text
       thought_part text_part].


Lemma run_attempt_completed parse stringify (st : StreamState) (chunks : list jstr)
    (payload : ResponseJson) :
  fst (run_attempt parse stringify st chunks) = Completed payload ->
  exists st', read_chunks parse stringify st chunks = Continue st' /\
              on_done parse st' = Completed payload.
Proof.
  unfold run_attempt. destruct (read_chunks parse stringify st chunks) as [st'|st'].
  - intros H. by exists st'.
  - done.
Qed.

Lemma read_chunks_lines parse stringify (st st' : StreamState) (chunks : list jstr)
    (lines : list LineObj) :
  read_chunks parse stringify st chunks = Continue st' ->
  match read_chunks parse stringify st chunks with
  | Continue s => linesBuffer s
  | Thrown _ => []
  end = lines ->
  linesBuffer st' = lines.
Proof. by intros ->. Qed.


(** *** The two models of injectSystemPrompts on an example *)

Example injectSystemPrompts_demo :
  injectSystemPrompts demo_user_body (demo_config 3) true true =
    {| systemInstruction :=
         Some {| role := None;
                 parts := Some [text_part (BEGIN_TOKEN_PROMPT ++ FINISH_TOKEN_PROMPT)] |};
       system_instruction := None;
       contents :=
         Some [ {| role := Some (js "user");
                   parts := Some [text_part (js "Hi" ++ sep ++ REMINDER_PROMPT)] |};
                {| role := Some (js "model"); parts := Some [text_part (js "Here's a")] |} ];
       generationConfig := None |}.
Proof. vm_compute. reflexivity. Qed.

Example injectSystemPrompts_store_demo :
  Store.injectSystemPrompts (fun _ _ => None) (Store.VRef 0) (js "Here's a") true true
    demo_heap =
    Store.Ok (Store.VRef 5)
      (demo_heap ++
       [ {| Store.elems := None;
            Store.props := [(js "contents", Store.VRef 6);
                            (js "systemInstruction", Store.VRef 12)] |};
         {| Store.elems := Some [Store.VRef 7; Store.VRef 15]; Store.props := [] |};
         {| Store.elems := None;
            Store.props := [(js "role", Store.VStr (js "user"));
                            (js "parts", Store.VRef 8)] |};
         {| Store.elems := Some [Store.VRef 9]; Store.props := [] |};
         {| Store.elems := None;
            Store.props := [(js "text", Store.VStr (js "Hi" ++ sep ++ REMINDER_PROMPT))] |};
         {| Store.elems := None;
            Store.props :=
              [(js "text", Store.VStr (BEGIN_TOKEN_PROMPT ++ FINISH_TOKEN_PROMPT))] |};
         {| Store.elems := Some [Store.VRef 10]; Store.props := [] |};
         {| Store.elems := None; Store.props := [(js "parts", Store.VRef 11)] |};
         {| Store.elems := None; Store.props := [(js "text", Store.VStr (js "Here's a"))] |};
         {| Store.elems := Some [Store.VRef 13]; Store.props := [] |};
         {| Store.elems := None;
            Store.props := [(js "role", Store.VStr (js "model"));
                            (js "parts", Store.VRef 14)] |} ]).
Proof. vm_compute. reflexivity. Qed.

Example buildRetryRequest_demo :
  contents (buildRetryRequest (injectSystemPrompts demo_user_body (demo_config 3) true true)
              (js " thought")) =
    Some [ {| role := Some (js "user");
              parts := Some [text_part (js "Hi" ++ sep ++ REMINDER_PROMPT)] |};
           {| role := Some (js "model");
              parts := Some [text_part (js "Here's a thought")] |} ].
Proof. vm_compute. reflexivity. Qed.

Lemma injectMarkers_leaves_input_witness :
  let o := Store.injectSystemPrompts (fun _ _ => None) (Store.VRef 0) (js "Here's a")
             true true demo_heap in
  Store.final_heap o !! 0%nat =
    Some {| Store.elems := None; Store.props := [(js "contents", Store.VRef 1)] |}.
Proof.
  apply (proj1 (proj2 (injectMarkers_leaves_input (fun _ _ => None) (Store.VRef 0)
                         (js "Here's a") true true demo_heap))).
  reflexivity.
Defined.

(** *** parseParts and the function-call tests *)

Lemma parse_fold_closed (ps : list Part) (r : ParsedParts) :
  let r' := fold_left parse_step ps r in
  thoughtParts r' = thoughtParts r ++ List.filter thought_text_part ps /\
  responseText r' =
    responseText r ++ concat (map text_of (List.filter response_text_part ps)) /\
  hasThought r' = hasThought r || existsb thought_text_part ps /\
  hasFunctionCall r' = hasFunctionCall r || existsb bare_functionCall_part ps /\
  pp_functionCall r' =
    match list.last (List.filter bare_functionCall_part ps) with
    | Some p => functionCall p
    | None => pp_functionCall r
    end.
Proof.
  revert r. induction ps as [|p ps IH]; intros r; cbn zeta.
  - cbn. rewrite !app_nil_r, !orb_false_r. done.
  - cbn [fold_left]. specialize (IH (parse_step r p)). cbn zeta in IH.
    destruct IH as (H1 & H2 & H3 & H4 & H5).
    rewrite H1, H2, H3, H4, H5. clear H1 H2 H3 H4 H5.
    unfold parse_step, thought_text_part, response_text_part, bare_functionCall_part.
    cbn [List.filter existsb].
    destruct (is_thought p) eqn:Et, (has_text p) eqn:Ex, (has_functionCall p) eqn:Ef;
      cbn [andb negb orb thoughtParts responseText hasThought hasFunctionCall
           pp_functionCall map concat];
      rewrite <- ?app_assoc, ?orb_true_r, ?orb_false_r; cbn [app];
      repeat split; try done;
      try (destruct (List.filter _ ps) as [|q qs]; [done|];
           rewrite last_cons_cons;
           destruct (list.last (q :: qs)) eqn:E; [done | by apply last_None in E]).
    all: try by destruct (existsb _ ps).
Qed.

(** X1.  [parseParts] in closed form: the thought parts are the parts
    flagged as thought that have text, the response text is the
    concatenation of the texts of the unflagged parts, and a function call
    is seen only on a part without text; the call returned is the last
    such one. *)
Theorem parseParts_closed_form (ps : list Part) :
  let r := parseParts (Some ps) in
  thoughtParts r = List.filter thought_text_part ps /\
  responseText r = concat (map text_of (List.filter response_text_part ps)) /\
  hasThought r = existsb thought_text_part ps /\
  hasFunctionCall r = existsb bare_functionCall_part ps /\
  pp_functionCall r = list.last (List.filter bare_functionCall_part ps) ≫= functionCall.
Proof.
  cbv zeta. unfold parseParts.
  destruct (parse_fold_closed ps
              {| thoughtParts := []; responseText := []; pp_functionCall := None;
                 hasThought := false; hasFunctionCall := false |})
    as (H1 & H2 & H3 & H4 & H5).
  cbn [thoughtParts responseText hasThought hasFunctionCall pp_functionCall
       app orb] in *.
  rewrite H1, H2, H3, H4, H5. repeat split; try done.
  all: by destruct (list.last _).
Qed.

(** X2.  The two handlers do not look for function calls in the same way:
    what [parseParts] reports (the streaming test) implies the test of the
    non-streaming loop, which looks at every part; they agree when no part
    has both a text and a function call; a function call on a part that
    has text is not seen by [parseParts]. *)
Theorem function_call_tests (ps : list Part) :
  (hasFunctionCall (parseParts (Some ps)) = true -> existsb has_functionCall ps = true) /\
  (forallb (fun p => negb (has_functionCall p && has_text p)) ps = true ->
   hasFunctionCall (parseParts (Some ps)) = existsb has_functionCall ps) /\
  (forallb has_text ps = true -> hasFunctionCall (parseParts (Some ps)) = false).
Proof.
  unfold parseParts.
  destruct (parse_fold_closed ps
              {| thoughtParts := []; responseText := []; pp_functionCall := None;
                 hasThought := false; hasFunctionCall := false |})
    as (_ & _ & _ & -> & _).
  cbn [hasFunctionCall orb]. unfold bare_functionCall_part. split; [|split].
  - induction ps as [|p ps IH]; cbn; [done|].
    intros [[H _]%andb_true_iff | H]%orb_true_iff.
    + by rewrite H.
    + rewrite (IH H). apply orb_true_r.
  - induction ps as [|p ps IH]; cbn; [done|].
    intros [Hp H]%andb_true_iff. rewrite (IH H).
    destruct (has_functionCall p), (has_text p); done.
  - induction ps as [|p ps IH]; cbn; [done|].
    intros [Hp H]%andb_true_iff. rewrite (IH H), Hp. cbn. by rewrite andb_false_r.
Qed.

Lemma function_call_tests_witness :
  let p := {| text := Some (js "Calling."); thought := None;
              functionCall := Some (jsq "{'name':'get_weather'}"); other := None |} in
  existsb has_functionCall [p] = true /\
  hasFunctionCall (parseParts (Some [p])) = false /\
  hasFunctionCall (parseParts (Some [text_part (js "Hi")])) =
    existsb has_functionCall [text_part (js "Hi")].
Proof.
  split; [reflexivity|]. split.
  - apply (proj2 (proj2 (function_call_tests _))). reflexivity.
  - apply (proj1 (proj2 (function_call_tests _))). reflexivity.
Defined.

(** *** Continuations compose; normalizeSystemInstruction *)

Lemma last_index_split {A} (f : A -> bool) (l : list A) :
  match last_index f l with
  | Some i =>
      exists pre p post, l = pre ++ p :: post /\ length pre = i /\ f p = true /\
                         forallb (fun x => negb (f x)) post = true
  | None => forallb (fun x => negb (f x)) l = true
  end.
Proof.
  induction l as [|x l IH]; [done|]. cbn [last_index].
  destruct (last_index f l) as [i|].
  - destruct IH as (pre & p & post & -> & <- & Hp & Hpost).
    by exists (x :: pre), p, post.
  - destruct (f x) eqn:Hx.
    + by exists [], x, l.
    + cbn. by rewrite Hx.
Qed.

Lemma normalize_idempotent (body : Body) :
  normalizeSystemInstruction (normalizeSystemInstruction body) =
    normalizeSystemInstruction body.
Proof.
  unfold normalizeSystemInstruction.
  destruct (systemInstruction body) eqn:E1, (system_instruction body) eqn:E2;
    cbn; rewrite ?E1, ?E2; done.
Qed.

Lemma normalize_set_contents (cs : list Content) (body : Body) :
  normalizeSystemInstruction (set_contents cs (normalizeSystemInstruction body)) =
    set_contents cs (normalizeSystemInstruction body).
Proof.
  unfold normalizeSystemInstruction, set_contents.
  destruct (systemInstruction body) eqn:E1, (system_instruction body) eqn:E2;
    cbn; rewrite ?E1, ?E2; done.
Qed.

Lemma set_contents_twice (cs cs' : list Content) (body : Body) :
  set_contents cs' (set_contents cs body) = set_contents cs' body.
Proof. done. Qed.

(** [buildRetryRequest] on the content list. *)
Lemma buildRetryRequest_contents (body : Body) (t : jstr) :
  buildRetryRequest body t =
    set_contents
      (match list.last (default [] (contents body)) with
       | Some lc =>
           if role_is "model" lc
           then removelast (default [] (contents body))
                ++ [set_parts (continue_parts t (default [] (parts lc))) lc]
           else default [] (contents body) ++ [model_entry t]
       | None => [model_entry t]
       end)
      (normalizeSystemInstruction body).
Proof.
  unfold buildRetryRequest. rewrite normalize_contents.
  destruct (list.last (default [] (contents body))) as [c|] eqn:E.
  - apply last_Some in E as [cs ->]. destruct (role_is "model" c); [|done].
    rewrite insert_last, removelast_last. do 3 f_equal.
    unfold continue_parts. destruct (parts c) as [[|p ps]|]; done.
  - apply last_None in E. by rewrite E.
Qed.

Lemma continue_parts_shape (t : jstr) (ps : list Part) :
  exists pre p post old,
    continue_parts t ps = pre ++ p :: post /\
    text p = Some (old ++ t) /\
    forallb (fun q => negb (has_own_text q)) post = true /\
    (ps = pre ++ post /\ old = [] \/
     exists p0, ps = pre ++ p0 :: post /\ has_own_text p0 = true /\ old = text_of p0).
Proof.
  unfold continue_parts. pose proof (last_index_split has_own_text ps) as H.
  destruct (last_index has_own_text ps) as [i|].
  - destruct H as (pre & p & post & -> & <- & Hp & Hpost).
    exists pre, (set_text (text_of p ++ t) p), post, (text_of p).
    rewrite alter_middle. split; [done|]. split; [done|]. split; [done|].
    right. by exists p.
  - exists ps, (text_part t), [], []. split; [done|]. split; [done|]. split; [done|].
    left. by rewrite app_nil_r.
Qed.

Lemma continue_parts_compose (t1 t2 : jstr) (ps : list Part) :
  continue_parts t2 (continue_parts t1 ps) = continue_parts (t1 ++ t2) ps.
Proof.
  unfold continue_parts at 2 3. pose proof (last_index_split has_own_text ps) as H.
  destruct (last_index has_own_text ps) as [i|].
  - destruct H as (pre & p & post & -> & <- & Hp & Hpost).
    rewrite !alter_middle. unfold continue_parts.
    rewrite (last_index_app has_own_text pre post (set_text (text_of p ++ t1) p)
               eq_refl Hpost).
    rewrite alter_middle. unfold set_text, text_of. cbn. by rewrite app_assoc.
  - unfold continue_parts.
    rewrite (last_index_app has_own_text ps [] (text_part t1) eq_refl eq_refl).
    rewrite alter_middle. done.
Qed.

(** X3.  Continuations compose: continuing with [t1] and then with [t2]
    gives the request that one continuation with [t1 ++ t2] gives. *)
Theorem buildRetryRequest_compose (body : Body) (t1 t2 : jstr) :
  buildRetryRequest (buildRetryRequest body t1) t2 = buildRetryRequest body (t1 ++ t2).
Proof.
  rewrite (buildRetryRequest_contents _ t2), (buildRetryRequest_contents body t1),
    (buildRetryRequest_contents body (t1 ++ t2)).
  rewrite normalize_set_contents, set_contents_twice. f_equal.
  change (contents (set_contents ?cs _)) with (Some cs).
  change (default [] (Some ?cs)) with cs.
  set (cs0 := default [] (contents body)).
  destruct (list.last cs0) as [c|] eqn:E.
  - apply last_Some in E as [cs ->]. rewrite removelast_last.
    destruct (role_is "model" c) eqn:Hc.
    + rewrite last_snoc, removelast_last.
      replace (role_is "model" (set_parts _ c)) with true by done.
      change (default [] (parts (set_parts ?ps c))) with ps.
      by rewrite continue_parts_compose.
    + rewrite last_snoc, removelast_last. reflexivity.
  - reflexivity.
Qed.

(** X4.  What every continuation request looks like: its content list
    ends with an entry of role model whose last part with a text property
    holds a text that ends with the new text; the entries before it are
    those of the input, apart from a last model entry, which is the one
    continued. *)
Theorem buildRetryRequest_ends_with (body : Body) (t : jstr) :
  exists cs c pre p post old,
    contents (buildRetryRequest body t) = Some (cs ++ [c]) /\
    role c = Some (js "model") /\
    parts c = Some (pre ++ p :: post) /\
    text p = Some (old ++ t) /\
    forallb (fun q => negb (has_own_text q)) post = true /\
    (cs = default [] (contents body) \/
     exists c0, default [] (contents body) = cs ++ [c0] /\ role c0 = Some (js "model")).
Proof.
  rewrite buildRetryRequest_contents. cbn [contents set_contents].
  destruct (list.last (default [] (contents body))) as [c|] eqn:E.
  2:{ apply last_None in E. rewrite E.
      exists [], (model_entry t), [], (text_part t), [], []. cbn. repeat split; by left. }
  apply last_Some in E as [cs ->].
  - destruct (role_is "model" c) eqn:Hc.
    + rewrite removelast_last.
      destruct (continue_parts_shape t (default [] (parts c)))
        as (pre & p & post & old & Hps & Htext & Hpost & _).
      exists cs, (set_parts (continue_parts t (default [] (parts c))) c), pre, p, post, old.
      unfold role_is in Hc. apply bool_decide_eq_true in Hc.
      split; [done|]. split; [done|]. split; [cbn; by rewrite Hps|].
      split; [done|]. split; [done|]. right. by exists c.
    + exists (cs ++ [c]), (model_entry t), [], (text_part t), [], [].
      cbn. repeat split; by left.
Qed.

(** X5.  [normalizeSystemInstruction] leaves no [system_instruction]
    behind and prefers [systemInstruction] when both are given; it touches
    nothing else, and applying it twice changes nothing more. *)
Theorem normalizeSystemInstruction_result (body : Body) :
  let body' := normalizeSystemInstruction body in
  system_instruction body' = None /\
  systemInstruction body' =
    match systemInstruction body with
    | Some si => Some si
    | None => system_instruction body
    end /\
  contents body' = contents body /\
  generationConfig body' = generationConfig body /\
  normalizeSystemInstruction body' = body'.
Proof.
  cbv zeta. split; [|split; [|split; [|split]]];
    try apply normalize_idempotent; try apply normalize_contents;
    unfold normalizeSystemInstruction;
    destruct (systemInstruction body) eqn:E1, (system_instruction body) eqn:E2; done.
Qed.

(** *** What injectSystemPrompts writes *)

Lemma prompt_for_cons b f :
  b || f = true -> exists c l, prompt_for b f = c :: l.
Proof.
  unfold prompt_for. destruct b, f; try done; intros _; cbn [andb];
    eexists; eexists; vm_compute; reflexivity.
Qed.

Lemma injectSystemPrompts_unfold body config b f :
  injectSystemPrompts body config b f =
    match prompt_for b f with
    | [] => normalizeSystemInstruction body
    | _ :: _ =>
        let newBody :=
          inject_systemInstruction (prompt_for b f) (normalizeSystemInstruction body) in
        match contents newBody with
        | None => newBody
        | Some cs =>
            set_contents (inject_reminder config b (map (inject_content b f) cs)) newBody
        end
    end.
Proof. reflexivity. Qed.

Lemma normalizeSystemInstruction_parts body :
  system_instruction (normalizeSystemInstruction body) = None /\
  generationConfig (normalizeSystemInstruction body) = generationConfig body.
Proof.
  unfold normalizeSystemInstruction.
  destruct (systemInstruction body) eqn:E1, (system_instruction body) eqn:E2; done.
Qed.

Lemma inject_systemInstruction_fields prompt body :
  system_instruction (inject_systemInstruction prompt body) = system_instruction body /\
  contents (inject_systemInstruction prompt body) = contents body /\
  generationConfig (inject_systemInstruction prompt body) = generationConfig body.
Proof.
  unfold inject_systemInstruction.
  destruct (systemInstruction body) as [si|]; [|done].
  destruct (parts si) as [[|p0 ps]|]; try done. by destruct (has_text p0).
Qed.

Lemma inject_systemInstruction_prompt prompt body :
  exists si p0 old,
    systemInstruction (inject_systemInstruction prompt body) = Some si /\
    parts si = Some (p0 :: drop 1 (default [] (systemInstruction body ≫= parts))) /\
    text p0 = Some (old ++ prompt) /\
    role si = systemInstruction body ≫= role.
Proof.
  unfold inject_systemInstruction.
  destruct (systemInstruction body) as [si|]; cbn [mbind option_bind].
  - destruct (parts si) as [[|p0 ps]|] eqn:Hps.
    + exists (set_parts [text_part prompt] si), (text_part prompt), []. done.
    + destruct (has_text p0).
      * exists (set_parts (set_text (text_of p0 ++ sep ++ prompt) p0 :: ps) si),
               (set_text (text_of p0 ++ sep ++ prompt) p0), (text_of p0 ++ sep).
        cbn. by rewrite <- app_assoc.
      * exists (set_parts (text_part prompt :: ps) si), (text_part prompt), []. done.
    + exists (set_parts [text_part prompt] si), (text_part prompt), []. done.
  - exists {| role := None; parts := Some [text_part prompt] |}, (text_part prompt), [].
    done.
Qed.



Lemma alter_length_parts (g : Part -> Part) (i : nat) (ps : list Part) :
  length (alter g i ps) = length ps.
Proof. apply length_alter. Qed.

Lemma inject_content_shape (b f : bool) (c : Content) :
  role (inject_content b f c) = role c /\
  length <$> parts (inject_content b f c) = length <$> parts c /\
  (role c <> Some (js "model") -> inject_content b f c = c).
Proof.
  unfold inject_content. destruct (parts c) as [ps|] eqn:Hps; [|by rewrite Hps].
  cbn [role parts set_parts fmap option_fmap option_map]. split; [done|]. split.
  - f_equal.
    destruct (f && role_is "model" c), (b && role_is "model" c);
      repeat match goal with
             | |- context [match ?x with Some _ => _ | None => _ end] => destruct x
             end; rewrite ?length_alter; done.
  - intros Hrole. unfold role_is. rewrite bool_decide_eq_false_2 by done.
    rewrite !andb_false_r. destruct c. cbn in *. by rewrite Hps.
Qed.

Lemma inject_reminder_shape (config : Config) (b : bool) (cs : list Content) :
  let cs' := inject_reminder config b cs in
  cs' = cs \/
  exists cs0 lc lc',
    cs = cs0 ++ [lc] /\ role lc = Some (js "user") /\ role lc' = role lc /\
    length <$> parts lc' = length <$> parts lc /\
    (cs' = cs0 ++ [lc'] \/ (b = true /\ cs' = cs0 ++ [lc'; seed_entry config])).
Proof.
  cbv zeta. unfold inject_reminder.
  destruct (list.last cs) as [lc|] eqn:E; [|by left].
  apply last_Some in E as [cs0 ->].
  destruct (parts lc) as [[|p ps]|] eqn:Hps; try by left.
  destruct (role_is "user" lc) eqn:Hrole; [|by left].
  destruct (last_index has_nonblank_text (p :: ps)) as [i|]; [|by left].
  right. rewrite insert_last.
  exists cs0, lc,
    (set_parts (alter (fun p => set_text (text_of p ++ sep ++ REMINDER_PROMPT) p) i (p :: ps))
               lc).
  split; [done|].
  unfold role_is in Hrole. apply bool_decide_eq_true in Hrole.
  split; [done|]. split; [reflexivity|]. split.
  - cbn [parts set_parts fmap option_fmap option_map]. rewrite Hps. cbn.
    by rewrite length_alter.
  - destruct b; [right | left]; [split; [done|]|done].
    rewrite <- app_assoc. done.
Qed.

(** X7.  [injectSystemPrompts] keeps the shape of the conversation: every
    entry of the input is still there, at its place, with its role and its
    number of parts; an entry that is not of role model and is not the
    last one is unchanged; and at most one entry is added, after the
    others. *)
Theorem injectSystemPrompts_keeps_entries (body : Body) (config : Config) (b f : bool) :
  let cs := default [] (contents body) in
  let cs' := default [] (contents (injectSystemPrompts body config b f)) in
  length cs <= length cs' <= S (length cs) /\
  (forall i c,
     cs !! i = Some c ->
     exists c', cs' !! i = Some c' /\ role c' = role c /\
                length <$> parts c' = length <$> parts c /\
                (role c <> Some (js "model") -> S i < length cs -> c' = c)).
Proof.
  cbv zeta. rewrite injectSystemPrompts_unfold.
  destruct (prompt_for b f) as [|ch l] eqn:Hp.
  { rewrite normalize_contents. split; [lia|]. intros i c Hc. by exists c. }
  rewrite <- Hp. cbv zeta.
  destruct (inject_systemInstruction_fields (prompt_for b f)
              (normalizeSystemInstruction body)) as (_ & F2 & _).
  rewrite F2, normalize_contents.
  destruct (contents body) as [cs|] eqn:Hcs.
  2:{ rewrite F2, normalize_contents, Hcs. split; [cbn; lia|]. intros i c Hc. done. }
  cbn [contents set_contents default from_option id].
  set (ms := map (inject_content b f) cs).
  assert (Hms : forall i c, cs !! i = Some c ->
            ms !! i = Some (inject_content b f c)).
  { intros i c Hc. unfold ms. by rewrite list_lookup_fmap, Hc. }
  assert (Hlen : length ms = length cs) by (unfold ms; by rewrite length_map).
  pose proof (inject_reminder_shape config b ms) as Hr. cbv zeta in Hr.
  destruct Hr as [-> | (cs0 & lc & lc' & Hms0 & Hrole & Hrole' & Hparts & Hcs')].
  - split; [lia|]. intros i c Hc. exists (inject_content b f c).
    destruct (inject_content_shape b f c) as (R1 & R2 & R3).
    split; [by apply Hms|]. split; [done|]. split; [done|]. intros Hm _. by apply R3.
  - assert (Hlen0 : length cs = S (length cs0)).
    { rewrite <- Hlen, Hms0, length_app. cbn. lia. }
    split.
    { destruct Hcs' as [-> | [_ ->]]; rewrite length_app; cbn; lia. }
    intros i c Hc. pose proof (Hms i c Hc) as Hi.
    destruct (inject_content_shape b f c) as (R1 & R2 & R3).
    assert (Hlt : i < length cs) by (by eapply lookup_lt_Some).
    destruct (decide (i < length cs0)) as [Hi0|Hi0].
    + exists (inject_content b f c). rewrite Hms0, lookup_app_l in Hi by done.
      split.
      { destruct Hcs' as [-> | [_ ->]]; by rewrite lookup_app_l. }
      split; [done|]. split; [done|]. intros Hm _. by apply R3.
    + assert (i = length cs0) by lia. subst i.
      rewrite Hms0, list_lookup_middle in Hi by done. injection Hi as Hlc.
      exists lc'. split.
      { destruct Hcs' as [-> | [_ ->]]; by rewrite list_lookup_middle. }
      rewrite Hrole', Hparts, Hlc. split; [done|]. split; [done|]. lia.
Qed.

Lemma injectSystemPrompts_keeps_entries_witness :
  exists c',
    default [] (contents (injectSystemPrompts demo_model_body (demo_config 3) true true))
      !! 0%nat = Some c' /\
    c' = {| role := Some (js "user"); parts := Some [text_part (js "Hi")] |}.
Proof.
  destruct (proj2 (injectSystemPrompts_keeps_entries demo_model_body (demo_config 3)
                     true true) 0%nat
              {| role := Some (js "user"); parts := Some [text_part (js "Hi")] |} eq_refl)
    as (c' & H1 & _ & _ & H2).
  exists c'. split; [done|]. apply H2; [vm_compute; discriminate | vm_compute; lia].
Defined.

(** *** Markers: round trip, completion, cleaning *)

Lemma first_index_app {A} (f : A -> bool) (pre post : list A) (p : A) :
  f p = true -> forallb (fun x => negb (f x)) pre = true ->
  first_index f (pre ++ p :: post) = Some (length pre).
Proof.
  intros Hp. induction pre as [|x pre IH]; cbn; [by rewrite Hp|].
  intros [Hx Hpre]%andb_true_iff. apply negb_true_iff in Hx. rewrite Hx, IH; done.
Qed.

Lemma last_index_has_text_set (g : Part -> Part) (pre post : list Part) (p : Part) :
  has_text (g p) = true -> forallb (fun x => negb (has_text x)) post = true ->
  last_index has_text (pre ++ g p :: post) = Some (length pre).
Proof. intros. by apply last_index_app. Qed.

Lemma stripMarkers_injected (t : jstr) :
  stripMarkers (BEGIN_TOKEN ++ newline ++ t ++ newline ++ FINISHED_TOKEN) = t.
Proof.
  unfold stripMarkers, cleanFinalText. rewrite clean_begin_remove.
  pose proof (strip_begin_round_trip [] newline (t ++ newline ++ FINISHED_TOKEN)
                eq_refl eq_refl) as H.
  change ([] ++ ?x) with x in H. rewrite H by done.
  pose proof (strip_finish_round_trip t newline [] eq_refl eq_refl) as H'.
  rewrite app_nil_r in H'. by apply H'.
Qed.

(** X8.  The markers that [injectSystemPrompts] writes into a model turn
    of the conversation are the ones that [cleanFinalText] removes: in an
    entry of role model with one part that has text, that text [t] becomes
    the begin marker, a line feed, [t], a line feed and the finish marker,
    and stripping the markers from it gives back [t]. *)
Theorem injected_markers_round_trip (c : Content) (pre post : list Part) (p : Part) :
  role c = Some (js "model") ->
  parts c = Some (pre ++ p :: post) ->
  has_text p = true ->
  forallb (fun x => negb (has_text x)) pre = true ->
  forallb (fun x => negb (has_text x)) post = true ->
  inject_content true true c =
    set_parts
      (pre ++ set_text (BEGIN_TOKEN ++ newline ++ text_of p ++ newline ++ FINISHED_TOKEN) p
           :: post) c
  /\ stripMarkers (BEGIN_TOKEN ++ newline ++ text_of p ++ newline ++ FINISHED_TOKEN)
     = text_of p.
Proof.
  intros Hrole Hparts Hp Hpre Hpost. split; [|apply stripMarkers_injected].
  unfold inject_content. rewrite Hparts. unfold role_is.
  rewrite bool_decide_eq_true_2 by done. cbn [andb].
  rewrite (first_index_app has_text pre post p Hp Hpre), alter_middle.
  rewrite (last_index_app has_text pre post
             (set_text (BEGIN_TOKEN ++ newline ++ text_of p) p));
    [| by rewrite BEGIN_TOKEN_cons | done].
  rewrite alter_middle.
  unfold set_text, text_of.
  cbn [text thought functionCall other default from_option id].
  by rewrite <- !app_assoc.
Qed.

Lemma injected_markers_round_trip_witness :
  inject_content true true
    {| role := Some (js "model"); parts := Some [text_part (js "Once upon a time.")] |} =
    {| role := Some (js "model");
       parts := Some [text_part (BEGIN_TOKEN ++ newline ++ js "Once upon a time."
                                 ++ newline ++ FINISHED_TOKEN)] |}
  /\ stripMarkers (BEGIN_TOKEN ++ newline ++ js "Once upon a time."
                   ++ newline ++ FINISHED_TOKEN) = js "Once upon a time.".
Proof.
  apply (injected_markers_round_trip
           {| role := Some (js "model"); parts := Some [text_part (js "Once upon a time.")] |}
           [] [] (text_part (js "Once upon a time."))); reflexivity.
Defined.

(** X9.  [isResponseComplete] holds exactly of the texts that end with the
    finish marker followed by white space only. *)
Theorem isResponseComplete_iff (text : jstr) :
  isResponseComplete text = true <->
  exists x w, text = x ++ FINISHED_TOKEN ++ w /\ all_space w = true.
Proof.
  rewrite isResponseComplete_tail. rewrite bool_decide_eq_true. split.
  - intros [k Hk]. exists (take k text).
    assert (Hf : finish_tail (drop k text) = true).
    { clear -Hk. revert k Hk. induction text as [|c s IH]; intros k; cbn [first_tail].
      - destruct (finish_tail []) eqn:E; [|done]. intros [= <-]. done.
      - destruct (finish_tail (c :: s)) eqn:E; [intros [= <-]; done|].
        destruct (first_tail finish_tail s) as [k'|]; [|done]. intros [= <-].
        cbn [drop]. by apply IH. }
    apply finish_tail_spec in Hf as (w & Hw & Hsp). exists w.
    split; [|done]. by rewrite <- Hw, take_drop.
  - intros (x & w & -> & Hw).
    destruct (first_tail_bound finish_tail x (FINISHED_TOKEN ++ w)) as (k & Hk & _).
    + apply finish_tail_spec. by exists w.
    + by exists k.
Qed.

Lemma no_marker_no_tail (f : jstr -> bool) (p s : jstr) :
  (forall t, f t = true -> includes p t = true) ->
  includes p s = false -> first_tail f s = None.
Proof.
  intros Hf. induction s as [|c s IH]; cbn [first_tail includes].
  - intros H. destruct (f []) eqn:E; [|done]. apply Hf in E. cbn in E. congruence.
  - intros [H1 H2]%orb_false_iff. destruct (f (c :: s)) eqn:E.
    + apply Hf in E. cbn in E. rewrite H1, H2 in E. done.
    + by rewrite IH.
Qed.

Lemma clean_finish_tail_includes (t : jstr) :
  clean_finish_tail t = true -> includes FINISHED_TOKEN t = true.
Proof.
  unfold clean_finish_tail, finish_tail.
  intros [[H _]%andb_true_iff | H]%orb_true_iff.
  - by apply (includes_drop _ _ 0).
  - destruct t as [|c t]; [done|]. apply andb_true_iff in H as [_ [H _]%andb_true_iff].
    by apply (includes_drop _ (c :: t) 1).
Qed.

(** X10.  A text without markers goes through [cleanFinalText] unchanged,
    whatever the flags. *)
Theorem cleanFinalText_without_markers (text : jstr) (b f : bool) :
  includes BEGIN_TOKEN text = false ->
  includes FINISHED_TOKEN text = false ->
  cleanFinalText text b f = text.
Proof.
  intros Hb Hf. unfold cleanFinalText.
  assert (Hs : regex_remove clean_begin_re text = text).
  { rewrite clean_begin_remove. unfold strip_begin.
    destruct (startsWith BEGIN_TOKEN text) eqn:E.
    - apply (includes_drop _ _ 0) in E. congruence.
    - destruct text as [|c s]; [done|].
      destruct (is_space c && startsWith BEGIN_TOKEN s) eqn:E2; [|done].
      apply andb_true_iff in E2 as [_ E2]. apply (includes_drop _ (c :: s) 1) in E2.
      congruence. }
  assert (Hfin : regex_remove clean_finish_re text = text).
  { rewrite clean_finish_remove.
    by rewrite (no_marker_no_tail _ FINISHED_TOKEN text clean_finish_tail_includes Hf). }
  destruct b, f; by rewrite ?Hs, ?Hfin.
Qed.

Lemma cleanFinalText_without_markers_witness :
  cleanFinalText (js " The answer is 42. ") true true = js " The answer is 42. ".
Proof. apply cleanFinalText_without_markers; reflexivity. Defined.

Lemma strip_begin_drop (s : jstr) : exists j, strip_begin s = drop j s.
Proof.
  unfold strip_begin. destruct (startsWith BEGIN_TOKEN s).
  - rewrite drop_space_alt. destruct (match drop _ s with c :: _ => is_space c | [] => false end).
    + rewrite drop_drop. by eexists.
    + by eexists.
  - destruct s as [|c s]; [by exists 0|].
    destruct (is_space c && startsWith BEGIN_TOKEN s); [|by exists 0].
    rewrite drop_space_alt. destruct (match drop _ s with c :: _ => is_space c | [] => false end).
    + rewrite drop_drop. by exists (S (length BEGIN_TOKEN + 1)).
    + by exists (S (length BEGIN_TOKEN)).
Qed.

(** X11.  [cleanFinalText] only removes: its result is a piece of the
    text, what is cut off before it is empty when the begin marker is not
    to be cleaned, and what is cut off after it is empty when the finish
    marker is not to be cleaned. *)
Theorem cleanFinalText_only_removes (text : jstr) (b f : bool) :
  exists u v, text = u ++ cleanFinalText text b f ++ v /\
              (b = false -> u = []) /\ (f = false -> v = []).
Proof.
  unfold cleanFinalText.
  assert (Hfin : forall s, exists v, s = regex_remove clean_finish_re s ++ v).
  { intros s. rewrite clean_finish_remove.
    destruct (first_tail clean_finish_tail s) as [k|].
    - exists (drop k s). by rewrite take_drop.
    - exists []. by rewrite app_nil_r. }
  assert (Hbeg : forall s, exists u, s = u ++ regex_remove clean_begin_re s).
  { intros s. rewrite clean_begin_remove. destruct (strip_begin_drop s) as [j ->].
    exists (take j s). by rewrite take_drop. }
  destruct b, f.
  - destruct (Hbeg text) as [u Hu]. destruct (Hfin (regex_remove clean_begin_re text)) as [v Hv].
    exists u, v. split; [|done]. by rewrite <- Hv.
  - destruct (Hbeg text) as [u Hu]. exists u, []. by rewrite app_nil_r.
  - destruct (Hfin text) as [v Hv]. by exists [], v.
  - exists [], []. by rewrite app_nil_r.
Qed.

(** *** Bounds and edge cases of the handlers *)


Lemma loop_sent_bound config upstream remaining attempts currentBody st sent0 :
  length (sent (nonStreamingLoop config upstream remaining attempts currentBody st sent0))
  <= length sent0 + remaining.
Proof.
  revert attempts currentBody st sent0.
  induction remaining as [|n IH]; intros attempts currentBody st sent0.
  - cbn. lia.
  - cbn [nonStreamingLoop].
    assert (Hrec : forall a b s,
      length (sent (nonStreamingLoop config upstream n a b s (sent0 ++ [currentBody])))
      <= length sent0 + S n).
    { intros a b s. etrans; [apply IH|]. rewrite length_app. cbn. lia. }
    assert (Hnow : length (sent0 ++ [currentBody]) <= length sent0 + S n)
      by (rewrite length_app; cbn; lia).
    destruct (upstream (attempts + 1)%Z currentBody) as [msg | json | status txt].
    + destruct (_ >? _)%Z; [exact Hnow | apply Hrec].
    + destruct (existsb _ _); [exact Hnow|].
      destruct (is_complete _); [|apply Hrec].
      destruct (assign_parts _ _); [exact Hnow|].
      destruct (_ >? _)%Z; [exact Hnow | apply Hrec].
    + destruct (status_in FATAL_STATUS_CODES status); [exact Hnow|].
      destruct (_ >? _)%Z; [exact Hnow | apply Hrec].
Qed.

Lemma stream_loop_sent_bound parse stringify config upstream inj remaining attempts
    currentBody fin out sent0 :
  length (stream_sent (streamingLoop parse stringify config upstream inj remaining attempts
                         currentBody fin out sent0))
  <= length sent0 + remaining.
Proof.
  revert attempts currentBody fin out sent0.
  induction remaining as [|n IH]; intros attempts currentBody fin out sent0.
  - cbn. lia.
  - cbn [streamingLoop].
    assert (Hrec : forall a b f o,
      length (stream_sent (streamingLoop parse stringify config upstream inj n a b f o
                             (sent0 ++ [currentBody])))
      <= length sent0 + S n).
    { intros a b f o. etrans; [apply IH|]. rewrite length_app. cbn. lia. }
    assert (Hnow : length (sent0 ++ [currentBody]) <= length sent0 + S n)
      by (rewrite length_app; cbn; lia).
    destruct (upstream (attempts + 1)%Z currentBody) as [msg | chunks | status txt].
    + destruct (_ >? _)%Z; [exact Hnow | apply Hrec].
    + destruct (run_attempt _ _ _ _) as [[payload | accumulated | |] st'];
        [exact Hnow | apply Hrec | exact Hnow |].
      destruct (_ >? _)%Z; [exact Hnow | apply Hrec].
    + destruct (status_in FATAL_STATUS_CODES status); [exact Hnow|].
      destruct (_ >? _)%Z; [exact Hnow | apply Hrec].
Qed.



Lemma loop_function_call config upstream remaining attempts currentBody st sent0 :
  let o := nonStreamingLoop config upstream remaining attempts currentBody st sent0 in
  ending o = EndFunctionCall ->
  exists a b json,
    upstream a b = FetchOk json /\
    existsb has_functionCall (default [] (candidate_parts json)) = true /\
    response o = JsonResponse 200 json /\
    list.last (sent o) = Some b.
Proof.
  revert attempts currentBody st sent0.
  induction remaining as [|n IH]; intros attempts currentBody st sent0; cbn zeta.
  - done.
  - cbn [nonStreamingLoop].
    destruct (upstream (attempts + 1)%Z currentBody) as [msg | json | status txt] eqn:Hup.
    + destruct (_ >? _)%Z; [done | apply IH].
    + destruct (existsb _ _) eqn:Hfc.
      * intros _. exists (attempts + 1)%Z, currentBody, json.
        cbn. by rewrite last_snoc.
      * destruct (is_complete _); [|apply IH].
        destruct (assign_parts _ _); [done|].
        destruct (_ >? _)%Z; [done | apply IH].
    + destruct (status_in FATAL_STATUS_CODES status); [done|].
      destruct (_ >? _)%Z; [done | apply IH].
Qed.

(** X14.  When the non-streaming handler ends on a function call, what it
    returns is, with status 200, the JSON document that the upstream gave
    to the last request sent, as it is: nothing accumulated before is
    added and no marker is stripped. *)
Theorem function_call_returned_as_is (config : Config) (upstream : Upstream)
    (request : Request) :
  let o := handleNonStreamingRequest config upstream request in
  ending o = EndFunctionCall ->
  exists attempts requestBody json,
    upstream attempts requestBody = FetchOk json /\
    existsb has_functionCall (default [] (candidate_parts json)) = true /\
    response o = JsonResponse 200 json /\
    list.last (sent o) = Some requestBody.
Proof.
  cbv zeta. unfold handleNonStreamingRequest.
  destruct (negb _); [done|]. destruct (isStructuredOutputRequest _); [done|].
  apply loop_function_call.
Qed.

Lemma function_call_returned_as_is_witness :
  exists attempts requestBody json,
    (fun (_ : Z) (_ : Body) => FetchOk demo_call_response) attempts requestBody
      = FetchOk json /\
    existsb has_functionCall (default [] (candidate_parts json)) = true /\
    response (handleNonStreamingRequest (demo_config 3)
                (fun _ _ => FetchOk demo_call_response) (demo_request ":generateContent"))
      = JsonResponse 200 json.
Proof.
  destruct (function_call_returned_as_is (demo_config 3)
              (fun _ _ => FetchOk demo_call_response) (demo_request ":generateContent")
              eq_refl) as (a & b & json & H1 & H2 & H3 & _).
  by exists a, b, json.
Defined.

Lemma stream_loop_truncated parse stringify config upstream inj :
  always_truncated parse stringify upstream ->
  forall remaining attempts currentBody fin out sent0,
    exists ws,
      let o := streamingLoop parse stringify config upstream inj remaining attempts
                 currentBody fin out sent0 in
      writes o = ws ++ [reference_error] /\
      length (stream_sent o) = length sent0 + remaining.
Proof.
  intros Hup. induction remaining as [|n IH]; intros attempts currentBody fin out sent0.
  - exists out. cbn. split; [done | lia].
  - cbn [streamingLoop].
    destruct (Hup (attempts + 1)%Z currentBody) as (chunks & -> & Hrun).
    destruct (Hrun (if inj && (attempts + 1 =? 1)%Z then startOfThought config else [])
                fin out) as (accumulated & st' & ->).
    destruct (IH (attempts + 1)%Z (buildRetryRequest currentBody accumulated)
                (thoughtFinished st') (written st') (sent0 ++ [currentBody]))
      as (ws & H1 & H2).
    exists ws. cbv zeta in *. split; [exact H1|]. rewrite H2, length_app. cbn. lia.
Qed.

(** X15.  A streaming request whose every attempt ends truncated does not
    end with the incomplete marker: after [maxRetries + 1] upstream calls
    the statements that follow the loop read [linesBuffer], a variable of
    the loop body, and the caller receives the error event of the worker,
    "linesBuffer is not defined", as the last event. *)
Theorem streaming_exhaustion_is_an_error parse stringify (config : Config)
    (upstream : StreamUpstream) (request : Request) :
  engine_request ":streamGenerateContent" request ->
  always_truncated parse stringify upstream ->
  exists o ws,
    handleStreamingRequest parse stringify config upstream request = Some o /\
    writes o = ws ++ [reference_error] /\
    length (stream_sent o) = Z.to_nat (maxRetries config + 1).
Proof.
  intros Hreq Hup. rewrite handle_stream_engine by done.
  destruct (stream_loop_truncated parse stringify config upstream
              (injectBeginTokenPrompt_of (body request)) Hup
              (Z.to_nat (maxRetries config + 1)) 0%Z (engine_body config request)
              (negb (injectBeginTokenPrompt_of (body request))) [] []) as (ws & H1 & H2).
  eexists _, ws. split; [done|]. split; [exact H1|]. by rewrite H2.
Qed.

Lemma empty_stream_truncated parse stringify :
  always_truncated parse stringify (fun _ _ => StreamOk []).
Proof.
  intros a b. exists []. split; [done|]. intros seed fin out.
  unfold run_attempt. cbn [read_chunks]. unfold on_done.
  cbn [attempt_start passthroughMode thoughtFinished textBuffer].
  replace (isResponseComplete []) with false by reflexivity.
  rewrite andb_false_r. by eexists _, _.
Qed.

Lemma streaming_exhaustion_is_an_error_witness :
  exists o ws,
    handleStreamingRequest demo_parse demo_stringify (demo_config 2)
      (fun _ _ => StreamOk []) (demo_request ":streamGenerateContent") = Some o /\
    writes o = ws ++ [reference_error] /\
    length (stream_sent o) = 3.
Proof.
  apply (streaming_exhaustion_is_an_error demo_parse demo_stringify (demo_config 2)
           (fun _ _ => StreamOk []) (demo_request ":streamGenerateContent")).
  - split; reflexivity.
  - apply empty_stream_truncated.
Defined.

(** X16.  With a negative [maxRetries] no upstream call is made at all:
    the non-streaming handler answers at once, with status 200, the
    best-effort response made of the seed phrase and the incomplete marker,
    and the streaming handler writes the error event of the worker. *)
Theorem negative_maxRetries (config : Config) (request : Request) :
  (maxRetries config < 0)%Z ->
  (engine_request ":generateContent" request ->
   forall upstream,
     handleNonStreamingRequest config upstream request =
       {| response := JsonResponse 200 (exhausted_json (engine_acc config request));
          sent := []; ending := EndExhausted; acc := engine_acc config request |}) /\
  (engine_request ":streamGenerateContent" request ->
   forall parse stringify upstream,
     handleStreamingRequest parse stringify config upstream request =
       Some {| writes := [reference_error]; stream_sent := [] |}).
Proof.
  intros Hneg. split.
  - intros Hreq upstream. rewrite handle_engine by done.
    replace (Z.to_nat (maxRetries config + 1)) with 0 by lia. done.
  - intros Hreq parse stringify upstream. rewrite handle_stream_engine by done.
    replace (Z.to_nat (maxRetries config + 1)) with 0 by lia. done.
Qed.

Lemma negative_maxRetries_witness :
  response (handleNonStreamingRequest (demo_config (-1)) (fun _ _ => FetchOk demo_truncated)
              (demo_request ":generateContent")) =
    JsonResponse 200
      {| candidate_parts :=
           Some [thought_part (js "Here's a"); text_part (newline ++ INCOMPLETE_TOKEN)];
         content_role := None; finishReason := Some (js "MAX_RETRIES");
         index := None; metadata := None |}.
Proof.
  rewrite (proj1 (negative_maxRetries (demo_config (-1)) (demo_request ":generateContent")
                    eq_refl) (conj eq_refl eq_refl)).
  reflexivity.
Defined.

(** *** The lookahead pass and passthrough mode *)


Lemma demo_buffered_ok : buffers_ok demo_parse demo_buffered.
Proof.
  split.
  - repeat constructor; try reflexivity;
      (eexists; split; [vm_compute; reflexivity | intros [=]]).
  - intros _. split; [reflexivity|]. split; [|reflexivity].
    repeat constructor; intros [=].
Qed.


Example lookahead_demo :
  (fun st => (linesBuffer <$> st, written <$> st))
    (match lookahead demo_parse demo_buffered with
     | Continue st' => Some st'
     | Thrown _ => None
     end) =
  (Some [ {| rawLine := demo_line "{'text':' is 42.[RESPONSE_FINISHED]'}";
             isTransitionLine := false; lo_text := js " is 42.[RESPONSE_FINISHED]" |} ],
   Some [ WData (seed_payload (js "Here's a"));
          WRaw (demo_line "{'text':'Let me think.','thought':true}" ++ nn) ]).
Proof. vm_compute. reflexivity. Qed.

Lemma written_fold_write (chunks : list jstr) : forall st,
  written (fold_left (fun st chunk => write (WRaw chunk) st) chunks st) =
    written st ++ map WRaw chunks.
Proof.
  induction chunks as [|c cs IH]; intros st; cbn [fold_left map].
  - by rewrite app_nil_r.
  - rewrite IH. cbn [write written]. by rewrite <- app_assoc.
Qed.

(** X18.  Once an event with a function call has been read on an attempt,
    the buffered events are written as they were stored, then the event
    itself, and every chunk read after that is written as it comes; the
    attempt ends by closing the stream, with no retry. *)
Theorem function_call_then_passthrough JSON_parse JSON_stringify (st : StreamState)
    (line : jstr) (data : ResponseJson) (chunks : list jstr) :
  startsWith (js "data:") line = true ->
  trim (drop 5 line) <> [] ->
  parse_line JSON_parse line = Some data ->
  hasFunctionCall (parseParts (Some (default [] (candidate_parts data)))) = true ->
  passthroughMode st = false ->
  exists st',
    run_attempt JSON_parse JSON_stringify (process_line JSON_parse JSON_stringify st line)
      chunks = (Closed, st') /\
    written st' =
      written st ++ map (fun lineObj => WRaw (rawLine lineObj ++ nn)) (linesBuffer st)
      ++ [WRaw (line ++ nn)] ++ map WRaw chunks.
Proof.
  intros Hs Hne Hp Hfc Hpass.
  destruct (function_call_flushes JSON_parse JSON_stringify st line data Hs Hne Hp Hfc Hpass)
    as (Hpt & _ & Hw).
  eexists. split; [by apply passthrough_forwards|].
  rewrite written_fold_write, Hw. by rewrite <- !app_assoc.
Qed.

Lemma function_call_then_passthrough_witness :
  exists st',
    run_attempt demo_parse demo_stringify
      (process_line demo_parse demo_stringify demo_buffered
         (demo_line "{'functionCall':{'name':'get_weather','args':{}}}"))
      [js "data: x"; nn ++ js ": ping"] = (Closed, st') /\
    written st' =
      written demo_buffered
      ++ map (fun lineObj => WRaw (rawLine lineObj ++ nn)) (linesBuffer demo_buffered)
      ++ [WRaw (demo_line "{'functionCall':{'name':'get_weather','args':{}}}" ++ nn)]
      ++ map WRaw [js "data: x"; nn ++ js ": ping"].
Proof.
  apply (function_call_then_passthrough demo_parse demo_stringify demo_buffered
           (demo_line "{'functionCall':{'name':'get_weather','args':{}}}")
           (demo_event [ {| text := None; thought := None;
                            functionCall := Some (jsq "{'name':'get_weather','args':{}}");
                            other := None |} ]));
    [reflexivity | vm_compute; discriminate | vm_compute; reflexivity
    | reflexivity | reflexivity].
Defined.

(** *** A truncated answer is resumed and joined *)

Lemma started_newline (t : jstr) :
  isFormalResponseStarted (BEGIN_TOKEN ++ newline ++ t) = true.
Proof.
  rewrite begin_char, startsWith_app, drop_app_length. done.
Qed.

Lemma complete_snoc_finished (x : jstr) :
  isResponseComplete (x ++ FINISHED_TOKEN) = true.
Proof.
  rewrite isResponseComplete_tail. rewrite bool_decide_eq_true.
  destruct (first_tail_bound finish_tail x (FINISHED_TOKEN ++ [])) as (k & Hk & _).
  - apply finish_tail_spec. by exists [].
  - rewrite app_nil_r in Hk. by exists k.
Qed.

Lemma accumulate_one_text (st : Acc) (t : jstr) :
  t <> [] ->
  accumulate st [text_part t] =
    if isThoughtFinished st
    then {| thoughtAccumulatedText := thoughtAccumulatedText st;
            formalAccumulatedText := formalAccumulatedText st ++ t;
            isThoughtFinished := true |}
    else if isFormalResponseStarted t
         then {| thoughtAccumulatedText := thoughtAccumulatedText st;
                 formalAccumulatedText := formalAccumulatedText st ++ t;
                 isThoughtFinished := true |}
         else {| thoughtAccumulatedText := thoughtAccumulatedText st ++ t;
                 formalAccumulatedText := formalAccumulatedText st;
                 isThoughtFinished := false |}.
Proof.
  intros Ht. unfold accumulate, accumulate_part. cbn [fold_left].
  replace (has_text (text_part t)) with true by (destruct t; done).
  cbn [is_thought text_part thought negb andb text_of text default from_option id].
  destruct (isThoughtFinished st) eqn:E; cbn [negb]; [done|].
  by destruct (isFormalResponseStarted t).
Qed.

(** X19.  The engine at work, without thinking budget of 0.  When the first
    upstream response holds the whole answer as one text -- the begin
    marker, a line feed, the answer, the finish marker -- the handler makes
    one call and returns that response with two parts: the seed phrase as
    thought and the answer.  When the first response stops short and the
    second one, given to the continuation request, brings the rest and the
    finish marker, the handler makes two calls and returns the second
    response with the seed phrase and the two pieces joined.  (The answer
    must not end with white space, which would be stripped with the
    marker.) *)
Theorem answer_resumed_and_joined (config : Config) (upstream : Upstream)
    (request : Request) :
  engine_request ":generateContent" request ->
  injectBeginTokenPrompt_of (body request) = true ->
  (forall json t,
     (0 <= maxRetries config)%Z ->
     upstream 1%Z (engine_body config request) = FetchOk json ->
     one_text_response json (BEGIN_TOKEN ++ newline ++ t ++ FINISHED_TOKEN) ->
     ends_with_space t = false ->
     let o := handleNonStreamingRequest config upstream request in
     response o = JsonResponse 200 (completed_response json (startOfThought config) t) /\
     sent o = [engine_body config request])
  /\
  (forall json1 json2 t1 t2,
     (1 <= maxRetries config)%Z ->
     upstream 1%Z (engine_body config request) = FetchOk json1 ->
     one_text_response json1 (BEGIN_TOKEN ++ newline ++ t1) ->
     isResponseComplete (BEGIN_TOKEN ++ newline ++ t1) = false ->
     let continuation :=
       buildRetryRequest (engine_body config request)
         (startOfThought config ++ BEGIN_TOKEN ++ newline ++ t1) in
     upstream 2%Z continuation = FetchOk json2 ->
     one_text_response json2 (t2 ++ FINISHED_TOKEN) ->
     ends_with_space (t1 ++ t2) = false ->
     let o := handleNonStreamingRequest config upstream request in
     response o =
       JsonResponse 200 (completed_response json2 (startOfThought config) (t1 ++ t2)) /\
     sent o = [engine_body config request; continuation]).
Proof.
  intros Hreq Hinj.
  assert (Hacc : engine_acc config request =
                 {| thoughtAccumulatedText := startOfThought config;
                    formalAccumulatedText := []; isThoughtFinished := false |}).
  { unfold engine_acc. by rewrite Hinj. }
  assert (Hstrip : forall t, ends_with_space t = false ->
            stripMarkers (BEGIN_TOKEN ++ newline ++ t ++ FINISHED_TOKEN) = t).
  { intros t Ht. unfold stripMarkers, cleanFinalText. rewrite clean_begin_remove.
    pose proof (strip_begin_round_trip [] newline (t ++ FINISHED_TOKEN) eq_refl eq_refl)
      as H.
    change ([] ++ ?x) with x in H. rewrite H by done.
    pose proof (strip_finish_round_trip t [] [] eq_refl eq_refl) as H'.
    cbn [app] in H'. rewrite app_nil_r in H'. by apply H'. }
  split.
  - intros json t Hmax Hup Hjson Ht o.
    enough (Ho : o =
      {| response :=
           JsonResponse 200 (completed_response json (startOfThought config) t);
         sent := [engine_body config request]; ending := EndComplete;
         acc := {| thoughtAccumulatedText := startOfThought config;
                   formalAccumulatedText := BEGIN_TOKEN ++ newline ++ t ++ FINISHED_TOKEN;
                   isThoughtFinished := true |} |}) by (by rewrite Ho).
    subst o. rewrite handle_engine by done.
    destruct (Z.to_nat (maxRetries config + 1)) as [|n] eqn:En; [lia|].
    cbn [nonStreamingLoop]. change (0 + 1)%Z with 1%Z. rewrite Hup.
    unfold one_text_response in Hjson. rewrite Hjson.
    cbn [default from_option id existsb has_functionCall text_part functionCall orb].
    rewrite accumulate_one_text by (rewrite BEGIN_TOKEN_cons; done).
    rewrite Hacc. cbn [isThoughtFinished thoughtAccumulatedText formalAccumulatedText app].
    rewrite started_newline. unfold is_complete.
    cbn [isThoughtFinished formalAccumulatedText andb].
    rewrite (app_assoc BEGIN_TOKEN), (app_assoc (BEGIN_TOKEN ++ newline)).
    rewrite complete_snoc_finished. rewrite <- !app_assoc.
    unfold assign_parts. rewrite Hjson. unfold complete_parts.
    cbn [thoughtAccumulatedText formalAccumulatedText app].
    rewrite Hstrip by done. done.
  - intros json1 json2 t1 t2 Hmax Hup1 Hjson1 Hinc continuation Hup2 Hjson2 Ht o.
    enough (Ho : o =
      {| response :=
           JsonResponse 200 (completed_response json2 (startOfThought config) (t1 ++ t2));
         sent := [engine_body config request; continuation]; ending := EndComplete;
         acc := {| thoughtAccumulatedText := startOfThought config;
                   formalAccumulatedText :=
                     BEGIN_TOKEN ++ newline ++ (t1 ++ t2) ++ FINISHED_TOKEN;
                   isThoughtFinished := true |} |}) by (by rewrite Ho).
    subst o. rewrite handle_engine by done.
    destruct (Z.to_nat (maxRetries config + 1)) as [|[|n]] eqn:En; [lia | lia |].
    cbn [nonStreamingLoop]. change (0 + 1)%Z with 1%Z. rewrite Hup1.
    unfold one_text_response in Hjson1, Hjson2. rewrite Hjson1.
    cbn [default from_option id existsb has_functionCall text_part functionCall orb].
    rewrite accumulate_one_text by (rewrite BEGIN_TOKEN_cons; done).
    rewrite Hacc. cbn [isThoughtFinished thoughtAccumulatedText formalAccumulatedText app].
    rewrite started_newline. unfold is_complete at 1.
    cbn [isThoughtFinished formalAccumulatedText andb].
    rewrite Hinc.
    cbn [thoughtAccumulatedText formalAccumulatedText].
    change (1 + 1)%Z with 2%Z. fold continuation. rewrite Hup2, Hjson2.
    cbn [default from_option id existsb has_functionCall text_part functionCall orb].
    assert (Hne : t2 ++ FINISHED_TOKEN <> []).
    { rewrite FINISHED_TOKEN_cons. by destruct t2. }
    rewrite accumulate_one_text by done.
    cbn [isThoughtFinished thoughtAccumulatedText formalAccumulatedText app].
    unfold is_complete. cbn [isThoughtFinished formalAccumulatedText andb].
    replace ((BEGIN_TOKEN ++ newline ++ t1) ++ t2 ++ FINISHED_TOKEN)
      with (BEGIN_TOKEN ++ newline ++ (t1 ++ t2) ++ FINISHED_TOKEN)
      by (by rewrite <- !app_assoc).
    rewrite (app_assoc BEGIN_TOKEN), (app_assoc (BEGIN_TOKEN ++ newline)).
    rewrite complete_snoc_finished. rewrite <- !app_assoc.
    unfold assign_parts. rewrite Hjson2. unfold complete_parts.
    cbn [thoughtAccumulatedText formalAccumulatedText app].
    rewrite (app_assoc t1 t2), Hstrip by done. by rewrite <- !app_assoc.
Qed.

Lemma answer_resumed_and_joined_witness :
  response (handleNonStreamingRequest (demo_config 3) demo_resuming
              (demo_request ":generateContent")) =
    JsonResponse 200
      (demo_event [thought_part (js "Here's a"); text_part (js "Once upon a time.")])
  /\
  sent (handleNonStreamingRequest (demo_config 3) demo_resuming
          (demo_request ":generateContent")) =
    [ engine_body (demo_config 3) (demo_request ":generateContent");
      buildRetryRequest (engine_body (demo_config 3) (demo_request ":generateContent"))
        (js "Here's a" ++ BEGIN_TOKEN ++ newline ++ js "Once upon") ].
Proof.
  apply (proj2 (answer_resumed_and_joined (demo_config 3) demo_resuming
                  (demo_request ":generateContent") (conj eq_refl eq_refl) eq_refl)
           (demo_event [text_part (BEGIN_TOKEN ++ newline ++ js "Once upon")])
           (demo_event [text_part (js " a time." ++ FINISHED_TOKEN)])
           (js "Once upon") (js " a time."));
    try reflexivity.
  vm_compute. discriminate.
Defined.

(** *** The configuration and the entry point *)

Lemma digit_not_space (c : char) :
  is_digit c = true -> is_space c = false /\ (c =? 45)%N = false /\ (c =? 43)%N = false.
Proof.
  unfold is_digit. intros [H1 H2]%andb_true_iff.
  apply N.leb_le in H1. apply N.leb_le in H2.
  assert (Hc : In c [48; 49; 50; 51; 52; 53; 54; 55; 56; 57]%N).
  { cbn. lia. }
  cbn in Hc.
  repeat (destruct Hc as [<-|Hc]; [by vm_compute|]). done.
Qed.

Lemma trimStart_spaces (ws s : jstr) :
  forallb is_space ws = true -> trimStart (ws ++ s) = trimStart s.
Proof.
  induction ws as [|c ws IH]; [done|]. cbn [forallb app trimStart].
  intros [-> H]%andb_true_iff. by apply IH.
Qed.

Lemma leading_digits_app (ds rest : jstr) :
  forallb is_digit ds = true ->
  leading_digits rest = [] ->
  leading_digits (ds ++ rest) = ds.
Proof.
  intros Hd Hr. induction ds as [|c ds IH]; [done|].
  cbn [forallb] in Hd. apply andb_true_iff in Hd as [Hc Hd].
  cbn [app leading_digits]. rewrite Hc. f_equal. by apply IH.
Qed.

Lemma decimal_snoc (ds : jstr) (d : char) :
  decimal (ds ++ [d]) = (10 * decimal ds + digit_value d)%Z.
Proof. unfold decimal. by rewrite fold_left_app. Qed.

Lemma decimal_nonneg (ds : jstr) : (0 <= decimal ds)%Z.
Proof.
  induction ds as [|d ds IH] using rev_ind; [done|].
  rewrite decimal_snoc. unfold digit_value. lia.
Qed.

Lemma parseInt10_unsigned (ws ds rest : jstr) :
  forallb is_space ws = true -> forallb is_digit ds = true -> ds <> [] ->
  leading_digits rest = [] ->
  parseInt10 (Some (ws ++ ds ++ rest)) = Some (decimal ds).
Proof.
  intros Hw Hd Hne Hr. unfold parseInt10. cbn [default from_option id].
  rewrite trimStart_spaces by done.
  destruct ds as [|c ds]; [done|]. cbn [forallb] in Hd.
  apply andb_true_iff in Hd as [Hc Hd].
  destruct (digit_not_space c Hc) as (Hs & Hm & Hp).
  cbn [app trimStart]. rewrite Hs, Hm, Hp.
  change (c :: ds ++ rest) with ((c :: ds) ++ rest).
  rewrite leading_digits_app; [|by cbn; rewrite Hc|done].
  f_equal. lia.
Qed.

Lemma parseInt10_signed (ws ds rest : jstr) (c : char) :
  forallb is_space ws = true -> forallb is_digit ds = true -> ds <> [] ->
  leading_digits rest = [] ->
  c = 45%N \/ c = 43%N ->
  parseInt10 (Some (ws ++ c :: ds ++ rest)) =
    Some ((if (c =? 45)%N then -1 else 1) * decimal ds)%Z.
Proof.
  intros Hw Hd Hne Hr Hc. unfold parseInt10. cbn [default from_option id].
  rewrite trimStart_spaces by done.
  assert (Hs : is_space c = false) by (by destruct Hc as [-> | ->]).
  cbn [trimStart]. rewrite Hs.
  destruct ds as [|d ds]; [done|].
  destruct Hc as [-> | ->]; cbn [N.eqb Pos.eqb];
    by rewrite leading_digits_app.
Qed.

Lemma parseInt10_sign_no_digit (ws rest : jstr) (c : char) :
  forallb is_space ws = true ->
  leading_digits rest = [] ->
  c = 45%N \/ c = 43%N ->
  parseInt10 (Some (ws ++ c :: rest)) = None.
Proof.
  intros Hw Hr Hc. unfold parseInt10. cbn [default from_option id].
  rewrite trimStart_spaces by done.
  assert (Hs : is_space c = false) by (by destruct Hc as [-> | ->]).
  cbn [trimStart]. rewrite Hs.
  by destruct Hc as [-> | ->]; cbn [N.eqb Pos.eqb]; rewrite Hr.
Qed.

Lemma parseInt10_other (ws rest : jstr) (c : char) :
  forallb is_space ws = true ->
  is_space c = false -> is_digit c = false -> c <> 45%N -> c <> 43%N ->
  parseInt10 (Some (ws ++ c :: rest)) = None.
Proof.
  intros Hw Hs Hd Hm Hp. unfold parseInt10. cbn [default from_option id].
  rewrite trimStart_spaces by done. cbn [trimStart]. rewrite Hs.
  apply N.eqb_neq in Hm, Hp. rewrite Hm, Hp. cbn [leading_digits]. by rewrite Hd.
Qed.

Lemma parseInt10_blank (ws : jstr) :
  forallb is_space ws = true -> parseInt10 (Some ws) = None.
Proof.
  intros Hw. unfold parseInt10. cbn [default from_option id].
  rewrite <- (app_nil_r ws), trimStart_spaces by done. done.
Qed.



Lemma or_default_nonempty (v : option jstr) (d : jstr) : d <> [] -> or_default v d <> [].
Proof. intros Hd. by destruct v as [[|c s]|]. Qed.


Example parseConfig_demo :
  parseConfig {| UPSTREAM_URL_BASE := None; MAX_RETRIES := Some (js "0");
                 DEBUG_MODE := Some (js "TRUE"); START_OF_THOUGHT := Some [] |} =
    demo_config 3.
Proof. reflexivity. Qed.

Lemma includes_nil (s : jstr) : includes [] s = true.
Proof. by destruct s. Qed.

Lemma includes_trans (p q s : jstr) :
  includes p q = true -> includes q s = true -> includes p s = true.
Proof.
  intros [j Hj]%includes_witness [i Hi]%includes_witness.
  apply startsWith_spec in Hi as [t Hi].
  destruct (decide (j <= length q)) as [Hle|Hgt].
  - apply (includes_drop p s (i + j)).
    rewrite <- drop_drop, Hi, drop_app_le by done.
    apply startsWith_spec in Hj as [u ->]. rewrite <- app_assoc. apply startsWith_app.
  - rewrite drop_ge in Hj by lia. destruct p; [apply includes_nil | done].
Qed.

Lemma includes_app_r (p u v : jstr) : includes p v = true -> includes p (u ++ v) = true.
Proof.
  intros H. apply (includes_suffix p (u ++ v) (length u)). by rewrite drop_app_length.
Qed.

Lemma stream_target_pathname (request : Request) :
  isTargetModel ":streamGenerateContent" request = true ->
  includes (js ":stream") (pathname request) = true.
Proof.
  unfold isTargetModel. intros [model [_ H]]%existsb_exists.
  eapply includes_trans; [|exact H].
  rewrite app_assoc. by apply includes_app_r.
Qed.

(** X22.  The entry point: without an API key, in the URL or in the
    header, every request is answered 403, a preflight OPTIONS request
    too; with a key, a POST for the streaming method of a target model is
    always given to the streaming engine, and a POST whose path has no
    ":stream" and whose [alt] is not "sse" to the non-streaming handler;
    the configuration is the one read from the environment. *)
Theorem fetch_routes JSON_parse JSON_stringify (env : Env) (upstream : Upstream)
    (stream_upstream : StreamUpstream) (request : Incoming) :
  let reply := fetch JSON_parse JSON_stringify env upstream stream_upstream request in
  (nonempty (key_param request) = false -> nonempty (goog_api_key request) = false ->
   reply = ReplyError 403 (js "Forbidden") (js "Gemini API key not detected")) /\
  (nonempty (key_param request) || nonempty (goog_api_key request) = true ->
   in_method request = js "POST" ->
   (engine_request ":streamGenerateContent" (in_request request) ->
    reply =
      ReplyStreaming
        (Some (streamingLoop JSON_parse JSON_stringify (parseConfig env) stream_upstream
                 (injectBeginTokenPrompt_of (body (in_request request)))
                 (Z.to_nat (maxRetries (parseConfig env) + 1)) 0
                 (engine_body (parseConfig env) (in_request request))
                 (negb (injectBeginTokenPrompt_of (body (in_request request)))) [] []))) /\
   (includes (js ":stream") (pathname (in_request request)) = false ->
    alt_param request <> Some (js "sse") ->
    reply =
      ReplyNonStreaming
        (handleNonStreamingRequest (parseConfig env) upstream (in_request request)))).
Proof.
  cbv zeta. unfold fetch. split.
  - intros -> ->. done.
  - intros -> ->. cbn [negb].
    rewrite (bool_decide_eq_false_2 (js "POST" = js "OPTIONS")) by discriminate.
    rewrite bool_decide_eq_true_2 by done. split.
    + intros Hreq. rewrite (stream_target_pathname _ (proj1 Hreq)). cbn [orb].
      by rewrite handle_stream_engine.
    + intros -> Halt. by rewrite bool_decide_eq_false_2.
Qed.

Lemma fetch_routes_witness :
  engine_request ":streamGenerateContent" (in_request (demo_incoming ":streamGenerateContent" None)) /\
  fetch demo_parse demo_stringify (mkEnv None None None None)
    (fun _ _ => FetchOk demo_truncated) (fun _ _ => StreamOk demo_chunks)
    (demo_incoming ":streamGenerateContent" None) =
  ReplyStreaming
    (Some (streamingLoop demo_parse demo_stringify (demo_config 3)
             (fun _ _ => StreamOk demo_chunks) true 4 0
             (engine_body (demo_config 3)
                (in_request (demo_incoming ":streamGenerateContent" None)))
             false [] [])).
Proof.
  assert (Hreq : engine_request ":streamGenerateContent"
                   (in_request (demo_incoming ":streamGenerateContent" None))).
  { split; reflexivity. }
  split; [exact Hreq|].
  exact (proj1 (proj2 (fetch_routes demo_parse demo_stringify (mkEnv None None None None)
                         (fun _ _ => FetchOk demo_truncated) (fun _ _ => StreamOk demo_chunks)
                         (demo_incoming ":streamGenerateContent" None))
                  eq_refl eq_refl) Hreq).
Defined.

(** X23.  A POST whose URL has [alt=sse] but no ":stream" in its path is
    sent to the streaming handler, which never recognises it: the request
    is forwarded to the upstream as it is, also when it asks a target model
    to generate content, a request the engine processes without [alt=sse]. *)
Theorem alt_sse_bypasses_engine JSON_parse JSON_stringify (env : Env) (upstream : Upstream)
    (stream_upstream : StreamUpstream) (request : Incoming) :
  nonempty (key_param request) || nonempty (goog_api_key request) = true ->
  in_method request = js "POST" ->
  alt_param request = Some (js "sse") ->
  includes (js ":stream") (pathname (in_request request)) = false ->
  fetch JSON_parse JSON_stringify env upstream stream_upstream request = ReplyStreaming None.
Proof.
  intros Hkey Hm Halt Hpath. unfold fetch. rewrite Hkey, Hm, Halt, Hpath. cbn [negb orb].
  rewrite (bool_decide_eq_false_2 (js "POST" = js "OPTIONS")) by discriminate.
  rewrite !bool_decide_eq_true_2 by done.
  unfold handleStreamingRequest.
  destruct (isTargetModel ":streamGenerateContent" (in_request request)) eqn:E; [|done].
  apply stream_target_pathname in E. congruence.
Qed.

Lemma alt_sse_bypasses_engine_witness :
  engine_request ":generateContent" (in_request (demo_incoming ":generateContent" (Some (js "sse")))) /\
  fetch demo_parse demo_stringify (mkEnv None None None None)
    (fun _ _ => FetchOk demo_truncated) (fun _ _ => StreamOk demo_chunks)
    (demo_incoming ":generateContent" (Some (js "sse"))) = ReplyStreaming None.
Proof.
  split; [split; reflexivity|].
  apply alt_sse_bypasses_engine; reflexivity.
Defined.

